(** * Reelchemy: narrative assembly, host actions and the scroll player

    A shallow embedding of the logic of
    - [src/services/geminiService.ts]: both definitions of
      [analyzeTripAndGenerateStory] that the file contains ([V1], [V2]),
      and [generateBeatAudio];
    - [src/App.tsx]: [handleGenerate] and [processFiles];
    - [src/components/ScrollyStory.tsx]: the mount effect,
      [playBeatAudio] and [handleScroll];
    over the records of [src/types.ts].

    Conventions.
    - A JavaScript string is a [string] holding the UTF-8 encoding of its
      text.  [toLowerCase] is the engine's: the model takes it as a
      parameter ([Casing]).  [trim] removes the white space and line
      terminators of the language, in their encoding.
    - An integer-valued JavaScript number is a [Z], and [%] is [Z.rem].
      The scroll metrics are binary64 numbers ([float]) and their quotients
      are the correctly rounded ones; [num] is the value of such a number
      (a rational, or one of the three that are not finite, the two zeros
      being one value), and [Math.round] yields a [jint].
    - [undefined] and [null] are [None].
    - A thrown exception or a rejected promise is the [Err] branch of
      [result]; an [await] is a call.
    - The replies of the generative provider, of the speech provider and
      of the audio decoder are inputs.  A story reply is taken after
      [JSON.parse], in the shape the response schema declares.
    - A handler reads the state of the render that made it.  In
      [handleScroll], and in the states reached by [step], the component
      has rendered again before the next event is handled, so that a
      state update is in force by then; [handleScrollIn] is the handler
      of an earlier render, run before the component has rendered
      again. *)

From Stdlib Require Import PrimFloat FloatOps SpecFloat.
From Stdlib Require Import String Ascii List ZArith QArith Qround Qminmax Lia Bool Arith.
From Stdlib Require Import DecimalString.
Import ListNotations.
Local Open Scope list_scope.
Local Open Scope Z_scope.
Local Open Scope string_scope.

(* ===================================================================== *)
(** ** JavaScript primitives used by the sources *)
(* ===================================================================== *)

Module JS.

(** What [String.prototype.toLowerCase] does to text of ASCII characters:
    the letters [A]-[Z] become [a]-[z]. *)
Definition lower_ascii (c : ascii) : ascii :=
  let n := nat_of_ascii c in
  if (Nat.leb 65 n && Nat.leb n 90)%bool then ascii_of_nat (n + 32) else c.

Fixpoint asciiLowerCase (s : string) : string :=
  match s with
  | EmptyString => EmptyString
  | String c s' => String (lower_ascii c) (asciiLowerCase s')
  end.

(** Every character of the text is below [U+0080]. *)
Fixpoint isAscii (s : string) : bool :=
  match s with
  | EmptyString => true
  | String c s' => (Nat.ltb (nat_of_ascii c) 128 && isAscii s')%bool
  end.

(** [s.startsWith(t)]. *)
Fixpoint startsWith (s t : string) {struct t} : bool :=
  match t, s with
  | EmptyString, _ => true
  | String _ _, EmptyString => false
  | String b t', String a s' => (Ascii.eqb a b && startsWith s' t')%bool
  end.

(** [s.includes(t)]: [t] occurs in [s] at some offset. *)
Fixpoint includes (s t : string) : bool :=
  match s with
  | EmptyString => startsWith EmptyString t
  | String _ s' => (startsWith s t || includes s' t)%bool
  end.

(** A string is falsy exactly when it is empty. *)
Definition truthy (s : string) : bool :=
  match s with EmptyString => false | String _ _ => true end.

(** [a || b] on possibly missing strings. *)
Definition or_else (a : option string) (b : string) : string :=
  match a with
  | Some s => if truthy s then s else b
  | None => b
  end.

(** [a[k]] for an integer-valued number [k]: [undefined] out of range. *)
Definition array_get {A : Type} (a : list A) (k : Z) : option A :=
  if (k <? 0)%Z then None else nth_error a (Z.to_nat k).

(** [n || 1] on a length. *)
Definition or_one (n : Z) : Z := if (n =? 0)%Z then 1 else n.

(** [xs.join(sep)]. *)
Fixpoint join (sep : string) (xs : list string) : string :=
  match xs with
  | [] => EmptyString
  | [x] => x
  | x :: rest => x ++ sep ++ join sep rest
  end.

(** The text up to the first comma, and what follows that comma. *)
Fixpoint cut_comma (s : string) : string * option string :=
  match s with
  | EmptyString => (EmptyString, None)
  | String c s' =>
      if Ascii.eqb c ","%char then (EmptyString, Some s')
      else let (h, r) := cut_comma s' in (String c h, r)
  end.

(** [s.split(',')[1]]: the second comma-separated field, if there is one. *)
Definition split_comma_1 (s : string) : option string :=
  match snd (cut_comma s) with
  | None => None
  | Some rest => Some (fst (cut_comma rest))
  end.

(** Decimal rendering of an integer in a template literal. *)
Definition Number_toString (z : Z) : string :=
  NilZero.string_of_int (Z.to_int z).

(** The character [U+0022] and the line break of a template literal. *)
Definition dquote : string := String (ascii_of_nat 34) EmptyString.
Definition nl : string := String (ascii_of_nat 10) EmptyString.

End JS.

(** [String.prototype.toLowerCase] follows the case mappings of the
    Unicode standard the engine implements.  The model takes it as a
    parameter, of which it uses one fact: on text of ASCII characters the
    letters [A]-[Z] become [a]-[z] and nothing else changes. *)
Class Casing := {
  toLowerCase : string -> string;
  toLowerCase_ascii :
    forall s, JS.isAscii s = true -> toLowerCase s = JS.asciiLowerCase s
}.

(** Outcome of a call that can throw or reject. *)
Inductive exn : Type :=
| ApiError        (* the provider call rejected *)
| SyntaxError     (* JSON.parse threw *)
| TypeError       (* a property was read from undefined *)
| AudioError      (* "Audio generation failed", or decodeAudioData rejected *).

Inductive result (A : Type) : Type :=
| Ok (a : A)
| Err (e : exn).
Arguments Ok {A} a.
Arguments Err {A} e.

(* ===================================================================== *)
(** ** [src/types.ts] *)
(* ===================================================================== *)

Inductive CutPackCategory := Moody | Bright | Epic | Artsy.

Module CutPack.
Record t := mk
  { id : string; category : CutPackCategory; name : string;
    promise : string; description : string }.
End CutPack.

Module StoryArc.
Record t := mk
  { id : string; name : string; structure : string; bestFor : string }.
End StoryArc.

Inductive PaceLevel := SlowBurn | Balanced | Hypercut.
Inductive FocusTarget := People | Places | Food | Motion | Details | Vistas.
Inductive EndingStyle := MicDrop | SoftLanding | Cliffhanger.

Definition PaceLevel_str (p : PaceLevel) : string :=
  match p with
  | SlowBurn => "Slow Burn" | Balanced => "Balanced" | Hypercut => "Hypercut"
  end.

Definition FocusTarget_str (f : FocusTarget) : string :=
  match f with
  | People => "People" | Places => "Places" | Food => "Food"
  | Motion => "Motion" | Details => "Details" | Vistas => "Vistas"
  end.

Definition EndingStyle_str (e : EndingStyle) : string :=
  match e with
  | MicDrop => "Mic Drop" | SoftLanding => "Soft Landing"
  | Cliffhanger => "Cliffhanger"
  end.

Module LocationPoint.
Record t := mk
  { name : string; lat : Q; lng : Q; description : option string }.
End LocationPoint.

Inductive MediaSource := upload | cloud | ai.

Definition MediaSource_str (s : option MediaSource) : string :=
  match s with
  | Some upload => "upload" | Some cloud => "cloud" | Some ai => "ai"
  | None => "undefined"
  end.

Module MediaItem.
Record t := mk
  { id : string; url : string; mimeType : string;
    description : option string; location : option LocationPoint.t;
    timestamp : string; base64 : option string;
    source : option MediaSource }.
End MediaItem.

(** The bytes of a WAV file, and the buffer the audio context decodes
    them into. *)
Definition ArrayBuffer := list Byte.byte.
Inductive AudioBuffer : Type := Decoded (wav : ArrayBuffer).

Module StoryBeat.
Record t := mk
  { index : Z; text : string; associatedMediaId : option string;
    location : option LocationPoint.t; audioBuffer : option AudioBuffer }.
End StoryBeat.

Module RecallStory.
Record t := mk { title : string; beats : list StoryBeat.t }.
End RecallStory.

Inductive AppState :=
| IMPORTING | ROUTE_CONFIRMED | DESIGNING | ANALYZING
| PREMIERE | PLAYBACK | GENERATING_ASSET.

(* ===================================================================== *)
(** ** [src/services/geminiService.ts] *)
(* ===================================================================== *)

(** A part of the multimodal request. *)
Inductive Part :=
| InlineData (data mimeType : string)
| TextPart (text : string).

Module Request.
Record t := mk { model : string; parts : list Part }.
End Request.

(** A raw beat of the collaborator's reply, as the response schema
    declares it: [index], [text] and [locationName] are required,
    [mediaId] is not. *)
Module RawBeat.
Record t := mk
  { index : Z; text : string; locationName : string;
    mediaId : option string }.
End RawBeat.

(** The parsed reply; the schema requires neither property. *)
Module RawJson.
Record t := mk { title : option string; beats : option (list RawBeat.t) }.
End RawJson.

(** What [ai.models.generateContent] can come back with. *)
Inductive StoryResponse :=
| Rejected                      (* the call rejects *)
| NoText                        (* response.text is undefined or empty *)
| Malformed                     (* the text is not JSON *)
| Json (rawJson : RawJson.t).

(** [JSON.parse(response.text || "{}")]. *)
Definition parseResponse (r : StoryResponse) : result RawJson.t :=
  match r with
  | Rejected => Err ApiError
  | NoText => Ok (RawJson.mk None None)
  | Malformed => Err SyntaxError
  | Json rawJson => Ok rawJson
  end.

Module Params.
Record t := mk
  { title : string; cutPack : CutPack.t; arc : StoryArc.t;
    pace : PaceLevel; focus : list FocusTarget; ending : EndingStyle;
    media : list MediaItem.t; itinerary : list LocationPoint.t }.
End Params.

Definition indent : string := "                ".

(** The first definition of the file (lines 110-211). *)
Module V1.

Definition mediaPart (m : MediaItem.t) : Part :=
  match MediaItem.base64 m with
  | Some b =>
      if (JS.truthy b && JS.startsWith (MediaItem.mimeType m) "image")%bool
      then InlineData (JS.or_else (JS.split_comma_1 b) b) (MediaItem.mimeType m)
      else TextPart ("[Fragment: " ++ MediaItem.url m ++ " - "
                       ++ MediaSource_str (MediaItem.source m) ++ " source]")
  | None =>
      TextPart ("[Fragment: " ++ MediaItem.url m ++ " - "
                  ++ MediaSource_str (MediaItem.source m) ++ " source]")
  end.

Definition mediaParts (media : list MediaItem.t) : list Part :=
  map mediaPart (firstn 15 media).

Definition itineraryContext (itinerary : list LocationPoint.t) : string :=
  JS.join " -> " (map LocationPoint.name itinerary).

(** [Math.max(4, Math.min(media.length, 10))]. *)
Definition beatCountAsked (media : list MediaItem.t) : Z :=
  Z.max 4 (Z.min (Z.of_nat (length media)) 10).

Definition promptText (p : Params.t) : string :=
  JS.join JS.nl
    [ "";
      indent ++ "System: You are the Lead Narrative Architect at REELCHEMY STUDIO.";
      indent ++ "Project: " ++ Params.title p;
      indent ++ "Route: " ++ itineraryContext (Params.itinerary p);
      indent;
      indent ++ "NARRATIVE DIRECTION:";
      indent ++ "- Style: " ++ CutPack.name (Params.cutPack p)
             ++ " (" ++ CutPack.description (Params.cutPack p) ++ ")";
      indent ++ "- Structure: " ++ StoryArc.name (Params.arc p);
      indent ++ "- Pacing: " ++ PaceLevel_str (Params.pace p);
      indent ++ "- Key Focus: "
             ++ JS.join ", " (map FocusTarget_str (Params.focus p));
      "";
      indent ++ "REQUIREMENTS:";
      indent ++ "1. Analyze visual fragments deeply (Video Understanding enabled).";
      indent ++ "2. Use Search Grounding to enrich the narration with actual location details.";
      indent ++ "3. Weave a cinematic story arc across exactly "
             ++ JS.Number_toString (beatCountAsked (Params.media p)) ++ " beats.";
      indent ++ "4. Output only valid JSON.";
      "            " ].

Definition request (p : Params.t) : Request.t :=
  Request.mk "gemini-3-pro-preview"
    (mediaParts (Params.media p) ++ [TextPart (promptText p)])%list.

(** The callback mapped over the raw beats. *)
Definition resolveBeat {C : Casing} (itinerary : list LocationPoint.t)
  (b : RawBeat.t) : StoryBeat.t :=
  let loc :=
    match find (fun l => JS.includes (toLowerCase (LocationPoint.name l))
                           (toLowerCase (RawBeat.locationName b)))
               itinerary with
    | Some l => Some l
    | None =>
        JS.array_get itinerary
          (Z.rem (RawBeat.index b) (JS.or_one (Z.of_nat (length itinerary))))
    end in
  StoryBeat.mk (RawBeat.index b) (RawBeat.text b) (RawBeat.mediaId b) loc None.

(** Everything after the reply has arrived. *)
Definition assemble {C : Casing} (p : Params.t) (r : StoryResponse)
  : result RecallStory.t :=
  match parseResponse r with
  | Err e => Err e
  | Ok rawJson =>
      let beatsWithAudio :=
        map (resolveBeat (Params.itinerary p))
            (match RawJson.beats rawJson with Some bs => bs | None => [] end) in
      Ok (RecallStory.mk (JS.or_else (RawJson.title rawJson) (Params.title p))
                         beatsWithAudio)
  end.

Definition analyzeTripAndGenerateStory {C : Casing}
  (ai : Request.t -> StoryResponse) (p : Params.t) : result RecallStory.t :=
  assemble p (ai (request p)).

End V1.

(** The second definition of the file (lines 338-439). *)
Module V2.

Definition mediaPart (m : MediaItem.t) : Part :=
  match MediaItem.base64 m with
  | Some b =>
      if JS.truthy b
      then InlineData (JS.or_else (JS.split_comma_1 b) b) (MediaItem.mimeType m)
      else TextPart ("[Fragment: " ++ MediaItem.url m ++ "]")
  | None => TextPart ("[Fragment: " ++ MediaItem.url m ++ "]")
  end.

Definition mediaParts (media : list MediaItem.t) : list Part :=
  map mediaPart (firstn 15 media).

Definition itineraryContext (itinerary : list LocationPoint.t) : string :=
  JS.join " -> " (map LocationPoint.name itinerary).

Definition promptText (p : Params.t) : string :=
  JS.join JS.nl
    [ "";
      indent ++ "You are the Principal Director at REELCHEMY STUDIO.";
      indent ++ "Task: Turn these fragments (images and videos) into a cinematic Premiere.";
      indent;
      indent ++ "Voyage Title: " ++ Params.title p;
      indent ++ "Route: "
             ++ JS.or_else (Some (itineraryContext (Params.itinerary p)))
                           "Not specified";
      indent;
      indent ++ "NARRATIVE CONFIGURATION:";
      indent ++ "- Cut Pack (Style): " ++ CutPack.name (Params.cutPack p);
      indent ++ "- Story Arc (Structure): " ++ StoryArc.name (Params.arc p);
      indent ++ "- Pace: " ++ PaceLevel_str (Params.pace p);
      indent ++ "- Focus Elements: "
             ++ JS.join ", " (map FocusTarget_str (Params.focus p));
      indent ++ "- Ending Style: " ++ EndingStyle_str (Params.ending p);
      "";
      indent ++ "INSTRUCTIONS:";
      indent ++ "- Analyze the visual content of all videos and images deeply.";
      indent ++ "- Use Search Grounding to find interesting facts about the locations in the route.";
      indent ++ "- Create narrative " ++ JS.dquote ++ "Beats" ++ JS.dquote
             ++ " that weave these elements together.";
      indent ++ "- Return only valid JSON.";
      "            " ].

Definition request (p : Params.t) : Request.t :=
  Request.mk "gemini-3-pro-preview"
    (mediaParts (Params.media p) ++ [TextPart (promptText p)])%list.

Definition resolveBeat {C : Casing} (itinerary : list LocationPoint.t)
  (b : RawBeat.t) : StoryBeat.t :=
  let loc :=
    match find (fun l => JS.includes (toLowerCase (LocationPoint.name l))
                           (toLowerCase (RawBeat.locationName b)))
               itinerary with
    | Some l => Some l
    | None =>
        JS.array_get itinerary
          (Z.rem (RawBeat.index b) (JS.or_one (Z.of_nat (length itinerary))))
    end in
  StoryBeat.mk (RawBeat.index b) (RawBeat.text b) (RawBeat.mediaId b) loc None.

(** [rawJson.beats.map] throws when the reply has no [beats]. *)
Definition assemble {C : Casing} (p : Params.t) (r : StoryResponse)
  : result RecallStory.t :=
  match parseResponse r with
  | Err e => Err e
  | Ok rawJson =>
      match RawJson.beats rawJson with
      | None => Err TypeError
      | Some bs =>
          let beatsWithAudio := map (resolveBeat (Params.itinerary p)) bs in
          Ok (RecallStory.mk
                (JS.or_else (RawJson.title rawJson) (Params.title p))
                beatsWithAudio)
      end
  end.

Definition analyzeTripAndGenerateStory {C : Casing}
  (ai : Request.t -> StoryResponse) (p : Params.t) : result RecallStory.t :=
  assemble p (ai (request p)).

End V2.

(** [generateBeatAudio(text, voice)]: the provider either yields the WAV
    bytes or the promise rejects.  The reply is an input of the model; the
    number of earlier calls stands for the moment of the call. *)
Definition SpeechProvider := nat -> string -> string -> option ArrayBuffer.

Definition generateBeatAudio (tts : SpeechProvider) (call : nat)
  (text voice : string) : result ArrayBuffer :=
  match tts call text voice with
  | Some wav => Ok wav
  | None => Err AudioError
  end.

(* ===================================================================== *)
(** ** [src/App.tsx] *)
(* ===================================================================== *)

(** The component state the two actions read and write. *)
Module App.
Record t := mk
  { appState : AppState; tripTitle : string; media : list MediaItem.t;
    itinerary : list LocationPoint.t; story : option RecallStory.t;
    loadingMsg : string; isProcessing : bool;
    selectedCutPack : CutPack.t; selectedArc : StoryArc.t;
    pace : PaceLevel; focus : list FocusTarget; ending : EndingStyle }.

(** [useState] initial values. *)
Definition init (pack : CutPack.t) (arc : StoryArc.t) : t :=
  mk IMPORTING "REELCHEMY VOYAGE" [] [] None "" false pack arc
     Balanced [Vistas; Details] SoftLanding.

Definition setAppState (v : AppState) (a : t) : t :=
  mk v (tripTitle a) (media a) (itinerary a) (story a) (loadingMsg a)
     (isProcessing a) (selectedCutPack a) (selectedArc a) (pace a) (focus a)
     (ending a).

Definition setStory (v : RecallStory.t) (a : t) : t :=
  mk (appState a) (tripTitle a) (media a) (itinerary a) (Some v)
     (loadingMsg a) (isProcessing a) (selectedCutPack a) (selectedArc a)
     (pace a) (focus a) (ending a).

Definition setLoadingMsg (v : string) (a : t) : t :=
  mk (appState a) (tripTitle a) (media a) (itinerary a) (story a) v
     (isProcessing a) (selectedCutPack a) (selectedArc a) (pace a) (focus a)
     (ending a).

Definition setIsProcessing (v : bool) (a : t) : t :=
  mk (appState a) (tripTitle a) (media a) (itinerary a) (story a)
     (loadingMsg a) v (selectedCutPack a) (selectedArc a) (pace a) (focus a)
     (ending a).

Definition setMedia (f : list MediaItem.t -> list MediaItem.t) (a : t) : t :=
  mk (appState a) (tripTitle a) (f (media a)) (itinerary a) (story a)
     (loadingMsg a) (isProcessing a) (selectedCutPack a) (selectedArc a)
     (pace a) (focus a) (ending a).
End App.

(** What an action does to the outside, in the order it does it. *)
Inductive Effect :=
| CallAnalyze (p : Params.t)
| OpenAudioContext
| CallGenerateBeatAudio (i : nat) (text voice : string)
| CallDecodeAudioData (i : nat) (wav : ArrayBuffer)
| CloseAudioContext
| SetLoadingMsg (s : string)
| SetStory (s : RecallStory.t)
| SetAppState (a : AppState)
| ConsoleError (e : exn).

(** The action monad: component state and effect log threaded through
    calls that may throw. *)
Module Act.

Definition St : Type := App.t * list Effect.
Definition M (A : Type) : Type := St -> St * result A.

Definition ret {A} (a : A) : M A := fun s => (s, Ok a).

Definition bind {A B} (m : M A) (k : A -> M B) : M B :=
  fun s => match m s with
           | (s', Ok a) => k a s'
           | (s', Err e) => (s', Err e)
           end.

Definition throw {A} (e : exn) : M A := fun s => (s, Err e).

(** [try { body } catch (err) { handler(err) }]. *)
Definition try_catch (body : M unit) (handler : exn -> M unit) : M unit :=
  fun s => match body s with
           | (s', Ok tt) => (s', Ok tt)
           | (s', Err e) => handler e s'
           end.

Definition emit (e : Effect) : M unit :=
  fun s => ((fst s, (snd s ++ [e])%list), Ok tt).

Definition update (f : App.t -> App.t) : M unit :=
  fun s => ((f (fst s), snd s), Ok tt).

Definition lift {A} (r : result A) : M A := fun s => (s, r).

End Act.

Notation "x <- m ;; k" := (Act.bind m (fun x => k))
  (at level 61, m at next level, right associativity).
Notation "m ;;; k" := (Act.bind m (fun _ => k))
  (at level 61, right associativity).

Definition setAppState (v : AppState) : Act.M unit :=
  Act.emit (SetAppState v) ;;; Act.update (App.setAppState v).

Definition setLoadingMsg (v : string) : Act.M unit :=
  Act.emit (SetLoadingMsg v) ;;; Act.update (App.setLoadingMsg v).

Definition setStory (v : RecallStory.t) : Act.M unit :=
  Act.emit (SetStory v) ;;; Act.update (App.setStory v).

(** [ctx.decodeAudioData]: yields a buffer or rejects. *)
Definition AudioDecoder := ArrayBuffer -> option AudioBuffer.

Definition decodeAudioData (dec : AudioDecoder) (wav : ArrayBuffer)
  : result AudioBuffer :=
  match dec wav with
  | Some buf => Ok buf
  | None => Err AudioError
  end.

(** The voice table of the second copy of the component (line 784). *)
Definition voiceOf (c : CutPackCategory) : string :=
  match c with
  | Moody => "Kore"
  | Epic => "Fenrir"
  | Bright => "Puck"
  | Artsy => "Charon"
  end.

Definition withAudio (beat : StoryBeat.t) (buf : AudioBuffer) : StoryBeat.t :=
  StoryBeat.mk (StoryBeat.index beat) (StoryBeat.text beat)
    (StoryBeat.associatedMediaId beat) (StoryBeat.location beat) (Some buf).

Definition paramsOf (a : App.t) : Params.t :=
  Params.mk (App.tripTitle a) (App.selectedCutPack a) (App.selectedArc a)
    (App.pace a) (App.focus a) (App.ending a) (App.media a) (App.itinerary a).

Section HandleGenerate.

Variable analyze : Params.t -> result RecallStory.t.
Variable tts : SpeechProvider.
Variable dec : AudioDecoder.

(** The [for] loop over [generatedStory.beats], from position [i], with
    [n] the length of the whole array; it yields the beats as the loop
    has mutated them. *)
Fixpoint masterBeats (voice : string) (n : nat) (i : nat)
  (beats : list StoryBeat.t) : Act.M (list StoryBeat.t) :=
  match beats with
  | [] => Act.ret []
  | beat :: rest =>
      Act.emit (CallGenerateBeatAudio i (StoryBeat.text beat) voice) ;;;
      ab <- Act.lift (generateBeatAudio tts i (StoryBeat.text beat) voice) ;;
      Act.emit (CallDecodeAudioData i ab) ;;;
      buf <- Act.lift (decodeAudioData dec ab) ;;
      setLoadingMsg ("Mastering Beat " ++ JS.Number_toString (Z.of_nat i + 1)
                       ++ "/" ++ JS.Number_toString (Z.of_nat n) ++ "...") ;;;
      rest' <- masterBeats voice n (S i) rest ;;
      Act.ret (withAudio beat buf :: rest')
  end.

(** [handleGenerate], lines 764-802; [a0] is the state of the render the
    handler closes over. *)
Definition handleGenerate (a0 : App.t) : Act.M unit :=
  setAppState ANALYZING ;;;
  setLoadingMsg "Activating Thinking Mode..." ;;;
  Act.try_catch
    (Act.emit (CallAnalyze (paramsOf a0)) ;;;
     generatedStory <- Act.lift (analyze (paramsOf a0)) ;;
     setLoadingMsg "Developing Final Premiere..." ;;;
     Act.emit OpenAudioContext ;;;
     let voice := voiceOf (CutPack.category (App.selectedCutPack a0)) in
     beats <- masterBeats voice (length (RecallStory.beats generatedStory)) 0
                (RecallStory.beats generatedStory) ;;
     Act.emit CloseAudioContext ;;;
     setStory (RecallStory.mk (RecallStory.title generatedStory) beats) ;;;
     setAppState PREMIERE)
    (fun err =>
       Act.emit (ConsoleError err) ;;;
       setAppState IMPORTING).

(** One click on the generate button, from the rendered state [a0]. *)
Definition runGenerate (a0 : App.t) : App.t * list Effect :=
  fst (handleGenerate a0 (a0, [])).

End HandleGenerate.

(** The [generateBeatAudio] requests an effect log contains, by beat
    position, and whether it stores a story. *)
Definition synthesized (log : list Effect) : list nat :=
  flat_map (fun e => match e with
                     | CallGenerateBeatAudio i _ _ => [i]
                     | _ => []
                     end) log.

Definition storesStory (e : Effect) : bool :=
  match e with SetStory _ => true | _ => false end.

(** *** [processFiles] *)

Module File.
Record t := mk
  { name : string; type : string;
    dataUrl : option string (* what the reader ends with; null on error *) }.
End File.

(** The variables the [onloadend] callbacks share, and the readers whose
    callback has not run yet (with the [idx] each closes over). *)
Module Upload.
Record t := mk
  { files : list File.t; newMedia : list MediaItem.t;
    processedCount : nat; readers : list (nat * File.t) }.
End Upload.

(** What the environment supplies when a callback runs. *)
Module Tick.
Record t := mk { now : Z; objectUrl : string; isoTime : string }.
End Tick.

Fixpoint indexed {A} (i : nat) (xs : list A) : list (nat * A) :=
  match xs with
  | [] => []
  | x :: rest => (i, x) :: indexed (S i) rest
  end.

(** [processFiles(files)]: the synchronous part. *)
Definition processFiles (files : list File.t) (a : App.t)
  : App.t * Upload.t :=
  (App.setIsProcessing true a, Upload.mk files [] 0 (indexed 0 files)).

Fixpoint remove_nth {A} (k : nat) (xs : list A) : list A :=
  match k, xs with
  | _, [] => []
  | O, _ :: rest => rest
  | S k', x :: rest => x :: remove_nth k' rest
  end.

(** The [onloadend] callback of the [k]-th pending reader runs. *)
Definition onloadend (k : nat) (env : Tick.t) (s : App.t * Upload.t)
  : App.t * Upload.t :=
  let (a, u) := s in
  match nth_error (Upload.readers u) k with
  | None => s
  | Some (idx, file) =>
      let item :=
        MediaItem.mk
          ("media-" ++ JS.Number_toString (Tick.now env) ++ "-"
             ++ JS.Number_toString (Z.of_nat idx))
          (Tick.objectUrl env) (File.type file) None None (Tick.isoTime env)
          (File.dataUrl file) (Some upload) in
      let newMedia := (Upload.newMedia u ++ [item])%list in
      let processedCount := S (Upload.processedCount u) in
      let u' := Upload.mk (Upload.files u) newMedia processedCount
                  (remove_nth k (Upload.readers u)) in
      if Nat.eqb processedCount (length (Upload.files u))
      then (App.setIsProcessing false
              (App.setMedia (fun prev => (prev ++ newMedia)%list) a), u')
      else (a, u')
  end.

(** Any sequence of callbacks after the synchronous part. *)
Fixpoint callbacks (evs : list (nat * Tick.t)) (s : App.t * Upload.t)
  : App.t * Upload.t :=
  match evs with
  | [] => s
  | (k, env) :: rest => callbacks rest (onloadend k env s)
  end.

(* ===================================================================== *)
(** ** [src/components/ScrollyStory.tsx] *)
(* ===================================================================== *)

(** The value of a binary64 number. *)
Inductive num := Fin (q : Q) | NaN | PosInf | NegInf.

(** The result of [Math.round], and the type of [activeBeatIndex]. *)
Inductive jint := Int (z : Z) | INaN | IPosInf | INegInf.

(** The rational [m * 2^e]. *)
Definition scaled (m : positive) (e : Z) : Q :=
  if (0 <=? e)%Z then inject_Z (Z.pos m * 2 ^ e)
  else Z.pos m # Z.to_pos (2 ^ (- e)).

(** The value a binary64 number stands for.  The two zeros are one
    value: the component does not tell them apart. *)
Definition valueOf (x : float) : num :=
  match Prim2SF x with
  | S754_zero _ => Fin 0
  | S754_finite s m e => Fin (if s then - scaled m e else scaled m e)%Q
  | S754_infinity false => PosInf
  | S754_infinity true => NegInf
  | S754_nan => NaN
  end.

(** [x / y]: the binary64 quotient. *)
Definition js_div (x y : float) : num := valueOf (x / y)%float.

(** [Math.round]: the nearest integer, halves going up. *)
Definition Math_round (n : num) : jint :=
  match n with
  | Fin q => Int (Qfloor (q + (1 # 2))%Q)
  | NaN => INaN
  | PosInf => IPosInf
  | NegInf => INegInf
  end.

(** [a !== b]. *)
Definition strict_neq (a b : jint) : bool :=
  match a, b with
  | Int x, Int y => negb (x =? y)%Z
  | IPosInf, IPosInf => false
  | INegInf, INegInf => false
  | _, _ => true
  end.

(** [a < n] for an array length [n]. *)
Definition lt_length (a : jint) (n : nat) : bool :=
  match a with
  | Int x => (x <? Z.of_nat n)%Z
  | INegInf => true
  | INaN | IPosInf => false
  end.

(** [beats[a]]. *)
Definition beat_at (beats : list StoryBeat.t) (a : jint) : option StoryBeat.t :=
  match a with
  | Int x => JS.array_get beats x
  | _ => None
  end.

(** What the audio output observes.  A node is named by the order of its
    creation. *)
Inductive AudioEvent :=
| Opened                                   (* new AudioContext() *)
| Started (node : nat) (buffer : AudioBuffer)   (* source.start() *)
| Stopped (node : nat)                     (* source.stop() *)
| Ended (node : nat)                       (* the clip played to its end *)
| Closed                                   (* context.close() *).

(** The nodes that sound after a history of events. *)
Definition hear (s : list nat) (e : AudioEvent) : list nat :=
  match e with
  | Opened => s
  | Started n _ => n :: s
  | Stopped n => remove Nat.eq_dec n s
  | Ended n => remove Nat.eq_dec n s
  | Closed => []
  end.

Definition sounding (log : list AudioEvent) : list nat :=
  fold_left hear log [].

Module Metrics.
Record t := mk { scrollTop : float; scrollHeight : float; clientHeight : float }.
End Metrics.

Module Player.
Record t := mk
  { muted : bool; activeBeatIndex : jint; scrollProgress : num;
    audioContextRef : bool               (* is .current set? *);
    currentSourceRef : option nat;
    nodes : nat                          (* buffer sources created so far *);
    audioLog : list AudioEvent }.

Definition setMuted (v : bool) (p : t) : t :=
  mk v (activeBeatIndex p) (scrollProgress p) (audioContextRef p)
     (currentSourceRef p) (nodes p) (audioLog p).

Definition setActiveBeatIndex (v : jint) (p : t) : t :=
  mk (muted p) v (scrollProgress p) (audioContextRef p)
     (currentSourceRef p) (nodes p) (audioLog p).

Definition setScrollProgress (v : num) (p : t) : t :=
  mk (muted p) (activeBeatIndex p) v (audioContextRef p)
     (currentSourceRef p) (nodes p) (audioLog p).

Definition log (e : AudioEvent) (p : t) : t :=
  mk (muted p) (activeBeatIndex p) (scrollProgress p) (audioContextRef p)
     (currentSourceRef p) (nodes p) (audioLog p ++ [e])%list.
End Player.

(** First render of the component with its props, followed by the mount
    effect (lines 17-31). *)
Definition mount (story : RecallStory.t) : Player.t :=
  Player.mk false (Int 0) (Fin 0) true None 0 [Opened].

(** The cleanup of the mount effect. *)
Definition unmount (p : Player.t) : Player.t :=
  if Player.audioContextRef p then Player.log Closed p else p.

(** Lines 36-38: [currentSourceRef.current.stop()], errors swallowed. *)
Definition stopCurrent (p : Player.t) : Player.t :=
  match Player.currentSourceRef p with
  | Some n => Player.log (Stopped n) p
  | None => p
  end.

(** Lines 40-44: create a source for the buffer, start it, remember it. *)
Definition startSource (buf : AudioBuffer) (p : Player.t) : Player.t :=
  let source := Player.nodes p in
  Player.mk (Player.muted p) (Player.activeBeatIndex p)
    (Player.scrollProgress p) (Player.audioContextRef p) (Some source)
    (S source) (Player.audioLog p ++ [Started source buf])%list.

(** [playBeatAudio(beat)]; [beat] is [None] when the caller indexed the
    array out of range. *)
Definition playBeatAudio (beat : option StoryBeat.t) (p : Player.t)
  : result Player.t :=
  if (negb (Player.audioContextRef p) || Player.muted p)%bool then Ok p
  else match beat with
       | None => Err TypeError
       | Some b =>
           match StoryBeat.audioBuffer b with
           | None => Ok p
           | Some buf => Ok (startSource buf (stopCurrent p))
           end
       end.

(** [handleScroll], as the handler of the render of the state [p];
    [container] is [scrollContainerRef.current] and [innerHeight] is
    [window.innerHeight].  The second component tells whether the handler
    threw. *)
Definition handleScroll (story : RecallStory.t) (container : option Metrics.t)
  (innerHeight : float) (p : Player.t) : Player.t * option exn :=
  match container with
  | None => (p, None)
  | Some m =>
      let progress :=
        js_div (Metrics.scrollTop m)
               (Metrics.scrollHeight m - Metrics.clientHeight m)%float in
      let p1 := Player.setScrollProgress progress p in
      let newIndex := Math_round (js_div (Metrics.scrollTop m) innerHeight) in
      if (strict_neq newIndex (Player.activeBeatIndex p)
          && lt_length newIndex (length (RecallStory.beats story)))%bool
      then
        let p2 := Player.setActiveBeatIndex newIndex p1 in
        match playBeatAudio (beat_at (RecallStory.beats story) newIndex) p2 with
        | Ok p3 => (p3, None)
        | Err e => (p2, Some e)
        end
      else (p1, None)
  end.

(** The handler of an earlier render, run on the player as it is now.
    [muted] and [activeBeatIndex] are constants of the render that made
    the handler ([render]); the refs are read when the event is handled,
    and the state updates apply to the current state ([p]). *)
Definition playBeatAudioIn (render : Player.t) (beat : option StoryBeat.t)
  (p : Player.t) : result Player.t :=
  if (negb (Player.audioContextRef p) || Player.muted render)%bool then Ok p
  else match beat with
       | None => Err TypeError
       | Some b =>
           match StoryBeat.audioBuffer b with
           | None => Ok p
           | Some buf => Ok (startSource buf (stopCurrent p))
           end
       end.

Definition handleScrollIn (render : Player.t) (story : RecallStory.t)
  (container : option Metrics.t) (innerHeight : float) (p : Player.t)
  : Player.t * option exn :=
  match container with
  | None => (p, None)
  | Some m =>
      let progress :=
        js_div (Metrics.scrollTop m)
               (Metrics.scrollHeight m - Metrics.clientHeight m)%float in
      let p1 := Player.setScrollProgress progress p in
      let newIndex := Math_round (js_div (Metrics.scrollTop m) innerHeight) in
      if (strict_neq newIndex (Player.activeBeatIndex render)
          && lt_length newIndex (length (RecallStory.beats story)))%bool
      then
        let p2 := Player.setActiveBeatIndex newIndex p1 in
        match playBeatAudioIn render
                (beat_at (RecallStory.beats story) newIndex) p2 with
        | Ok p3 => (p3, None)
        | Err e => (p2, Some e)
        end
      else (p1, None)
  end.

(** A clip that sounds plays to its end. *)
Definition clipEnds (n : nat) (p : Player.t) : Player.t :=
  if in_dec Nat.eq_dec n (sounding (Player.audioLog p))
  then Player.log (Ended n) p else p.

(** What can happen to a mounted player.  The component declares
    [setMuted] (line 18); no control of the component calls it. *)
Inductive Action :=
| Scroll (container : option Metrics.t) (innerHeight : float)
| ClipEnds (node : nat)
| SetMuted (v : bool).

Definition step (story : RecallStory.t) (a : Action) (p : Player.t) : Player.t :=
  match a with
  | Scroll c h => fst (handleScroll story c h p)
  | ClipEnds n => clipEnds n p
  | SetMuted v => Player.setMuted v p
  end.

Definition run (story : RecallStory.t) (acts : list Action) (p : Player.t)
  : Player.t :=
  fold_left (fun q a => step story a q) acts p.

Inductive reachable (story : RecallStory.t) : Player.t -> Prop :=
| reach_mount : reachable story (mount story)
| reach_step : forall p a,
    reachable story p -> reachable story (step story a p).

(** [clamp(x, 0, 1)] on a finite number. *)
Definition clamp01 (q : Q) : Q := Qmax 0 (Qmin 1 q).


From Stdlib Require Import Permutation.

(* ===================================================================== *)
(** ** The other services of [src/services/geminiService.ts] *)
(* ===================================================================== *)

Module Str.

(** The text with the given UTF-8 bytes. *)
Fixpoint ofBytes (l : list nat) : string :=
  match l with
  | [] => EmptyString
  | n :: rest => String (ascii_of_nat n) (ofBytes rest)
  end.

(** What [String.prototype.trim] removes: the WhiteSpace and
    LineTerminator code points of the language, each in its encoding. *)
Definition whiteSpace : list string :=
  map ofBytes
    [ [9]; [10]; [11]; [12]; [13]       (* U+0009 - U+000D *);
      [32]                              (* U+0020 *);
      [194; 160]                        (* U+00A0 *);
      [225; 154; 128]                   (* U+1680 *);
      [226; 128; 128]; [226; 128; 129]; [226; 128; 130]; [226; 128; 131];
      [226; 128; 132]; [226; 128; 133]; [226; 128; 134]; [226; 128; 135];
      [226; 128; 136]; [226; 128; 137]; [226; 128; 138]
                                        (* U+2000 - U+200A *);
      [226; 128; 168]; [226; 128; 169]  (* U+2028, U+2029 *);
      [226; 128; 175]                   (* U+202F *);
      [226; 129; 159]                   (* U+205F *);
      [227; 128; 128]                   (* U+3000 *);
      [239; 187; 191]                   (* U+FEFF *) ]%nat.

(** [s] without [w] at its start, when it starts with [w]. *)
Fixpoint dropPrefix (w s : string) : option string :=
  match w, s with
  | EmptyString, _ => Some s
  | String _ _, EmptyString => None
  | String a w', String b s' =>
      if Ascii.eqb a b then dropPrefix w' s' else None
  end.

(** [s] without the first of [ws] it starts with. *)
Fixpoint dropFirst (ws : list string) (s : string) : option string :=
  match ws with
  | [] => None
  | w :: rest =>
      match dropPrefix w s with
      | Some r => Some r
      | None => dropFirst rest s
      end
  end.

(** Dropping from the start for as long as one of [ws] is there; no text
    needs more rounds than it has bytes. *)
Fixpoint strip (ws : list string) (fuel : nat) (s : string) : string :=
  match fuel with
  | O => s
  | S n =>
      match dropFirst ws s with
      | Some r => strip ws n r
      | None => s
      end
  end.

Fixpoint rev (s : string) : string :=
  match s with
  | EmptyString => EmptyString
  | String c s' => rev s' ++ String c EmptyString
  end.

Definition trimStart (s : string) : string :=
  strip whiteSpace (String.length s) s.

Definition trimEnd (s : string) : string :=
  rev (strip (map rev whiteSpace) (String.length s) (rev s)).

(** [s.trim()]. *)
Definition trim (s : string) : string := trimEnd (trimStart s).

(** A missing value inside a template literal. *)
Definition shown (o : option string) : string :=
  match o with Some s => s | None => "undefined" end.

End Str.

(** Why a service call did not yield its value. *)
Inductive ServiceError :=
| ProviderRejected        (* the provider call rejected *)
| NotJson                 (* JSON.parse threw *)
| ImageGenerationFailed   (* new Error("Image generation failed") *)
| PartsMissing            (* .find read from an undefined parts array *)
| PollRejected            (* getVideosOperation rejected *)
| DownloadFailed          (* fetch or blob() rejected *).

Inductive ImageAspectRatio :=
| I1x1 | I2x3 | I3x2 | I3x4 | I4x3 | I9x16 | I16x9 | I21x9.
Inductive ImageSize := Size1K | Size2K | Size4K.
Inductive VideoAspectRatio := V16x9 | V9x16.

(** *** [extractItinerary] *)

Inductive ItineraryReply :=
| ItRejected
| ItNoText                               (* response.text undefined or empty *)
| ItMalformed
| ItJson (points : list LocationPoint.t).

Definition itineraryPrompt (text : string) : string :=
  "Extract a list of travel locations from this description: " ++ JS.dquote
    ++ text ++ JS.dquote ++ ". " ++ JS.nl
    ++ "        Provide estimated latitude and longitude for each." ++ JS.nl
    ++ "        Output strictly valid JSON array of objects: [{"
    ++ JS.dquote ++ "name" ++ JS.dquote ++ ": " ++ JS.dquote ++ "string"
    ++ JS.dquote ++ ", " ++ JS.dquote ++ "lat" ++ JS.dquote ++ ": number, "
    ++ JS.dquote ++ "lng" ++ JS.dquote ++ ": number}]".

(** [JSON.parse(response.text || "[]")]. *)
Definition extractItinerary (geo : string -> ItineraryReply) (text : string)
  : ServiceError + list LocationPoint.t :=
  match geo (itineraryPrompt text) with
  | ItRejected => inl ProviderRejected
  | ItNoText => inr []
  | ItMalformed => inl NotJson
  | ItJson points => inr points
  end.

(** *** [transcribeAudio] *)

(** [response.text?.trim() || ""]; [None] is a rejected call. *)
Definition transcribeAudio (stt : string -> option (option string))
  (base64Audio : string) : ServiceError + string :=
  match stt base64Audio with
  | None => inl ProviderRejected
  | Some text => inr (JS.or_else (option_map Str.trim text) "")
  end.

(** *** [generateImage] *)

(** A part of the first candidate's content. *)
Inductive ImagePart :=
| ImgText (text : string)
| ImgInline (data : option string).

Inductive ImageReply :=
| ImgRejected
| ImgNoCandidate          (* candidates, candidates[0] or content missing *)
| ImgNoParts              (* content without a parts array *)
| ImgParts (parts : list ImagePart).

Definition hasInlineData (p : ImagePart) : bool :=
  match p with ImgInline _ => true | ImgText _ => false end.

Definition generateImage
  (imagen : string -> ImageAspectRatio -> ImageSize -> ImageReply)
  (prompt : string) (aspectRatio : ImageAspectRatio) (size : ImageSize)
  : ServiceError + string :=
  match imagen prompt aspectRatio size with
  | ImgRejected => inl ProviderRejected
  | ImgNoCandidate => inl ImageGenerationFailed
  | ImgNoParts => inl PartsMissing
  | ImgParts parts =>
      match find hasInlineData parts with
      | Some (ImgInline (Some data)) =>
          if JS.truthy data then inr ("data:image/png;base64," ++ data)
          else inl ImageGenerationFailed
      | _ => inl ImageGenerationFailed
      end
  end.

(** *** [generateVideo] *)

Inductive OpReply :=
| OpRejected
| Op (done : bool) (uri : option string).

(** The video provider: the reply to the generation request, the reply to
    the [k]-th status request, the download, and the key of the
    environment. *)
Module Veo.
Record t := mk
  { generateVideos : string -> VideoAspectRatio -> OpReply;
    getVideosOperation : nat -> OpReply;
    fetch : string -> option string      (* the object URL of the blob *);
    API_KEY : option string }.
End Veo.

(** The [while (!operation.done)] loop after [polls] status requests;
    each turn sleeps 5000 ms and asks once.  [fuel] bounds the turns the
    model follows: [None] says the loop is still turning. *)
Fixpoint pollUntilDone (veo : Veo.t) (fuel polls : nat) (done : bool)
  (uri : option string) : option (nat * (ServiceError + option string)) :=
  if done then Some (polls, inr uri)
  else match fuel with
       | O => None
       | S fuel' =>
           match Veo.getVideosOperation veo polls with
           | OpRejected => Some (S polls, inl PollRejected)
           | Op done' uri' => pollUntilDone veo fuel' (S polls) done' uri'
           end
       end.

(** [generateVideo]: the number of 5000 ms sleeps and the outcome. *)
Definition generateVideo (veo : Veo.t) (fuel : nat) (prompt : string)
  (aspectRatio : VideoAspectRatio) : option (nat * (ServiceError + string)) :=
  match Veo.generateVideos veo prompt aspectRatio with
  | OpRejected => Some (0%nat, inl ProviderRejected)
  | Op done uri =>
      match pollUntilDone veo fuel 0 done uri with
      | None => None
      | Some (sleeps, inl e) => Some (sleeps, inl e)
      | Some (sleeps, inr downloadLink) =>
          match Veo.fetch veo (Str.shown downloadLink ++ "&key="
                                 ++ Str.shown (Veo.API_KEY veo)) with
          | Some objectUrl => Some (sleeps, inr objectUrl)
          | None => Some (sleeps, inl DownloadFailed)
          end
      end
  end.

(* ===================================================================== *)
(** ** The other actions of [src/App.tsx] (second copy, lines 608-802) *)
(* ===================================================================== *)

Inductive GenType := image | video.

(** The component state that [App.t] leaves out. *)
Module Desk.
Record t := mk
  { naturalItinerary : string; cloudLink : string; genPrompt : string;
    genType : GenType; imageAspectRatio : ImageAspectRatio;
    imageSize : ImageSize; videoAspectRatio : VideoAspectRatio }.

Definition init : t := mk "" "" "" image I16x9 Size1K V16x9.

Definition setNaturalItinerary (v : string) (d : t) : t :=
  mk v (cloudLink d) (genPrompt d) (genType d) (imageAspectRatio d)
     (imageSize d) (videoAspectRatio d).

Definition setGenPrompt (v : string) (d : t) : t :=
  mk (naturalItinerary d) (cloudLink d) v (genType d) (imageAspectRatio d)
     (imageSize d) (videoAspectRatio d).
End Desk.

Module Studio.
Record t := mk { app : App.t; desk : Desk.t }.

Definition onApp (f : App.t -> App.t) (s : t) : t := mk (f (app s)) (desk s).
Definition onDesk (f : Desk.t -> Desk.t) (s : t) : t := mk (app s) (f (desk s)).
End Studio.

Definition setItinerary (f : list LocationPoint.t -> list LocationPoint.t)
  (a : App.t) : App.t :=
  App.mk (App.appState a) (App.tripTitle a) (App.media a)
    (f (App.itinerary a)) (App.story a) (App.loadingMsg a)
    (App.isProcessing a) (App.selectedCutPack a) (App.selectedArc a)
    (App.pace a) (App.focus a) (App.ending a).

Definition setFocus (f : list FocusTarget -> list FocusTarget) (a : App.t)
  : App.t :=
  App.mk (App.appState a) (App.tripTitle a) (App.media a) (App.itinerary a)
    (App.story a) (App.loadingMsg a) (App.isProcessing a)
    (App.selectedCutPack a) (App.selectedArc a) (App.pace a)
    (f (App.focus a)) (App.ending a).

(** What the user is shown besides the state. *)
Inductive Notice :=
| Alert (message : string)
| ConsoleLog (e : ServiceError).

(** [handleExtractJourney], lines 722-735. *)
Definition handleExtractJourney (geo : string -> ItineraryReply)
  (s : Studio.t) : Studio.t * list Notice :=
  let naturalItinerary := Desk.naturalItinerary (Studio.desk s) in
  if negb (JS.truthy (Str.trim naturalItinerary)) then (s, [])
  else
    let s1 :=
      Studio.onApp (App.setLoadingMsg "Geospatial Synthesis...")
        (Studio.onApp (App.setIsProcessing true) s) in
    let finally (s' : Studio.t) :=
      Studio.onDesk (Desk.setNaturalItinerary "")
        (Studio.onApp (App.setIsProcessing false) s') in
    match extractItinerary geo naturalItinerary with
    | inr points =>
        (finally (Studio.onApp
                    (setItinerary (fun prev => (prev ++ points)%list)) s1), [])
    | inl _ => (finally s1, [Alert "Studio connection failed."])
    end.

(** The media item [handleGenerateAsset] appends for an image and for a
    video. *)
Definition generatedImageItem (env : Tick.t) (url : string) : MediaItem.t :=
  MediaItem.mk ("ai-" ++ JS.Number_toString (Tick.now env)) url "image/png"
    None None (Tick.isoTime env) (Some url) (Some ai).

Definition generatedVideoItem (env : Tick.t) (url : string) : MediaItem.t :=
  MediaItem.mk ("ai-" ++ JS.Number_toString (Tick.now env)) url "video/mp4"
    None None (Tick.isoTime env) None (Some ai).

(** [handleGenerateAsset], lines 699-719.  [genImage] and [genVideo] are
    the two services; [genVideo] yields [None] while its promise is
    pending, and then the handler has not left its [await]. *)
Definition handleGenerateAsset
  (genImage : string -> ImageAspectRatio -> ImageSize -> ServiceError + string)
  (genVideo : string -> VideoAspectRatio -> option (ServiceError + string))
  (env : Tick.t) (s : Studio.t) : Studio.t * list Notice :=
  let d := Studio.desk s in
  if negb (JS.truthy (Desk.genPrompt d)) then (s, [])
  else
    let s1 :=
      Studio.onApp
        (App.setLoadingMsg
           (match Desk.genType d with
            | image => "Generating High-Quality Image..."
            | video => "Synthesizing AI Video..."
            end))
        (Studio.onApp (App.setIsProcessing true) s) in
    let finally (s' : Studio.t) :=
      Studio.onApp (App.setIsProcessing false) s' in
    let succeed (item : MediaItem.t) :=
      (finally
         (Studio.onDesk (Desk.setGenPrompt "")
            (Studio.onApp (App.setAppState IMPORTING)
               (Studio.onApp
                  (App.setMedia (fun prev => (prev ++ [item])%list)) s1))),
       []) in
    let fail (e : ServiceError) :=
      (finally s1, [ConsoleLog e; Alert "Generation failed. Check console."]) in
    match Desk.genType d with
    | image =>
        match genImage (Desk.genPrompt d) (Desk.imageAspectRatio d)
                (Desk.imageSize d) with
        | inr url => succeed (generatedImageItem env url)
        | inl e => fail e
        end
    | video =>
        match genVideo (Desk.genPrompt d) (Desk.videoAspectRatio d) with
        | None => (s1, [])
        | Some (inr url) => succeed (generatedVideoItem env url)
        | Some (inl e) => fail e
        end
    end.

(** *** The inline handlers of the lists *)

(** [prev.filter(x => x.id !== m.id)], lines 338 and 919. *)
Definition removeMedia (id : string) (prev : list MediaItem.t)
  : list MediaItem.t :=
  filter (fun x => negb (String.eqb (MediaItem.id x) id)) prev.

(** [prev.filter((_, idx) => idx !== i)], line 900; [from] is the index
    of the head. *)
Fixpoint filterIndex {A} (keep : nat -> bool) (from : nat) (prev : list A)
  : list A :=
  match prev with
  | [] => []
  | x :: rest =>
      if keep from then x :: filterIndex keep (S from) rest
      else filterIndex keep (S from) rest
  end.

Definition removeStop (i : nat) (prev : list LocationPoint.t)
  : list LocationPoint.t :=
  filterIndex (fun idx => negb (Nat.eqb idx i)) 0 prev.

Definition FocusTarget_eqb (a b : FocusTarget) : bool :=
  match a, b with
  | People, People | Places, Places | Food, Food
  | Motion, Motion | Details, Details | Vistas, Vistas => true
  | _, _ => false
  end.

(** [prev.includes(f) ? prev.filter(x => x !== f) : [...prev, f]],
    lines 515 and 1055. *)
Definition toggleFocus (f : FocusTarget) (prev : list FocusTarget)
  : list FocusTarget :=
  if existsb (FocusTarget_eqb f) prev
  then filter (fun x => negb (FocusTarget_eqb x f)) prev
  else (prev ++ [f])%list.

(* ===================================================================== *)
(** ** The rest of [src/components/ScrollyStory.tsx] *)
(* ===================================================================== *)

(** [story.beats[activeBeatIndex]], line 63. *)
Definition activeBeat (story : RecallStory.t) (p : Player.t)
  : option StoryBeat.t :=
  beat_at (RecallStory.beats story) (Player.activeBeatIndex p).

(** [m.id === activeBeat?.associatedMediaId]. *)
Definition showsBeat (beat : option StoryBeat.t) (m : MediaItem.t) : bool :=
  match beat with
  | Some b =>
      match StoryBeat.associatedMediaId b with
      | Some id => String.eqb (MediaItem.id m) id
      | None => false
      end
  | None => false
  end.

(** [media.find(...) || media[0]], line 64. *)
Definition activeMedia (story : RecallStory.t) (media : list MediaItem.t)
  (p : Player.t) : option MediaItem.t :=
  match find (showsBeat (activeBeat story p)) media with
  | Some m => Some m
  | None => JS.array_get media 0
  end.
(* ===================================================================== *)
(** ** Vocabulary of the statements *)
(* ===================================================================== *)

(** [t] occurs in [s]: some text before it, some text after it. *)
Definition occurs_in (t s : string) : Prop :=
  exists a b, s = a ++ t ++ b.

(** The lowering of text of ASCII characters, as an engine; the scenarios
    below use ASCII names only. *)
#[global] Instance asciiCasing : Casing :=
  {| toLowerCase := JS.asciiLowerCase;
     toLowerCase_ascii := fun s _ => eq_refl |}.

(** The point's name contains the beat's location name, letter case
    aside: the lower-cased name contains the lower-cased location name. *)
Definition names {C : Casing} (l : LocationPoint.t) (locationName : string)
  : Prop :=
  occurs_in (toLowerCase locationName) (toLowerCase (LocationPoint.name l)).

(** [p] is the first point of the itinerary whose name does. *)
Definition first_named {C : Casing} (itinerary : list LocationPoint.t)
  (locationName : string) (p : LocationPoint.t) : Prop :=
  exists pre post, itinerary = (pre ++ p :: post)%list /\
                   names p locationName /\
                   forall q, In q pre -> ~ names q locationName.

Definition unnamed {C : Casing} (itinerary : list LocationPoint.t)
  (locationName : string) : Prop :=
  forall q, In q itinerary -> ~ names q locationName.

(** The predicate handed to [itinerary.find]. *)
Definition matches {C : Casing} (b : RawBeat.t) (l : LocationPoint.t) : bool :=
  JS.includes (toLowerCase (LocationPoint.name l))
              (toLowerCase (RawBeat.locationName b)).

(** The itinerary and the reply of the scenarios. *)
Definition Rome : LocationPoint.t := LocationPoint.mk "Rome" (419 # 10) (125 # 10) None.
Definition Venice : LocationPoint.t := LocationPoint.mk "Venice" (454 # 10) (123 # 10) None.

(** Indices 0, 1, 2, ... in this order. *)
Definition contiguous (l : list Z) : Prop :=
  l = map Z.of_nat (seq 0 (length l)).

(** The beats a parsed reply carries, none when it has no [beats]. *)
Definition repliedBeats (j : RawJson.t) : list RawBeat.t :=
  match RawJson.beats j with Some bs => bs | None => [] end.

(** A reply that always comes back the same. *)
Definition always (r : StoryResponse) : Request.t -> StoryResponse :=
  fun _ => r.

Definition somePack : CutPack.t :=
  CutPack.mk "neon-noir" Moody "Neon Noir" "Gritty & Cynical"
    "Rain-slicked streets, high contrast, and whispered secrets.".

Definition someArc : StoryArc.t :=
  StoryArc.mk "journey" "The Journey" "Linear Chronological"
    "Road trips and long cruises".

Definition photo (n : string) : MediaItem.t :=
  MediaItem.mk n ("blob:" ++ n) "image/jpeg" None None "2024-05-01T10:00:00Z"
    (Some "data:image/jpeg;base64,AAAA") (Some upload).

(** Scenario A: four media items, the itinerary Rome, Venice. *)
Definition italy : Params.t :=
  Params.mk "Italy" somePack someArc Balanced [Vistas; Details] SoftLanding
    [photo "a"; photo "b"; photo "c"; photo "d"] [Rome; Venice].

(** Speech synthesis and decoding both succeed for the beat at position
    [i], or one of them fails. *)
Definition succeeds (tts : SpeechProvider) (dec : AudioDecoder)
  (voice : string) (i : nat) (beat : StoryBeat.t) : Prop :=
  exists wav buf, tts i (StoryBeat.text beat) voice = Some wav /\
                  dec wav = Some buf.

Definition fails (tts : SpeechProvider) (dec : AudioDecoder)
  (voice : string) (i : nat) (beat : StoryBeat.t) : Prop :=
  tts i (StoryBeat.text beat) voice = None \/
  exists wav, tts i (StoryBeat.text beat) voice = Some wav /\ dec wav = None.

(** The message of the loop after the beat at position [i] of [n]. *)
Definition mastering (i n : nat) : string :=
  "Mastering Beat " ++ JS.Number_toString (Z.of_nat i + 1)
    ++ "/" ++ JS.Number_toString (Z.of_nat n) ++ "...".

(** A reply of five beats, a speech provider that fails on its second
    call, and a decoder that never fails. *)
Definition fiveBeats : RecallStory.t :=
  RecallStory.mk "Grand Tour"
    [StoryBeat.mk 0 "One" None (Some Rome) None;
     StoryBeat.mk 1 "Two" None (Some Venice) None;
     StoryBeat.mk 2 "Three" None (Some Rome) None;
     StoryBeat.mk 3 "Four" None (Some Venice) None;
     StoryBeat.mk 4 "Five" None (Some Rome) None].

Definition secondCallFails : SpeechProvider :=
  fun call _ _ => if Nat.eqb call 1 then None else Some [].

Definition decodesAll : AudioDecoder := fun wav => Some (Decoded wav).

(** The component state and the effect log when the loop of
    [handleGenerate] is entered. *)
Definition enteringLoop (a0 : App.t) : Act.St :=
  (App.setLoadingMsg "Developing Final Premiere..."
     (App.setLoadingMsg "Activating Thinking Mode..."
        (App.setAppState ANALYZING a0)),
   [SetAppState ANALYZING; SetLoadingMsg "Activating Thinking Mode...";
    CallAnalyze (paramsOf a0); SetLoadingMsg "Developing Final Premiere...";
    OpenAudioContext]).

(** The state of a host that holds the media and route of scenario A and has
    opened the design screen. *)
Definition designing : App.t :=
  App.mk DESIGNING "Italy" (Params.media italy) [Rome; Venice] None ""
    false somePack someArc Balanced [Vistas; Details] SoftLanding.

(** Callbacks counted plus callbacks pending is the number of files, and
    once none is pending the flag is down. *)
Definition uploading (s : App.t * Upload.t) : Prop :=
  (Upload.processedCount (snd s) + length (Upload.readers (snd s))
   = length (Upload.files (snd s)))%nat /\
  (Upload.readers (snd s) = [] -> App.isProcessing (fst s) = false).

(** Every clip starts in silence: before each [Started] event of the
    history no node sounds. *)
Definition quiet_starts (log : list AudioEvent) : Prop :=
  forall pre n buf post,
    log = (pre ++ Started n buf :: post)%list -> sounding pre = [].

(** Nothing sounds, or the one node that does is the remembered one. *)
Definition one_voice (p : Player.t) : Prop :=
  (sounding (Player.audioLog p) = [] \/
   exists n, sounding (Player.audioLog p) = [n] /\
             Player.currentSourceRef p = Some n) /\
  quiet_starts (Player.audioLog p).

(** A story of three beats whose second beat has no audio, and the
    scroll container showing it in a window 800 pixels high: four
    sections (three beats and the finale) of 800 pixels each. *)
Definition clipA : AudioBuffer := Decoded [Byte.x01].
Definition clipC : AudioBuffer := Decoded [Byte.x03].

Definition demo : RecallStory.t :=
  RecallStory.mk "Italy"
    [StoryBeat.mk 0 "One" None (Some Rome) (Some clipA);
     StoryBeat.mk 1 "Two" None (Some Venice) None;
     StoryBeat.mk 2 "Three" None (Some Venice) (Some clipC)].

Definition scrolledTo (top : float) : option Metrics.t :=
  Some (Metrics.mk top 3200 800).

(** The story of the same three beats as the host stores it: every beat
    carries its clip. *)
Definition clipB : AudioBuffer := Decoded [Byte.x02].

Definition premiere : RecallStory.t :=
  RecallStory.mk "Italy"
    [StoryBeat.mk 0 "One" None (Some Rome) (Some clipA);
     StoryBeat.mk 1 "Two" None (Some Venice) (Some clipB);
     StoryBeat.mk 2 "Three" None (Some Venice) (Some clipC)].

(** Every beat of the story carries its clip.  [handleGenerate] stores a
    story only when the clip of every beat has been decoded. *)
Definition mastered (story : RecallStory.t) : Prop :=
  Forall (fun beat => StoryBeat.audioBuffer beat <> None)
         (RecallStory.beats story).

(** The states a viewer brings the player to: from its mount, by scroll
    events and by clips that play to their end.  No control of the
    component calls [setMuted]. *)
Inductive viewed (story : RecallStory.t) : Player.t -> Prop :=
| viewed_mount : viewed story (mount story)
| viewed_scroll : forall p c h,
    viewed story p -> viewed story (fst (handleScroll story c h p))
| viewed_ends : forall p n,
    viewed story p -> viewed story (clipEnds n p).

(* ===================================================================== *)
(** ** Vocabulary of the further statements *)
(* ===================================================================== *)

(** The effects the loop of [handleGenerate] can have. *)
Definition loopEffect (e : Effect) : Prop :=
  match e with
  | CallGenerateBeatAudio _ _ _ | CallDecodeAudioData _ _ | SetLoadingMsg _ =>
      True
  | _ => False
  end.

(** The message on the screen when the loop over [n] beats is over. *)
Definition lastMessage (n : nat) : string :=
  match n with
  | O => "Developing Final Premiere..."
  | S m => mastering m n
  end.

(** A speech provider that never fails. *)
Definition speaksAll : SpeechProvider := fun _ _ _ => Some [].

(** The media item made from a file: its MIME type, what the reader
    ended with, and the provenance tag. *)
Definition uploaded (file : File.t) (item : MediaItem.t) : Prop :=
  MediaItem.mimeType item = File.type file /\
  MediaItem.base64 item = File.dataUrl file /\
  MediaItem.source item = Some upload.

(** Where an upload of [files] started from [a] stands: the files whose
    callback has run, in the order they ran, have their items in
    [newMedia], the others have a reader pending, and the component state
    is the raised flag until the last callback and the appended media
    after it. *)
Definition uploadStands (files : list File.t) (a : App.t)
  (s : App.t * Upload.t) : Prop :=
  Upload.files (snd s) = files /\
  exists done,
    Forall2 uploaded done (Upload.newMedia (snd s)) /\
    Permutation (done ++ map snd (Upload.readers (snd s))) files /\
    Upload.processedCount (snd s) = length done /\
    (Upload.readers (snd s) <> [] -> fst s = App.setIsProcessing true a) /\
    (Upload.readers (snd s) = [] ->
     fst s = App.setIsProcessing false
               (App.setMedia
                  (fun prev => (prev ++ Upload.newMedia (snd s))%list)
                  (App.setIsProcessing true a))).

(** The readers whose callback runs under the events [evs], in the order
    in which they run, each with what the environment supplied then;
    [rs] are the readers pending at the start.  An event for a reader
    that is not pending runs nothing. *)
Fixpoint fired (evs : list (nat * Tick.t)) (rs : list (nat * File.t))
  : list (nat * File.t * Tick.t) :=
  match evs with
  | [] => []
  | (k, env) :: rest =>
      match nth_error rs k with
      | Some r => (r, env) :: fired rest (remove_nth k rs)
      | None => fired rest rs
      end
  end.

Definition firedFile (r : nat * File.t * Tick.t) : File.t := snd (fst r).

(** The media item of the file at position [idx] whose reader ended in
    the environment [env]. *)
Definition pushed (r : nat * File.t * Tick.t) : MediaItem.t :=
  let '((idx, file), env) := r in
  MediaItem.mk
    ("media-" ++ JS.Number_toString (Tick.now env) ++ "-"
       ++ JS.Number_toString (Z.of_nat idx))
    (Tick.objectUrl env) (File.type file) None None (Tick.isoTime env)
    (File.dataUrl file) (Some upload).

Definition jpeg (n : string) : File.t :=
  File.mk n "image/jpeg" (Some "data:image/jpeg;base64,AAAA").

Definition noon : Tick.t := Tick.mk 1714557600000 "blob:1" "2024-05-01T10:00:00.000Z".
Definition later : Tick.t := Tick.mk 1714557600007 "blob:2" "2024-05-01T10:00:00.007Z".

(** The text is a sequence of characters of [ws]. *)
Inductive madeOf (ws : list string) : string -> Prop :=
| madeOf_nil : madeOf ws ""
| madeOf_cons : forall w s, In w ws -> madeOf ws s -> madeOf ws (w ++ s).

(** The text consists of white space only (or is empty). *)
Definition allSpaces (s : string) : Prop := madeOf Str.whiteSpace s.

(** The no-break space [U+00A0] and the em space [U+2003]. *)
Definition nbsp : string := Str.ofBytes [194; 160]%nat.
Definition emSpace : string := Str.ofBytes [226; 128; 131]%nat.

(** The studio at its first render, on the asset screen with a prompt
    typed in. *)
Definition prompting (kind : GenType) : Studio.t :=
  Studio.mk
    (App.setAppState GENERATING_ASSET (App.init somePack someArc))
    (Desk.mk "" "" "A gondola at dawn" kind I16x9 Size1K V16x9).

Definition routing (text : string) : Studio.t :=
  Studio.mk (App.init somePack someArc)
    (Desk.setNaturalItinerary text Desk.init).

(** No comma occurs in the text. *)
Definition commaFree (s : string) : Prop := ~ occurs_in "," s.

(** What the download of a finished video job yields: the address asked
    for is the job's URI followed by the key, both rendered as a template
    literal renders them. *)
Definition downloaded (veo : Veo.t) (uri : option string)
  : ServiceError + string :=
  match Veo.fetch veo
          (match uri with Some u => u | None => "undefined" end
             ++ "&key="
             ++ match Veo.API_KEY veo with Some k => k | None => "undefined" end)
  with
  | Some objectUrl => inr objectUrl
  | None => inl DownloadFailed
  end.

(** A video job that reports done at its third status request. *)
Definition slowJob : Veo.t :=
  Veo.mk (fun _ _ => Op false None)
    (fun k => if Nat.eqb k 2 then Op true (Some "https://video/1?alt=media")
              else Op false None)
    (fun url => Some ("blob:" ++ url)) (Some "KEY").

(** The bundle with another media set. *)
Definition withMedia (p : Params.t) (media : list MediaItem.t) : Params.t :=
  Params.mk (Params.title p) (Params.cutPack p) (Params.arc p) (Params.pace p)
    (Params.focus p) (Params.ending p) media (Params.itinerary p).

(** The text reference the first definition sends for an item it does
    not inline. *)
Definition fragmentRef (m : MediaItem.t) : Part :=
  TextPart ("[Fragment: " ++ MediaItem.url m ++ " - "
              ++ MediaSource_str (MediaItem.source m) ++ " source]").

(** The candidate index lies before the first beat: a negative integer
    or minus infinity. *)
Definition negative (a : jint) : Prop :=
  match a with
  | Int k => k < 0
  | INegInf => True
  | INaN | IPosInf => False
  end.

(** [t] is [s] without the white space at its two ends. *)
Definition trimmedOf (s t : string) : Prop :=
  (exists a b, s = a ++ t ++ b /\ allSpaces a /\ allSpaces b) /\
  (forall w r, In w Str.whiteSpace -> t <> w ++ r) /\
  (forall w r, In w Str.whiteSpace -> t <> r ++ w).
(* ===================================================================== *)
(** * Properties *)
(* ===================================================================== *)

(** ** Strings and arrays *)

Lemma startsWith_spec (s t : string) :
  JS.startsWith s t = true <-> exists b, s = t ++ b.
Proof.
  revert s; induction t as [|c t IH]; intros s; simpl.
  - split; [intros _; exists s; reflexivity | reflexivity].
  - destruct s as [|a s]; simpl.
    + split; [discriminate | intros [b Hb]; discriminate].
    + rewrite andb_true_iff, Ascii.eqb_eq, IH. split.
      * intros [-> [b ->]]. exists b; reflexivity.
      * intros [b Hb]. injection Hb as -> ->. split; [reflexivity | eauto].
Qed.

Lemma includes_spec (s t : string) :
  JS.includes s t = true <-> occurs_in t s.
Proof.
  unfold occurs_in. induction s as [|c s IH]; simpl.
  - rewrite startsWith_spec. split.
    + intros [b Hb]. exists EmptyString, b. exact Hb.
    + intros [a [b Hab]]. destruct a; simpl in Hab.
      * eauto.
      * discriminate.
  - rewrite orb_true_iff, startsWith_spec, IH. split.
    + intros [[b Hb] | [a [b Hab]]].
      * exists EmptyString, b. exact Hb.
      * exists (String c a), b. simpl. now rewrite Hab.
    + intros [a [b Hab]]. destruct a as [|c' a]; simpl in Hab.
      * left; eauto.
      * right. injection Hab as _ ->. eauto.
Qed.

Lemma find_first {A} (f : A -> bool) (l : list A) (x : A) :
  find f l = Some x <->
  exists pre post, l = (pre ++ x :: post)%list /\ f x = true /\
                   forall y, In y pre -> f y = false.
Proof.
  induction l as [|a l IH]; simpl.
  - split; [discriminate|]. intros (pre & post & H & _). now destruct pre.
  - destruct (f a) eqn:Fa.
    + split.
      * intros [= ->]. exists [], l. repeat split; [assumption | intros y []].
      * intros (pre & post & H & Fx & Hpre). destruct pre as [|b pre].
        -- now injection H as ->.
        -- injection H as -> _. rewrite (Hpre b) in Fa by now left.
           discriminate.
    + rewrite IH. split.
      * intros (pre & post & -> & Fx & Hpre). exists (a :: pre), post.
        repeat split; [assumption|]. intros y [<- | Hy]; auto.
      * intros (pre & post & H & Fx & Hpre). destruct pre as [|b pre].
        -- injection H as -> _. congruence.
        -- injection H as _ ->. exists pre, post.
           repeat split; [assumption|]. intros y Hy. apply Hpre. now right.
Qed.

Lemma find_none_iff {A} (f : A -> bool) (l : list A) :
  find f l = None <-> forall y, In y l -> f y = false.
Proof.
  split.
  - intros H y Hy. exact (find_none f l H y Hy).
  - intros H. induction l as [|a l IH]; simpl; [reflexivity|].
    rewrite (H a) by now left. apply IH. intros y Hy. apply H. now right.
Qed.

(** ** Location resolution *)

Lemma matches_names {C : Casing} b l : matches b l = true <-> names l (RawBeat.locationName b).
Proof. apply includes_spec. Qed.

Lemma matches_not_names {C : Casing} b l :
  matches b l = false <-> ~ names l (RawBeat.locationName b).
Proof.
  rewrite <- matches_names. destruct (matches b l); split; congruence.
Qed.

Lemma find_first_named {C : Casing} it b p :
  find (matches b) it = Some p <-> first_named it (RawBeat.locationName b) p.
Proof.
  rewrite find_first. unfold first_named.
  split; intros (pre & post & H & Hp & Hpre); exists pre, post;
    (split; [exact H|]); (split; [now apply matches_names|]);
    intros q Hq; apply matches_not_names; auto.
Qed.

Lemma find_unnamed {C : Casing} it b :
  find (matches b) it = None <-> unnamed it (RawBeat.locationName b).
Proof.
  rewrite find_none_iff. unfold unnamed.
  split; intros H q Hq; apply matches_not_names; auto.
Qed.

Lemma resolveBeat_location {C : Casing} it b :
  StoryBeat.location (V2.resolveBeat it b) =
  match find (matches b) it with
  | Some l => Some l
  | None => JS.array_get it
              (Z.rem (RawBeat.index b) (JS.or_one (Z.of_nat (length it))))
  end.
Proof. reflexivity. Qed.

Lemma assemble_beats {C : Casing} p title raw :
  V2.assemble p (Json (RawJson.mk title (Some raw))) =
  Ok (RecallStory.mk (JS.or_else title (Params.title p))
        (map (V2.resolveBeat (Params.itinerary p)) raw)).
Proof. reflexivity. Qed.

Lemma array_get_nonneg {A} (a : list A) (k : Z) :
  0 <= k -> JS.array_get a k = nth_error a (Z.to_nat k).
Proof.
  intros Hk. unfold JS.array_get.
  destruct (Z.ltb_spec k 0); [lia | reflexivity].
Qed.

Lemma array_get_neg {A} (a : list A) (k : Z) :
  k < 0 -> JS.array_get a k = None.
Proof.
  intros Hk. unfold JS.array_get.
  destruct (Z.ltb_spec k 0); [reflexivity | lia].
Qed.

Lemma or_one_length {A} (a : list A) :
  a <> [] -> JS.or_one (Z.of_nat (length a)) = Z.of_nat (length a).
Proof.
  intros Ha. unfold JS.or_one.
  destruct (Z.eqb_spec (Z.of_nat (length a)) 0) as [E|]; [|reflexivity].
  destruct a; [congruence | simpl in E; lia].
Qed.

Lemma first_named_or_unnamed {C : Casing} it b :
  (exists q, first_named it (RawBeat.locationName b) q) \/
  unnamed it (RawBeat.locationName b).
Proof.
  destruct (find (matches b) it) as [q|] eqn:F.
  - left. exists q. now apply find_first_named.
  - right. now apply find_unnamed.
Qed.

(** C1, as the code has it, whatever the engine's [toLowerCase].  The
    [k]-th beat of an assembled story takes its location from the [k]-th
    raw beat: the first itinerary point whose name contains the beat's
    location name (letter case aside); failing that, with a non-empty
    itinerary and an index that is not negative, the point at position
    index mod length, which always exists; with an empty itinerary the
    location is unset.  With a negative index the remainder the code takes
    keeps the sign of the index, so that only a multiple of the length
    finds a point and every other negative index leaves the location
    unset.  "venice" against Rome, Venice resolves to the Venice point;
    and the beat of index -1 named "Paris" matches neither Rome nor Venice
    and gets no location, where position -1 mod 2 of the itinerary holds
    the Venice point. *)
Theorem location_resolution {C : Casing} :
  (forall (p : Params.t) (title : option string) (raw : list RawBeat.t)
          (k : nat) (b : RawBeat.t),
      nth_error raw k = Some b ->
      exists story sb,
        V2.assemble p (Json (RawJson.mk title (Some raw))) = Ok story /\
        nth_error (RecallStory.beats story) k = Some sb /\
        let it := Params.itinerary p in
        let len := Z.of_nat (length it) in
        let loc := StoryBeat.location sb in
        ((exists q, first_named it (RawBeat.locationName b) q) \/
         unnamed it (RawBeat.locationName b)) /\
        (forall q, first_named it (RawBeat.locationName b) q -> loc = Some q) /\
        (unnamed it (RawBeat.locationName b) -> it <> [] ->
         0 <= RawBeat.index b ->
         loc = nth_error it (Z.to_nat (RawBeat.index b mod len)) /\
         loc <> None) /\
        (unnamed it (RawBeat.locationName b) -> it <> [] ->
         RawBeat.index b < 0 ->
         loc = if (Z.rem (RawBeat.index b) len =? 0)%Z
               then nth_error it 0 else None) /\
        (unnamed it (RawBeat.locationName b) -> it = [] -> loc = None)) /\
  (forall (rome venice : LocationPoint.t) (i : Z) (t : string)
          (m : option string),
      LocationPoint.name rome = "Rome" ->
      LocationPoint.name venice = "Venice" ->
      StoryBeat.location
        (V2.resolveBeat [rome; venice] (RawBeat.mk i t "venice" m))
      = Some venice) /\
  (unnamed [Rome; Venice] "Paris" /\
   StoryBeat.location
     (V2.resolveBeat [Rome; Venice] (RawBeat.mk (-1) "Dusk" "Paris" None))
   = None /\
   nth_error [Rome; Venice] (Z.to_nat (-1 mod 2)) = Some Venice).
Proof.
  split; [|split].
  - intros p title raw k b Hk.
    rewrite assemble_beats. do 2 eexists. split; [reflexivity|].
    split; [simpl; exact (map_nth_error _ _ _ Hk)|].
    cbv zeta. rewrite resolveBeat_location.
    set (it := Params.itinerary p).
    split; [apply first_named_or_unnamed|].
    split; [|split; [|split]].
    + intros q Hq. apply find_first_named in Hq. now rewrite Hq.
    + intros Hu Hne Hi. apply find_unnamed in Hu. rewrite Hu.
      rewrite (or_one_length it Hne).
      assert (Hlen : 0 < Z.of_nat (length it))
        by (destruct it; [congruence | simpl; lia]).
      rewrite Z.rem_mod_nonneg by lia.
      pose proof (Z.mod_pos_bound (RawBeat.index b) _ Hlen) as Hb.
      rewrite array_get_nonneg by lia. split; [reflexivity|].
      apply nth_error_Some. lia.
    + intros Hu Hne Hi. apply find_unnamed in Hu. rewrite Hu.
      rewrite (or_one_length it Hne).
      assert (Hlen : 0 < Z.of_nat (length it))
        by (destruct it; [congruence | simpl; lia]).
      pose proof (Z.rem_nonpos (RawBeat.index b) (Z.of_nat (length it))) as Hr.
      destruct (Z.eqb_spec (Z.rem (RawBeat.index b) (Z.of_nat (length it))) 0)
        as [E|E].
      * rewrite E. reflexivity.
      * apply array_get_neg. lia.
    + intros Hu He. apply find_unnamed in Hu. rewrite Hu, He.
      unfold JS.array_get. simpl.
      destruct (_ <? 0)%Z; [reflexivity|].
      now destruct (Z.to_nat _).
  - intros [rn ? ? ?] [vn ? ? ?] i t m Hr Hv. simpl in Hr, Hv.
    subst rn vn. rewrite resolveBeat_location. unfold matches.
    cbn [find LocationPoint.name RawBeat.locationName].
    rewrite (toLowerCase_ascii "Rome" eq_refl),
      (toLowerCase_ascii "venice" eq_refl),
      (toLowerCase_ascii "Venice" eq_refl).
    reflexivity.
  - assert (Hfind : find (matches (RawBeat.mk (-1) "Dusk" "Paris" None))
                      [Rome; Venice] = None).
    { unfold matches. cbn [find LocationPoint.name RawBeat.locationName Rome Venice].
      rewrite (toLowerCase_ascii "Rome" eq_refl),
        (toLowerCase_ascii "Paris" eq_refl),
        (toLowerCase_ascii "Venice" eq_refl).
      reflexivity. }
    split; [exact (proj1 (find_unnamed _ _) Hfind)|].
    split; [|reflexivity].
    rewrite resolveBeat_location, Hfind. reflexivity.
Qed.

Lemma location_resolution_witness :
  StoryBeat.location
    (V2.resolveBeat [Rome; Venice] (RawBeat.mk (-1) "Dusk" "Paris" None))
  = None /\
  StoryBeat.location
    (V2.resolveBeat [Rome; Venice] (RawBeat.mk 0 "Arrival" "venice" None))
  = Some Venice /\
  exists story sb,
    V2.assemble
      (Params.mk "Italy" (CutPack.mk "neon-noir" Moody "Neon Noir" "" "")
         (StoryArc.mk "journey" "The Journey" "" "") Balanced [Vistas]
         SoftLanding [] [Rome; Venice])
      (Json (RawJson.mk None
               (Some [RawBeat.mk 0 "Arrival" "venice" None;
                      RawBeat.mk 3 "Detour" "Paris" None]))) = Ok story /\
    nth_error (RecallStory.beats story) 1 = Some sb /\
    StoryBeat.location sb = Some Venice.
Proof.
  split; [|split].
  - exact (proj1 (proj2 (proj2 (proj2 (@location_resolution asciiCasing))))).
  - exact (proj1 (proj2 (@location_resolution asciiCasing))
             Rome Venice 0 "Arrival" None eq_refl eq_refl).
  - destruct (proj1 (@location_resolution asciiCasing)
                (Params.mk "Italy" (CutPack.mk "neon-noir" Moody "Neon Noir" "" "")
                   (StoryArc.mk "journey" "The Journey" "" "") Balanced [Vistas]
                   SoftLanding [] [Rome; Venice])
                None
                [RawBeat.mk 0 "Arrival" "venice" None;
                 RawBeat.mk 3 "Detour" "Paris" None]
                1%nat (RawBeat.mk 3 "Detour" "Paris" None) eq_refl)
      as (story & sb & Hs & Hk & _ & _ & Hmod & _).
    exists story, sb. split; [exact Hs|]. split; [exact Hk|].
    cbv zeta in Hmod.
    destruct Hmod as [Hloc _].
    + apply find_unnamed. reflexivity.
    + discriminate.
    + simpl. lia.
    + exact Hloc.
Defined.

(** ** Beat count, beat order and the two definitions *)

Lemma append_assoc (a b c : string) : (a ++ b) ++ c = a ++ b ++ c.
Proof. induction a as [|x a IH]; simpl; [reflexivity | now rewrite IH]. Qed.

Lemma append_nil_r (a : string) : a ++ "" = a.
Proof. induction a as [|x a IH]; simpl; [reflexivity | now rewrite IH]. Qed.

Lemma append_inv_head (a b c : string) : a ++ b = a ++ c -> b = c.
Proof. induction a as [|x a IH]; simpl; [auto | intros [= H]; auto]. Qed.

Lemma occurs_in_refl t : occurs_in t t.
Proof. exists "", "". simpl. now rewrite append_nil_r. Qed.

Lemma occurs_in_app_r t s x : occurs_in t s -> occurs_in t (x ++ s).
Proof.
  intros (a & b & ->). exists (x ++ a), b. now rewrite append_assoc.
Qed.

Lemma occurs_in_app_l t s y : occurs_in t s -> occurs_in t (s ++ y).
Proof.
  intros (a & b & ->). exists a, (b ++ y). now rewrite !append_assoc.
Qed.

Lemma occurs_in_join t sep line lines :
  In line lines -> occurs_in t line -> occurs_in t (JS.join sep lines).
Proof.
  intros Hin Ht. induction lines as [|x rest IH]; [destruct Hin|].
  destruct rest as [|y rest].
  - destruct Hin as [<- | []]. exact Ht.
  - change (JS.join sep (x :: y :: rest))
      with (x ++ sep ++ JS.join sep (y :: rest)).
    destruct Hin as [<- | Hin].
    + now apply occurs_in_app_l.
    + now apply occurs_in_app_r, occurs_in_app_r, IH.
Qed.

Lemma asked_in_prompt p :
  occurs_in ("exactly " ++ JS.Number_toString (V1.beatCountAsked (Params.media p))
               ++ " beats.")
            (V1.promptText p).
Proof.
  unfold V1.promptText.
  eapply occurs_in_join.
  - do 14 right. left. reflexivity.
  - exists (indent ++ "3. Weave a cinematic story arc across "), "".
    rewrite append_nil_r. reflexivity.
Qed.

Lemma V1_assemble_ok {C : Casing} p r story :
  V1.assemble p r = Ok story ->
  exists j, parseResponse r = Ok j /\
            story = RecallStory.mk (JS.or_else (RawJson.title j) (Params.title p))
                      (map (V1.resolveBeat (Params.itinerary p)) (repliedBeats j)).
Proof.
  unfold V1.assemble. destruct (parseResponse r) as [j|e]; [|discriminate].
  intros [= <-]. exists j. split; reflexivity.
Qed.

Lemma V2_assemble_ok {C : Casing} p r story :
  V2.assemble p r = Ok story ->
  exists j bs, parseResponse r = Ok j /\ RawJson.beats j = Some bs /\
               story = RecallStory.mk
                         (JS.or_else (RawJson.title j) (Params.title p))
                         (map (V2.resolveBeat (Params.itinerary p)) bs).
Proof.
  unfold V2.assemble. destruct (parseResponse r) as [j|e]; [|discriminate].
  destruct (RawJson.beats j) as [bs|] eqn:B; [|discriminate].
  intros [= <-]. exists j, bs. repeat split; assumption.
Qed.

Lemma resolveBeat_same {C : Casing} it b : V1.resolveBeat it b = V2.resolveBeat it b.
Proof. reflexivity. Qed.

Lemma resolved_indices {C : Casing} it raw :
  map StoryBeat.index (map (V2.resolveBeat it) raw) = map RawBeat.index raw.
Proof. rewrite map_map. apply map_ext. reflexivity. Qed.

(** C7, as the code has it.  Whichever definition assembles the story,
    the story has exactly as many beats as the collaborator's reply
    carries (none when the first definition gets a reply without beats).
    The number max(4, min(mediaCount, 10)) is what the first definition's
    prompt asks the collaborator for, four for four media items; the story
    has that many beats when the collaborator returns that many. *)
Theorem beat_count {C : Casing} (ai : Request.t -> StoryResponse)
  (p : Params.t) :
  (forall story, V1.analyzeTripAndGenerateStory ai p = Ok story ->
     exists j, parseResponse (ai (V1.request p)) = Ok j /\
               length (RecallStory.beats story) = length (repliedBeats j)) /\
  (forall story, V2.analyzeTripAndGenerateStory ai p = Ok story ->
     exists j, parseResponse (ai (V2.request p)) = Ok j /\
               length (RecallStory.beats story) = length (repliedBeats j)) /\
  V1.beatCountAsked (Params.media p)
    = Z.max 4 (Z.min (Z.of_nat (length (Params.media p))) 10) /\
  occurs_in ("exactly " ++ JS.Number_toString (V1.beatCountAsked (Params.media p))
               ++ " beats.")
            (V1.promptText p) /\
  In (TextPart (V1.promptText p)) (Request.parts (V1.request p)) /\
  (length (Params.media p) = 4%nat -> V1.beatCountAsked (Params.media p) = 4) /\
  (forall story j,
     V1.analyzeTripAndGenerateStory ai p = Ok story ->
     parseResponse (ai (V1.request p)) = Ok j ->
     Z.of_nat (length (repliedBeats j)) = V1.beatCountAsked (Params.media p) ->
     Z.of_nat (length (RecallStory.beats story))
       = Z.max 4 (Z.min (Z.of_nat (length (Params.media p))) 10)).
Proof.
  split; [|split; [|split; [|split; [|split; [|split]]]]].
  - intros story H. apply V1_assemble_ok in H as (j & Hj & ->).
    exists j. split; [exact Hj|]. simpl. apply length_map.
  - intros story H. apply V2_assemble_ok in H as (j & bs & Hj & Hb & ->).
    exists j. split; [exact Hj|]. unfold repliedBeats. rewrite Hb. simpl.
    apply length_map.
  - reflexivity.
  - apply asked_in_prompt.
  - unfold V1.request. simpl. apply in_or_app. right. now left.
  - intros H. unfold V1.beatCountAsked. rewrite H. reflexivity.
  - intros story j H Hj Hn. apply V1_assemble_ok in H as (j' & Hj' & ->).
    rewrite Hj in Hj'. injection Hj' as <-.
    simpl. rewrite length_map, Hn. reflexivity.
Qed.

Lemma beat_count_witness :
  exists story,
    V1.analyzeTripAndGenerateStory
      (always (Json (RawJson.mk (Some "Grand Tour")
                       (Some [RawBeat.mk 0 "One" "Rome" None;
                              RawBeat.mk 1 "Two" "Rome" None;
                              RawBeat.mk 2 "Three" "Venice" None;
                              RawBeat.mk 3 "Four" "Venice" None]))))
      italy = Ok story /\
    Z.of_nat (length (RecallStory.beats story)) = 4.
Proof.
  eexists. split; [reflexivity|].
  exact (proj2 (proj2 (proj2 (proj2 (proj2 (proj2
           (beat_count
              (always (Json (RawJson.mk (Some "Grand Tour")
                               (Some [RawBeat.mk 0 "One" "Rome" None;
                                      RawBeat.mk 1 "Two" "Rome" None;
                                      RawBeat.mk 2 "Three" "Venice" None;
                                      RawBeat.mk 3 "Four" "Venice" None]))))
              italy))))))
           _ _ eq_refl eq_refl eq_refl).
Defined.

(** C7 as worded fails: with four media items and the itinerary Rome,
    Venice, a collaborator that answers with a single beat makes either
    definition return a story of one beat, not four. *)
Lemma beat_count_counterexample :
  ~ (exists C : Casing, forall ai p story,
        V1.analyzeTripAndGenerateStory ai p = Ok story ->
        Z.of_nat (length (RecallStory.beats story))
          = Z.max 4 (Z.min (Z.of_nat (length (Params.media p))) 10)) /\
  ~ (exists C : Casing, forall ai p story,
        V2.analyzeTripAndGenerateStory ai p = Ok story ->
        Z.of_nat (length (RecallStory.beats story))
          = Z.max 4 (Z.min (Z.of_nat (length (Params.media p))) 10)).
Proof.
  split; intros [C H];
    specialize (H (always (Json (RawJson.mk (Some "Grand Tour")
                                   (Some [RawBeat.mk 0 "One" "Rome" None]))))
                  italy _ eq_refl);
    discriminate H.
Qed.

(** C8, as the code has it.  Assembly copies each raw beat's index and
    keeps the reply's order: the indices of the returned beats are the
    reply's indices, in the reply's order.  They run 0, 1, 2, ... exactly
    when the collaborator numbered its beats that way. *)
Theorem beat_order {C : Casing} (p : Params.t) (r : StoryResponse)
  (story : RecallStory.t) :
  V1.assemble p r = Ok story \/ V2.assemble p r = Ok story ->
  exists j,
    parseResponse r = Ok j /\
    RecallStory.beats story
      = map (V2.resolveBeat (Params.itinerary p)) (repliedBeats j) /\
    map StoryBeat.index (RecallStory.beats story)
      = map RawBeat.index (repliedBeats j) /\
    (contiguous (map StoryBeat.index (RecallStory.beats story)) <->
     contiguous (map RawBeat.index (repliedBeats j))).
Proof.
  intros [H | H].
  - apply V1_assemble_ok in H as (j & Hj & ->). exists j.
    split; [exact Hj|]. simpl. split; [reflexivity|].
    change V1.resolveBeat with V2.resolveBeat.
    rewrite resolved_indices. split; [reflexivity | tauto].
  - apply V2_assemble_ok in H as (j & bs & Hj & Hb & ->). exists j.
    split; [exact Hj|]. unfold repliedBeats. rewrite Hb. simpl.
    split; [reflexivity|].
    rewrite resolved_indices. split; [reflexivity | tauto].
Qed.

Lemma beat_order_witness :
  exists j,
    parseResponse
      (Json (RawJson.mk None (Some [RawBeat.mk 0 "One" "Rome" None;
                                    RawBeat.mk 1 "Two" "Venice" None])))
      = Ok j /\
    contiguous (map RawBeat.index (repliedBeats j)).
Proof.
  destruct (beat_order italy
              (Json (RawJson.mk None (Some [RawBeat.mk 0 "One" "Rome" None;
                                            RawBeat.mk 1 "Two" "Venice" None])))
              _ (or_intror eq_refl))
    as (j & Hj & _ & _ & Hc).
  exists j. split; [exact Hj|]. apply Hc. reflexivity.
Defined.

(** C8 as worded fails: a collaborator that numbers its two beats 1 and 2
    gets them back numbered 1 and 2, not 0 and 1. *)
Lemma beat_order_counterexample :
  ~ (exists C : Casing, forall p r story,
        V2.assemble p r = Ok story ->
        contiguous (map StoryBeat.index (RecallStory.beats story))).
Proof.
  intros [C H].
  specialize (H italy
                (Json (RawJson.mk None (Some [RawBeat.mk 1 "One" "Rome" None;
                                              RawBeat.mk 2 "Two" "Venice" None])))
                _ eq_refl).
  discriminate H.
Qed.

Lemma prompts_differ p : V1.promptText p <> V2.promptText p.
Proof.
  unfold V1.promptText, V2.promptText.
  cbn [JS.join]. unfold indent, JS.nl. cbn [append]. discriminate.
Qed.

Lemma app_inv_last {A} (l l' : list A) (x y : A) :
  length l = length l' -> (l ++ [x] = l' ++ [y])%list -> x = y.
Proof.
  revert l'; induction l as [|a l IH]; intros [|b l'] Hlen H;
    simpl in *; try discriminate.
  - now injection H.
  - injection H as _ H. injection Hlen as Hlen. eauto.
Qed.

Lemma requests_differ p : V1.request p <> V2.request p.
Proof.
  unfold V1.request, V2.request. intros [= H].
  apply app_inv_last in H.
  - apply (prompts_differ p).
    exact (f_equal (fun x => match x with TextPart t => t | _ => "" end) H).
  - unfold V1.mediaParts, V2.mediaParts. now rewrite !length_map.
Qed.

Lemma mediaPart_same_iff (m : MediaItem.t) :
  V1.mediaPart m = V2.mediaPart m <->
  exists b, MediaItem.base64 m = Some b /\ JS.truthy b = true /\
            JS.startsWith (MediaItem.mimeType m) "image" = true.
Proof.
  unfold V1.mediaPart, V2.mediaPart.
  destruct (MediaItem.base64 m) as [b|].
  - destruct (JS.truthy b) eqn:T;
      destruct (JS.startsWith (MediaItem.mimeType m) "image") eqn:S;
      cbn [andb].
    + split; [intros _; exists b; auto | reflexivity].
    + split; [discriminate | intros (b' & _ & _ & ?); discriminate].
    + split; [intros [= H] | intros (b' & [= <-] & ? & _); congruence].
      apply append_inv_head in H. discriminate.
    + split; [intros [= H] | intros (b' & [= <-] & ? & _); congruence].
      apply append_inv_head in H. discriminate.
  - split; [intros [= H] | intros (b' & ? & _); discriminate].
    apply append_inv_head in H. discriminate.
Qed.

(** C10, as the code has it.  Given the same collaborator reply, the two
    definitions return the same outcome (the same title fallback, the same
    beat fields, the same failure) whenever the reply carries a [beats]
    field or cannot be parsed, whatever the media items are.  On a reply
    without [beats] the first returns a story with no beats and the second
    throws.  What they send differs: the media part of an item is the same
    only for an item with a payload and an image MIME type, and the prompt
    text always differs. *)
Theorem two_definitions {C : Casing} :
  (forall p r,
      (forall j, parseResponse r = Ok j -> RawJson.beats j <> None) ->
      V1.assemble p r = V2.assemble p r) /\
  (forall p r j,
      parseResponse r = Ok j -> RawJson.beats j = None ->
      V1.assemble p r
        = Ok (RecallStory.mk (JS.or_else (RawJson.title j) (Params.title p)) [])
      /\ V2.assemble p r = Err TypeError) /\
  (forall m,
      V1.mediaPart m = V2.mediaPart m <->
      exists b, MediaItem.base64 m = Some b /\ JS.truthy b = true /\
                JS.startsWith (MediaItem.mimeType m) "image" = true) /\
  (forall p, V1.request p <> V2.request p).
Proof.
  split; [|split; [|split]].
  - intros p r H. unfold V1.assemble, V2.assemble.
    destruct (parseResponse r) as [j|e]; [|reflexivity].
    specialize (H j eq_refl).
    destruct (RawJson.beats j) as [bs|]; [reflexivity | congruence].
  - intros p r j Hj Hb. unfold V1.assemble, V2.assemble.
    rewrite Hj, Hb. split; reflexivity.
  - apply mediaPart_same_iff.
  - apply requests_differ.
Qed.

Lemma two_definitions_witness :
  V1.assemble italy
    (Json (RawJson.mk (Some "") (Some [RawBeat.mk 0 "One" "venice" (Some "a")])))
  = V2.assemble italy
      (Json (RawJson.mk (Some "") (Some [RawBeat.mk 0 "One" "venice" (Some "a")])))
  /\ V2.assemble italy
       (Json (RawJson.mk (Some "") (Some [RawBeat.mk 0 "One" "venice" (Some "a")])))
     = Ok (RecallStory.mk "Italy"
             [StoryBeat.mk 0 "One" (Some "a") (Some Venice) None]).
Proof.
  split; [|reflexivity].
  apply (proj1 two_definitions).
  intros j [= <-]. discriminate.
Defined.

(** C10 as worded fails: when the collaborator's reply has no text (so
    that an empty object is parsed) the first definition returns a story
    and the second throws. *)
Lemma two_definitions_counterexample :
  ~ (exists C : Casing, forall p r, V1.assemble p r = V2.assemble p r).
Proof.
  intros [C H]. specialize (H italy NoText). discriminate H.
Qed.

(** ** [handleGenerate] *)

Section HandleGenerateFacts.

Variable analyze : Params.t -> result RecallStory.t.
Variable tts : SpeechProvider.
Variable dec : AudioDecoder.

Lemma succeeds_or_fails voice i beat :
  succeeds tts dec voice i beat \/ fails tts dec voice i beat.
Proof.
  unfold succeeds, fails.
  destruct (tts i (StoryBeat.text beat) voice) as [wav|] eqn:T; [|auto].
  destruct (dec wav) as [buf|] eqn:D; [left | right; right]; eauto.
Qed.

Lemma succeeds_not_fails voice i beat :
  succeeds tts dec voice i beat -> ~ fails tts dec voice i beat.
Proof.
  intros (wav & buf & T & D) [F | (wav' & T' & D')]; congruence.
Qed.

(** One turn of the loop. *)
Lemma masterBeats_cons voice n i beat rest st :
  masterBeats tts dec voice n i (beat :: rest) st =
  let call := CallGenerateBeatAudio i (StoryBeat.text beat) voice in
  match tts i (StoryBeat.text beat) voice with
  | None => ((fst st, snd st ++ [call])%list, Err AudioError)
  | Some wav =>
      match dec wav with
      | None =>
          ((fst st, snd st ++ [call; CallDecodeAudioData i wav])%list,
           Err AudioError)
      | Some buf =>
          match masterBeats tts dec voice n (S i) rest
                  (App.setLoadingMsg (mastering i n) (fst st),
                   (snd st ++ [call; CallDecodeAudioData i wav;
                               SetLoadingMsg (mastering i n)])%list) with
          | (s', Ok rest') => (s', Ok (withAudio beat buf :: rest'))
          | (s', Err e) => (s', Err e)
          end
      end
  end.
Proof.
  cbn [masterBeats]. unfold Act.bind at 1 2. cbn [Act.emit fst snd].
  unfold Act.lift at 1, generateBeatAudio.
  destruct (tts i (StoryBeat.text beat) voice) as [wav|]; [|reflexivity].
  unfold Act.bind at 1 2. cbn [Act.emit fst snd].
  unfold Act.lift at 1, decodeAudioData.
  destruct (dec wav) as [buf|];
    [|cbv zeta; rewrite <- app_assoc; reflexivity].
  unfold Act.bind at 1, setLoadingMsg. unfold Act.bind at 1.
  cbn [Act.emit Act.update fst snd]. unfold Act.bind at 1.
  cbv zeta. rewrite <- !app_assoc. cbn [app]. fold (mastering i n).
  destruct (masterBeats tts dec voice n (S i) rest _) as [s' [rest'|e]];
    reflexivity.
Qed.

Lemma synthesized_app l l' :
  synthesized (l ++ l') = (synthesized l ++ synthesized l')%list.
Proof. apply flat_map_app. Qed.

(** The loop up to the first beat that fails. *)
Lemma masterBeats_aborts voice n pre beat post :
  forall k st,
    (forall j bj, nth_error pre j = Some bj ->
                  succeeds tts dec voice (k + j) bj) ->
    fails tts dec voice (k + length pre) beat ->
    exists a' log',
      masterBeats tts dec voice n k (pre ++ beat :: post) st
        = ((a', log'), Err AudioError) /\
      a' = App.setLoadingMsg (App.loadingMsg a') (fst st) /\
      synthesized log'
        = (synthesized (snd st) ++ seq k (S (length pre)))%list /\
      filter storesStory log' = filter storesStory (snd st).
Proof.
  induction pre as [|b pre IH]; intros k st Hpre Hfail.
  - cbn [app length] in *. rewrite Nat.add_0_r in Hfail.
    rewrite masterBeats_cons. cbv zeta.
    destruct Hfail as [T | (wav & T & D)]; rewrite T; [|rewrite D];
      do 2 eexists; (split; [reflexivity|]); cbn [fst snd].
    + split; [now destruct (fst st)|].
      rewrite synthesized_app, filter_app. cbn. now rewrite app_nil_r.
    + split; [now destruct (fst st)|].
      rewrite synthesized_app, filter_app. cbn. now rewrite app_nil_r.
  - cbn [app]. rewrite masterBeats_cons. cbv zeta.
    destruct (Hpre 0%nat b eq_refl) as (wav & buf & T & D).
    rewrite Nat.add_0_r in T. rewrite T, D.
    edestruct (IH (S k)) as (a' & log' & E & Ha & Hs & Hf).
    + intros j bj Hj. replace (S k + j)%nat with (k + S j)%nat by lia.
      now apply Hpre.
    + cbn [length] in Hfail.
      replace (S k + length pre)%nat with (k + S (length pre))%nat by lia.
      exact Hfail.
    + rewrite E. exists a', log'. split; [reflexivity|].
      cbn [fst snd] in *. split; [|split].
      * rewrite Ha at 1. reflexivity.
      * rewrite Hs, synthesized_app. cbn [length seq].
        rewrite <- app_assoc. reflexivity.
      * rewrite Hf, filter_app. cbn. now rewrite app_nil_r.
Qed.

(** The first beat that fails, when some beat does. *)
Lemma first_failure voice beats :
  forall k i beat,
    nth_error beats i = Some beat -> fails tts dec voice (k + i) beat ->
    exists pre b post,
      beats = (pre ++ b :: post)%list /\ (length pre <= i)%nat /\
      (forall j bj, nth_error pre j = Some bj ->
                    succeeds tts dec voice (k + j) bj) /\
      fails tts dec voice (k + length pre) b.
Proof.
  induction beats as [|b0 beats IH]; intros k i beat Hi Hf.
  - now destruct i.
  - destruct (succeeds_or_fails voice k b0) as [S0 | F0].
    + destruct i as [|i].
      * injection Hi as <-. rewrite Nat.add_0_r in Hf.
        now apply succeeds_not_fails in S0.
      * cbn in Hi. replace (k + S i)%nat with (S k + i)%nat in Hf by lia.
        destruct (IH (S k) i beat Hi Hf) as (pre & b & post & -> & Hl & Hs & Hb).
        exists (b0 :: pre), b, post. split; [reflexivity|].
        split; [cbn; lia|]. split.
        -- intros [|j] bj Hj; cbn in Hj.
           ++ injection Hj as <-. now rewrite Nat.add_0_r.
           ++ replace (k + S j)%nat with (S k + j)%nat by lia. now apply Hs.
        -- cbn [length].
           replace (k + S (length pre))%nat with (S k + length pre)%nat by lia.
           exact Hb.
    + exists [], b0, beats. split; [reflexivity|]. split; [cbn; lia|].
      split; [intros [|j] bj Hj; discriminate Hj|].
      cbn. now rewrite Nat.add_0_r.
Qed.

End HandleGenerateFacts.

Lemma handleGenerate_caught analyze tts dec a0 gs a' log' e :
  analyze (paramsOf a0) = Ok gs ->
  masterBeats tts dec (voiceOf (CutPack.category (App.selectedCutPack a0)))
    (length (RecallStory.beats gs)) 0 (RecallStory.beats gs) (enteringLoop a0)
    = ((a', log'), Err e) ->
  handleGenerate analyze tts dec a0 (a0, [])
    = ((App.setAppState IMPORTING a',
        (log' ++ [ConsoleError e; SetAppState IMPORTING])%list), Ok tt).
Proof.
  intros Han Hloop.
  unfold handleGenerate, setAppState, setLoadingMsg, Act.try_catch.
  unfold Act.bind at 1 2 3 4. cbn [Act.emit Act.update fst snd app].
  unfold Act.bind at 1 2. cbn [Act.emit fst snd app]. unfold Act.lift at 1.
  rewrite Han.
  unfold Act.bind at 1 2 3 4 5. cbn [Act.emit Act.update fst snd app].
  fold (enteringLoop a0). rewrite Hloop.
  unfold Act.bind. cbn [Act.emit Act.update fst snd].
  rewrite <- app_assoc. reflexivity.
Qed.

(** C2.  When the story has been generated and speech synthesis or audio
    decoding fails for some beat [i], the loop stops at the first beat [k]
    that fails ([k] is [i] when the beats before [i] succeed): speech is
    requested for the beats 0..k and for no later one, no story is stored,
    and the host is back on the importing screen with the story, media and
    itinerary it had before. *)
Theorem synthesis_failure_aborts
  (analyze : Params.t -> result RecallStory.t) (tts : SpeechProvider)
  (dec : AudioDecoder) (a0 : App.t) (gs : RecallStory.t) (i : nat)
  (beat : StoryBeat.t) :
  let voice := voiceOf (CutPack.category (App.selectedCutPack a0)) in
  analyze (paramsOf a0) = Ok gs ->
  nth_error (RecallStory.beats gs) i = Some beat ->
  fails tts dec voice i beat ->
  exists k bk,
    (k <= i)%nat /\
    nth_error (RecallStory.beats gs) k = Some bk /\
    fails tts dec voice k bk /\
    (forall j bj, (j < k)%nat -> nth_error (RecallStory.beats gs) j = Some bj ->
                  succeeds tts dec voice j bj) /\
    ((forall j bj, (j < i)%nat -> nth_error (RecallStory.beats gs) j = Some bj ->
                   succeeds tts dec voice j bj) -> k = i) /\
    snd (handleGenerate analyze tts dec a0 (a0, [])) = Ok tt /\
    let a' := fst (runGenerate analyze tts dec a0) in
    let log := snd (runGenerate analyze tts dec a0) in
    synthesized log = seq 0 (S k) /\
    (forall s, ~ In (SetStory s) log) /\
    App.appState a' = IMPORTING /\
    App.story a' = App.story a0 /\
    App.media a' = App.media a0 /\
    App.itinerary a' = App.itinerary a0.
Proof.
  intros voice Han Hi Hf.
  destruct (first_failure tts dec voice (RecallStory.beats gs) 0 i beat Hi Hf)
    as (pre & b & post & Hsplit & Hle & Hpre & Hb).
  cbn [Nat.add] in Hpre, Hb.
  assert (Hk : nth_error (RecallStory.beats gs) (length pre) = Some b).
  { rewrite Hsplit, nth_error_app2 by lia. now rewrite Nat.sub_diag. }
  assert (Hbefore : forall j bj, (j < length pre)%nat ->
            nth_error (RecallStory.beats gs) j = Some bj ->
            succeeds tts dec voice j bj).
  { intros j bj Hj Hn. apply Hpre.
    rewrite Hsplit, nth_error_app1 in Hn by exact Hj. exact Hn. }
  exists (length pre), b.
  split; [exact Hle|]. split; [exact Hk|]. split; [exact Hb|].
  split; [exact Hbefore|]. split.
  { intros Hall. destruct (Nat.eq_dec (length pre) i) as [E|N]; [exact E|].
    exfalso. apply (succeeds_not_fails tts dec voice (length pre) b); [|exact Hb].
    apply Hall; [lia | exact Hk]. }
  destruct (masterBeats_aborts tts dec voice (length (RecallStory.beats gs))
              pre b post 0 (enteringLoop a0) Hpre Hb)
    as (a' & log' & Hrun & Ha & Hs & Hst).
  rewrite <- Hsplit in Hrun.
  pose proof (handleGenerate_caught analyze tts dec a0 gs a' log' AudioError
                Han Hrun) as Hgen.
  unfold runGenerate. rewrite Hgen. cbn [fst snd].
  split; [reflexivity|]. split; [|split].
  - rewrite synthesized_app, Hs. cbn. now rewrite app_nil_r.
  - intros s Hin.
    assert (Hin' : In (SetStory s)
                      (filter storesStory
                         (log' ++ [ConsoleError AudioError;
                                   SetAppState IMPORTING])%list))
      by (apply filter_In; split; [exact Hin | reflexivity]).
    rewrite filter_app, Hst in Hin'. cbn in Hin'. exact Hin'.
  - rewrite Ha. cbn. repeat split; reflexivity.
Qed.

Lemma synthesis_failure_aborts_witness :
  synthesized (snd (runGenerate (fun _ => Ok fiveBeats) secondCallFails
                      decodesAll designing)) = [0; 1]%nat /\
  App.appState (fst (runGenerate (fun _ => Ok fiveBeats) secondCallFails
                       decodesAll designing)) = IMPORTING /\
  App.story (fst (runGenerate (fun _ => Ok fiveBeats) secondCallFails
                    decodesAll designing)) = None.
Proof.
  destruct (synthesis_failure_aborts (fun _ => Ok fiveBeats) secondCallFails
              decodesAll designing fiveBeats 1
              (StoryBeat.mk 1 "Two" None (Some Venice) None)
              eq_refl eq_refl (or_introl eq_refl))
    as (k & bk & _ & _ & _ & _ & Hk & _ & Hs & _ & Ha & Hst & _).
  rewrite Hs, Ha, Hst.
  rewrite Hk.
  - repeat split; reflexivity.
  - intros [|[|j]] bj Hj Hn; [|lia|lia].
    injection Hn as <-. exists [], (Decoded []). split; reflexivity.
Defined.

(** ** [processFiles] *)

Lemma length_indexed {A} (xs : list A) i : length (indexed i xs) = length xs.
Proof.
  revert i; induction xs as [|x xs IH]; intros i; cbn; [reflexivity|].
  now rewrite IH.
Qed.

Lemma length_remove_nth {A} (xs : list A) k x :
  nth_error xs k = Some x -> S (length (remove_nth k xs)) = length xs.
Proof.
  revert k; induction xs as [|y xs IH]; intros [|k] H; cbn in *;
    try discriminate; [reflexivity|].
  now rewrite (IH k H).
Qed.

Lemma onloadend_uploading k env s : uploading s -> uploading (onloadend k env s).
Proof.
  destruct s as [a u]. unfold uploading, onloadend. cbn [fst snd].
  intros [Hc Hd].
  destruct (nth_error (Upload.readers u) k) as [[idx file]|] eqn:N;
    [|cbn [fst snd]; auto].
  pose proof (length_remove_nth _ _ _ N) as Hl.
  destruct (Nat.eqb_spec (S (Upload.processedCount u)) (length (Upload.files u)))
    as [E|E]; cbn [fst snd Upload.processedCount Upload.readers Upload.files].
  - split; [lia | reflexivity].
  - split; [lia|]. intros R. rewrite R in Hl. cbn in Hl. lia.
Qed.

Lemma callbacks_uploading evs s : uploading s -> uploading (callbacks evs s).
Proof.
  revert s; induction evs as [|[k env] evs IH]; intros s H; cbn; [exact H|].
  now apply IH, onloadend_uploading.
Qed.

(** With at least one file selected the flag goes down when the last
    callback has run, in whatever order the readers finish. *)
Lemma processFiles_clears files a evs :
  files <> [] ->
  Upload.readers (snd (callbacks evs (processFiles files a))) = [] ->
  App.isProcessing (fst (callbacks evs (processFiles files a))) = false.
Proof.
  intros Hne Hdone.
  apply (callbacks_uploading evs (processFiles files a)); [|exact Hdone].
  unfold uploading, processFiles. cbn [fst snd Upload.processedCount
    Upload.readers Upload.files]. split.
  - now rewrite length_indexed.
  - destruct files; [congruence | discriminate].
Qed.

(** C9 at the failing input.  With an empty file list [processFiles]
    raises the flag and registers no callback, so that whatever callbacks
    the environment runs afterwards the flag stays up and the media are
    what they were. *)
Theorem processFiles_empty_stuck (a : App.t) (evs : list (nat * Tick.t)) :
  App.isProcessing (fst (processFiles [] a)) = true /\
  Upload.readers (snd (processFiles [] a)) = [] /\
  callbacks evs (processFiles [] a) = processFiles [] a.
Proof.
  split; [reflexivity|]. split; [reflexivity|].
  induction evs as [|[k env] evs IH]; cbn [callbacks]; [reflexivity|].
  replace (onloadend k env (processFiles [] a)) with (processFiles [] a);
    [exact IH|].
  unfold onloadend, processFiles. cbn. now destruct k.
Qed.

(** ** The player *)

Lemma sounding_snoc log e : sounding (log ++ [e]) = hear (sounding log) e.
Proof. unfold sounding. now rewrite fold_left_app. Qed.

Lemma quiet_starts_snoc log e :
  quiet_starts log ->
  (forall n buf, e = Started n buf -> sounding log = []) ->
  quiet_starts (log ++ [e]).
Proof.
  intros Hq He pre n buf post Hsplit.
  destruct (exists_last (l := Started n buf :: post)) as (l' & last & Hl);
    [discriminate|].
  rewrite Hl, app_assoc in Hsplit. apply app_inj_tail in Hsplit as [Hlog <-].
  destruct post as [|x post].
  - destruct l' as [|y [|z l']]; try discriminate.
    injection Hl as <-. rewrite app_nil_r in Hlog. subst pre. eauto.
  - destruct (exists_last (l := x :: post)) as (post' & last' & Hp);
      [discriminate|].
    rewrite Hp in Hl.
    change (Started n buf :: post' ++ [last'])%list
      with ((Started n buf :: post') ++ [last'])%list in Hl.
    apply app_inj_tail in Hl as [<- _].
    apply (Hq pre n buf post'). exact Hlog.
Qed.

Lemma one_voice_bound p :
  one_voice p ->
  (length (sounding (Player.audioLog p)) <= 1)%nat /\
  forall n, In n (sounding (Player.audioLog p)) ->
            Player.currentSourceRef p = Some n.
Proof.
  intros [[E | (m & E & C)] _]; rewrite E; cbn.
  - split; [lia | tauto].
  - split; [lia|]. intros n [<- | []]. exact C.
Qed.

Lemma stopCurrent_silent p :
  one_voice p ->
  sounding (Player.audioLog (stopCurrent p)) = [] /\
  quiet_starts (Player.audioLog (stopCurrent p)).
Proof.
  intros [Hs Hq]. unfold stopCurrent.
  destruct (Player.currentSourceRef p) as [n|] eqn:C.
  - cbn [Player.log Player.audioLog]. rewrite sounding_snoc. split.
    + destruct Hs as [E | (m & E & Cm)]; rewrite E; cbn [hear remove];
        [reflexivity|].
      assert (m = n) by congruence. subst m.
      now destruct (Nat.eq_dec n n).
    + apply quiet_starts_snoc; [exact Hq | discriminate].
  - split; [|exact Hq].
    destruct Hs as [E | (m & _ & Cm)]; [exact E | discriminate].
Qed.

Lemma startSource_one_voice buf p :
  sounding (Player.audioLog p) = [] -> quiet_starts (Player.audioLog p) ->
  one_voice (startSource buf p) /\
  sounding (Player.audioLog (startSource buf p)) = [Player.nodes p].
Proof.
  intros Hs Hq. unfold one_voice, startSource.
  cbn [Player.audioLog Player.currentSourceRef].
  rewrite sounding_snoc, Hs. cbn [hear]. split; [split|reflexivity].
  - right. eauto.
  - apply quiet_starts_snoc; [exact Hq | intros; exact Hs].
Qed.

Lemma playBeatAudio_one_voice beat p p' :
  one_voice p -> playBeatAudio beat p = Ok p' -> one_voice p'.
Proof.
  intros Hp. unfold playBeatAudio.
  destruct (negb (Player.audioContextRef p) || Player.muted p)%bool;
    [now intros [= <-]|].
  destruct beat as [b|]; [|discriminate].
  destruct (StoryBeat.audioBuffer b) as [buf|]; [|now intros [= <-]].
  intros [= <-]. destruct (stopCurrent_silent p Hp) as [Hs Hq].
  now apply startSource_one_voice.
Qed.

Lemma handleScroll_one_voice story c h p :
  one_voice p -> one_voice (fst (handleScroll story c h p)).
Proof.
  intros Hp. unfold handleScroll. destruct c as [m|]; [|exact Hp].
  destruct (strict_neq _ _ && lt_length _ _)%bool; [|exact Hp].
  destruct (playBeatAudio _ _) as [p3|e] eqn:E; [|exact Hp].
  cbn [fst]. eapply playBeatAudio_one_voice; [|exact E]. exact Hp.
Qed.

Lemma clipEnds_one_voice n p : one_voice p -> one_voice (clipEnds n p).
Proof.
  intros [Hs Hq]. unfold clipEnds.
  destruct (in_dec Nat.eq_dec n (sounding (Player.audioLog p))) as [Hin|];
    [|now split].
  split; cbn [Player.log Player.audioLog Player.currentSourceRef].
  - rewrite sounding_snoc.
    destruct Hs as [E | (m & E & Cm)]; rewrite E; cbn [hear remove]; [now left|].
    destruct (Nat.eq_dec n m); [now left | right; eauto].
  - apply quiet_starts_snoc; [exact Hq | discriminate].
Qed.

Lemma reachable_one_voice story p : reachable story p -> one_voice p.
Proof.
  induction 1 as [|p a Hr IH].
  - split; [now left|].
    intros [|x [|y pre]] n buf post H; cbn in H; try discriminate;
      injection H as _ H; destruct pre; discriminate.
  - destruct a as [c h | n | v]; cbn [step].
    + now apply handleScroll_one_voice.
    + now apply clipEnds_one_voice.
    + exact IH.
Qed.

Lemma reachable_run story acts p :
  reachable story p -> reachable story (run story acts p).
Proof.
  revert p; induction acts as [|a acts IH]; intros p Hp; cbn; [exact Hp|].
  apply IH. now constructor.
Qed.

(** C3.  In every state the player reaches from its mount by scrolling,
    clips ending and muting, at most one clip sounds and it is the one the
    player remembers; every clip of the history started in silence; and
    when [playBeatAudio] starts a clip, the clip that sounded has been
    stopped first, so that the new clip is the only one sounding. *)
Theorem one_clip_sounds (story : RecallStory.t) (p : Player.t) :
  reachable story p ->
  (length (sounding (Player.audioLog p)) <= 1)%nat /\
  (forall n, In n (sounding (Player.audioLog p)) ->
             Player.currentSourceRef p = Some n) /\
  quiet_starts (Player.audioLog p) /\
  (forall beat p',
      playBeatAudio beat p = Ok p' ->
      Player.audioLog p' <> Player.audioLog p ->
      exists buf,
        p' = startSource buf (stopCurrent p) /\
        sounding (Player.audioLog (stopCurrent p)) = [] /\
        Player.audioLog p'
          = (Player.audioLog (stopCurrent p) ++ [Started (Player.nodes p) buf])%list /\
        sounding (Player.audioLog p') = [Player.nodes p]).
Proof.
  intros Hr. pose proof (reachable_one_voice story p Hr) as Hp.
  destruct (one_voice_bound p Hp) as [Hlen Hcur].
  split; [exact Hlen|]. split; [exact Hcur|]. split; [apply Hp|].
  intros beat p' Hplay Hnew. unfold playBeatAudio in Hplay.
  destruct (negb (Player.audioContextRef p) || Player.muted p)%bool;
    [injection Hplay as <-; congruence|].
  destruct beat as [b|]; [|discriminate].
  destruct (StoryBeat.audioBuffer b) as [buf|];
    [|injection Hplay as <-; congruence].
  injection Hplay as <-. exists buf.
  destruct (stopCurrent_silent p Hp) as [Hs Hq].
  destruct (startSource_one_voice buf (stopCurrent p) Hs Hq) as [_ Hone].
  split; [reflexivity|]. split; [exact Hs|]. split.
  - unfold startSource, stopCurrent.
    destruct (Player.currentSourceRef p); reflexivity.
  - rewrite Hone. unfold stopCurrent.
    destruct (Player.currentSourceRef p); reflexivity.
Qed.

Lemma one_clip_sounds_witness :
  sounding
    (Player.audioLog
       (run demo [Scroll (scrolledTo 1600) 800; Scroll (scrolledTo 0) 800]
          (mount demo))) = [1%nat] /\
  (length
     (sounding
        (Player.audioLog
           (run demo [Scroll (scrolledTo 1600) 800; Scroll (scrolledTo 0) 800]
              (mount demo)))) <= 1)%nat.
Proof.
  split; [reflexivity|].
  apply (one_clip_sounds demo
           (run demo [Scroll (scrolledTo 1600) 800; Scroll (scrolledTo 0) 800]
              (mount demo))).
  apply reachable_run. constructor.
Defined.

(** C4, as the code has it.  Mounting the player opens the audio context
    and makes beat 0 the active beat, and that is all: no source is
    created, nothing is started and nothing sounds.  A scroll event that
    still rounds to index 0 starts nothing either. *)
Theorem mount_opens_context (story : RecallStory.t) :
  let p := mount story in
  Player.audioContextRef p = true /\
  Player.audioLog p = [Opened] /\
  Player.activeBeatIndex p = Int 0 /\
  Player.currentSourceRef p = None /\
  Player.nodes p = 0%nat /\
  sounding (Player.audioLog p) = [] /\
  (forall m h,
      Math_round (js_div (Metrics.scrollTop m) h) = Int 0 ->
      Player.audioLog (fst (handleScroll story (Some m) h p)) = [Opened]).
Proof.
  cbv zeta. repeat (split; [reflexivity|]).
  intros m h H. unfold handleScroll. rewrite H. reflexivity.
Qed.

Lemma mount_opens_context_witness :
  Player.audioLog (fst (handleScroll demo (scrolledTo 300) 800 (mount demo)))
  = [Opened].
Proof.
  apply (proj2 (proj2 (proj2 (proj2 (proj2 (proj2
           (mount_opens_context demo))))))).
  reflexivity.
Defined.

(** C4 as worded fails: beat 0 of the story has an audio clip and the
    mounted player has started no clip. *)
Lemma mount_opens_context_counterexample :
  ~ (forall story b buf,
        nth_error (RecallStory.beats story) 0 = Some b ->
        StoryBeat.audioBuffer b = Some buf ->
        exists n, In (Started n buf) (Player.audioLog (mount story))).
Proof.
  intros H.
  destruct (H demo _ clipA eq_refl eq_refl) as (n & [Hn | []]).
  discriminate Hn.
Qed.

Lemma strict_neq_Int k a : strict_neq (Int k) a = true <-> a <> Int k.
Proof.
  destruct a as [z| | |]; cbn; try (split; [discriminate | reflexivity]).
  rewrite negb_true_iff, Z.eqb_neq. split; congruence.
Qed.

Lemma viewed_reachable story p : viewed story p -> reachable story p.
Proof.
  induction 1 as [|p c h _ IH|p n _ IH].
  - constructor.
  - exact (reach_step story p (Scroll c h) IH).
  - exact (reach_step story p (ClipEnds n) IH).
Qed.

(** What a scroll event does to the two refs and to [muted]. *)
Lemma handleScroll_refs story c h p :
  let p' := fst (handleScroll story c h p) in
  Player.muted p' = Player.muted p /\
  Player.audioContextRef p' = Player.audioContextRef p /\
  (Player.currentSourceRef p' = Player.currentSourceRef p /\
   Player.nodes p' = Player.nodes p \/
   Player.currentSourceRef p' = Some (Player.nodes p) /\
   Player.nodes p' = S (Player.nodes p)).
Proof.
  cbv zeta. unfold handleScroll. destruct c as [m|]; [|now auto].
  destruct (strict_neq _ _ && lt_length _ _)%bool; [|now auto].
  unfold playBeatAudio.
  cbn [Player.setActiveBeatIndex Player.setScrollProgress
       Player.audioContextRef Player.muted].
  destruct (negb (Player.audioContextRef p) || Player.muted p)%bool;
    [now auto|].
  destruct (beat_at _ _) as [b|]; [|now auto].
  destruct (StoryBeat.audioBuffer b) as [buf|]; [|now auto].
  unfold startSource, stopCurrent. cbn.
  destruct (Player.currentSourceRef p); cbn; auto.
Qed.

(** In the hands of a viewer the player is never muted, its context is
    open, and the source it remembers is one it has created. *)
Lemma viewed_player story p :
  viewed story p ->
  Player.muted p = false /\ Player.audioContextRef p = true /\
  forall n, Player.currentSourceRef p = Some n -> (n < Player.nodes p)%nat.
Proof.
  induction 1 as [|p c h _ (Hmu & Hctx & Hcur)|p n _ (Hmu & Hctx & Hcur)].
  - repeat split. discriminate.
  - destruct (handleScroll_refs story c h p) as (Em & Ec & Hs).
    cbv zeta in Em, Ec, Hs. rewrite Em, Ec.
    split; [exact Hmu|]. split; [exact Hctx|].
    destruct Hs as [[-> ->] | [-> ->]].
    + exact Hcur.
    + intros n [= <-]. lia.
  - unfold clipEnds. destruct (in_dec _ _ _); auto.
Qed.

(** The transition in any state of the player: with the beat's clip
    present, the context open and audio not muted, the remembered source
    is stopped and a new one started; otherwise the audio is not touched. *)
Lemma transition_any (story : RecallStory.t) (p : Player.t)
  (m : Metrics.t) (h : float) (k : Z) :
  Math_round (js_div (Metrics.scrollTop m) h) = Int k ->
  Player.activeBeatIndex p <> Int k ->
  0 <= k < Z.of_nat (length (RecallStory.beats story)) ->
  exists beat,
    nth_error (RecallStory.beats story) (Z.to_nat k) = Some beat /\
    let p' := fst (handleScroll story (Some m) h p) in
    snd (handleScroll story (Some m) h p) = None /\
    Player.activeBeatIndex p' = Int k /\
    Player.muted p' = Player.muted p /\
    match StoryBeat.audioBuffer beat with
    | Some buf =>
        if (Player.audioContextRef p && negb (Player.muted p))%bool
        then Player.audioLog p'
             = (Player.audioLog (stopCurrent p)
                  ++ [Started (Player.nodes p) buf])%list /\
             Player.currentSourceRef p' = Some (Player.nodes p) /\
             (reachable story p ->
              sounding (Player.audioLog (stopCurrent p)) = [] /\
              sounding (Player.audioLog p') = [Player.nodes p])
        else Player.audioLog p' = Player.audioLog p /\
             Player.currentSourceRef p' = Player.currentSourceRef p
    | None =>
        Player.audioLog p' = Player.audioLog p /\
        Player.currentSourceRef p' = Player.currentSourceRef p
    end.
Proof.
  intros Hround Hneq [Hlo Hhi].
  destruct (nth_error (RecallStory.beats story) (Z.to_nat k)) as [beat|] eqn:N.
  2:{ apply nth_error_None in N. lia. }
  exists beat. split; [reflexivity|]. cbv zeta.
  unfold handleScroll. rewrite Hround.
  rewrite (proj2 (strict_neq_Int k _) Hneq). cbn [lt_length andb].
  destruct (Z.ltb_spec k (Z.of_nat (length (RecallStory.beats story))));
    [|lia].
  cbn [beat_at]. rewrite array_get_nonneg, N by exact Hlo.
  pose proof (fun Hr => proj1 (stopCurrent_silent p
                                (reachable_one_voice story p Hr))) as Hsil.
  destruct p as [mu act prog ctx cur created log].
  unfold playBeatAudio, startSource, stopCurrent in *.
  destruct ctx, mu, cur, (StoryBeat.audioBuffer beat) as [buf|];
    cbn -[sounding] in *; repeat split; try reflexivity;
    match goal with
    | Hr : reachable _ _ |- sounding (_ ++ [_]) = _ =>
        rewrite sounding_snoc, (Hsil Hr); reflexivity
    | Hr : reachable _ _ |- _ => exact (Hsil Hr)
    end.
Qed.

(** C5.  On a scroll event whose candidate index [k] differs from the
    active index and lies within the beats, the handler does not throw and
    the active index becomes [k], whether or not a clip is started; the
    start is a no-op, leaving the audio untouched, when the beat has no
    clip or audio is muted.  In a player as the host makes it, showing a
    story every beat of which carries its clip and driven by its viewer,
    the clip that sounds is stopped first and then the clip of beat [k]
    is started on a new source, which is then the only one sounding. *)
Theorem index_transition (story : RecallStory.t) (p : Player.t)
  (m : Metrics.t) (h : float) (k : Z) :
  Math_round (js_div (Metrics.scrollTop m) h) = Int k ->
  Player.activeBeatIndex p <> Int k ->
  0 <= k < Z.of_nat (length (RecallStory.beats story)) ->
  exists beat,
    nth_error (RecallStory.beats story) (Z.to_nat k) = Some beat /\
    let p' := fst (handleScroll story (Some m) h p) in
    snd (handleScroll story (Some m) h p) = None /\
    Player.activeBeatIndex p' = Int k /\
    Player.muted p' = Player.muted p /\
    (StoryBeat.audioBuffer beat = None \/ Player.muted p = true ->
     Player.audioLog p' = Player.audioLog p /\
     Player.currentSourceRef p' = Player.currentSourceRef p) /\
    (forall buf,
        StoryBeat.audioBuffer beat = Some buf ->
        Player.audioContextRef p = true -> Player.muted p = false ->
        Player.audioLog p'
        = (Player.audioLog (stopCurrent p)
             ++ [Started (Player.nodes p) buf])%list /\
        Player.currentSourceRef p' = Some (Player.nodes p)) /\
    (mastered story -> viewed story p ->
     exists buf,
       StoryBeat.audioBuffer beat = Some buf /\
       Player.audioLog p'
       = (Player.audioLog (stopCurrent p)
            ++ [Started (Player.nodes p) buf])%list /\
       Player.currentSourceRef p' = Some (Player.nodes p) /\
       sounding (Player.audioLog (stopCurrent p)) = [] /\
       sounding (Player.audioLog p') = [Player.nodes p] /\
       forall n,
         In n (sounding (Player.audioLog p)) ->
         Player.audioLog (stopCurrent p)
         = (Player.audioLog p ++ [Stopped n])%list /\
         ~ In n (sounding (Player.audioLog p'))).
Proof.
  intros Hround Hneq Hk.
  destruct (transition_any story p m h k Hround Hneq Hk)
    as (beat & N & Hthrow & Hact & Hmu & Haudio).
  exists beat. split; [exact N|]. cbv zeta.
  split; [exact Hthrow|]. split; [exact Hact|]. split; [exact Hmu|].
  split; [|split].
  - intros [Hb | Hm].
    + rewrite Hb in Haudio. exact Haudio.
    + destruct (StoryBeat.audioBuffer beat); [|exact Haudio].
      rewrite Hm, andb_false_r in Haudio. exact Haudio.
  - intros buf Hb Hctx Hm. rewrite Hb, Hctx, Hm in Haudio.
    cbn [andb negb] in Haudio. split; apply Haudio.
  - intros Hmas Hv.
    destruct (viewed_player story p Hv) as (Hm & Hctx & Hfresh).
    pose proof (viewed_reachable story p Hv) as Hr.
    assert (Hclip : StoryBeat.audioBuffer beat <> None).
    { unfold mastered in Hmas. rewrite Forall_forall in Hmas.
      apply Hmas. eapply nth_error_In. exact N. }
    destruct (StoryBeat.audioBuffer beat) as [buf|]; [|congruence].
    rewrite Hm, Hctx in Haudio. cbn [andb negb] in Haudio.
    destruct Haudio as (Hlog & Hcur & Hs).
    destruct (Hs Hr) as [Hquiet Hone].
    exists buf. split; [reflexivity|]. split; [exact Hlog|].
    split; [exact Hcur|]. split; [exact Hquiet|]. split; [exact Hone|].
    intros n Hn.
    destruct (one_voice_bound p (reachable_one_voice story p Hr)) as [_ Hrem].
    pose proof (Hrem n Hn) as Hc. split.
    + unfold stopCurrent. rewrite Hc. reflexivity.
    + rewrite Hone. intros [E | []]. apply Hfresh in Hc. lia.
Qed.

Lemma index_transition_witness :
  Player.audioLog
    (fst (handleScroll premiere (scrolledTo 800) 800
            (fst (handleScroll premiere (scrolledTo 1600) 800
                    (mount premiere)))))
  = [Opened; Started 0 clipC; Stopped 0; Started 1 clipB].
Proof.
  destruct (index_transition premiere
              (fst (handleScroll premiere (scrolledTo 1600) 800
                      (mount premiere)))
              (Metrics.mk 800 3200 800) 800 1)
    as (beat & Hb & _ & _ & _ & _ & _ & H).
  - reflexivity.
  - discriminate.
  - cbn. lia.
  - destruct H as (buf & Hbuf & Hlog & _).
    + repeat constructor; discriminate.
    + apply viewed_scroll, viewed_mount.
    + injection Hb as <-. injection Hbuf as <-. exact Hlog.
Defined.

Lemma playBeatAudio_scrollProgress beat p p' :
  playBeatAudio beat p = Ok p' ->
  Player.scrollProgress p' = Player.scrollProgress p.
Proof.
  unfold playBeatAudio.
  destruct (negb (Player.audioContextRef p) || Player.muted p)%bool;
    [now intros [= <-]|].
  destruct beat as [b|]; [|discriminate].
  destruct (StoryBeat.audioBuffer b) as [buf|]; intros [= <-]; [|reflexivity].
  unfold startSource, stopCurrent.
  destruct (Player.currentSourceRef p); reflexivity.
Qed.

Lemma handleScroll_scrollProgress story m h p :
  Player.scrollProgress (fst (handleScroll story (Some m) h p))
  = js_div (Metrics.scrollTop m)
           (Metrics.scrollHeight m - Metrics.clientHeight m)%float.
Proof.
  unfold handleScroll.
  destruct (strict_neq _ _ && lt_length _ _)%bool; [|reflexivity].
  destruct (playBeatAudio _ _) as [p3|e] eqn:E; [|reflexivity].
  cbn [fst]. now rewrite (playBeatAudio_scrollProgress _ _ _ E).
Qed.

(** C6, as the code has it.  After a scroll event [scrollProgress] is the
    quotient scrollTop / (scrollHeight - clientHeight) as the division
    yields it, without any clamping: whatever finite value the quotient
    has, inside 0..1 or not, is the value stored.  It is stored whether or
    not the event changes the active beat and whether or not the handler
    throws, and it depends on the three metrics alone, not on the story,
    the window height or the state of the player.  Until the next scroll
    event it stays what it is: an event without a container, a clip that
    ends and a change of [muted] leave it as it was. *)
Theorem scroll_progress_value (story : RecallStory.t) (p : Player.t)
  (m : Metrics.t) (h : float) :
  let range := (Metrics.scrollHeight m - Metrics.clientHeight m)%float in
  let progress :=
    Player.scrollProgress (fst (handleScroll story (Some m) h p)) in
  progress = js_div (Metrics.scrollTop m) range /\
  (forall q, js_div (Metrics.scrollTop m) range = Fin q -> progress = Fin q) /\
  (forall story' p' h',
      Player.scrollProgress (fst (handleScroll story' (Some m) h' p'))
      = progress) /\
  Player.scrollProgress (fst (handleScroll story None h p))
  = Player.scrollProgress p /\
  (forall n, Player.scrollProgress (clipEnds n p) = Player.scrollProgress p) /\
  (forall v, Player.scrollProgress (Player.setMuted v p)
             = Player.scrollProgress p).
Proof.
  cbv zeta. rewrite handleScroll_scrollProgress.
  split; [reflexivity|]. split; [intros q Hq; exact Hq|].
  split; [|split; [|split]].
  - intros story' p' h'. apply handleScroll_scrollProgress.
  - reflexivity.
  - intros n. unfold clipEnds. now destruct (in_dec _ _ _).
  - reflexivity.
Qed.

Lemma scroll_progress_value_witness :
  Player.scrollProgress
    (fst (handleScroll demo (scrolledTo 600) 800 (mount demo)))
  = Fin (4503599627370496 # 18014398509481984) /\
  (4503599627370496 # 18014398509481984 == 1 # 4)%Q.
Proof.
  split; [|reflexivity].
  apply (proj1 (proj2 (scroll_progress_value demo (mount demo)
                         (Metrics.mk 600 3200 800) 800))).
  reflexivity.
Defined.

(** C6 as worded fails: with scrollTop ten pixels above the top of a
    container of height 800 and content height 3200 the progress is the
    quotient of -10 by 2400, a negative number, which clamping to 0..1
    would have made 0. *)
Lemma scroll_progress_value_counterexample :
  ~ (forall story p m h q,
        js_div (Metrics.scrollTop m)
               (Metrics.scrollHeight m - Metrics.clientHeight m)%float = Fin q ->
        exists q',
          Player.scrollProgress (fst (handleScroll story (Some m) h p)) = Fin q'
          /\ (q' == clamp01 q)%Q).
Proof.
  intros H.
  destruct (H demo (mount demo) (Metrics.mk (-10) 3200 800) 800%float _ eq_refl)
    as (q' & Hq' & Hc).
  injection Hq' as <-. revert Hc. vm_compute. discriminate.
Qed.

(** Leaving the player closes the context, and then nothing sounds. *)
Lemma unmount_silent (story : RecallStory.t) (p : Player.t) :
  reachable story p -> sounding (Player.audioLog (unmount p)) = [].
Proof.
  intros Hr. unfold unmount.
  assert (Hctx : Player.audioContextRef p = true).
  { induction Hr as [|p a Hr IH]; [reflexivity|].
    destruct a as [c h | n | v]; cbn [step]; [| |exact IH].
    - unfold handleScroll. destruct c as [m|]; [|exact IH].
      destruct (strict_neq _ _ && lt_length _ _)%bool; [|exact IH].
      destruct (playBeatAudio _ _) as [p3|e] eqn:E; [|exact IH].
      cbn [fst]. unfold playBeatAudio in E.
      cbn [Player.setActiveBeatIndex Player.setScrollProgress
           Player.audioContextRef Player.muted] in E.
      rewrite IH in E. cbn [negb orb] in E.
      destruct (Player.muted p); [injection E as <-; exact IH|].
      destruct (beat_at _ _) as [b|]; [|discriminate].
      destruct (StoryBeat.audioBuffer b); injection E as <-; [|exact IH].
      unfold startSource, stopCurrent. cbn.
      destruct (Player.currentSourceRef p); exact IH.
    - unfold clipEnds. destruct (in_dec _ _ _); exact IH. }
  rewrite Hctx. cbn [Player.log Player.audioLog].
  now rewrite sounding_snoc.
Qed.

(* ===================================================================== *)
(** * Further properties *)
(* ===================================================================== *)

(** ** [handleGenerate]: the other paths *)

Section HandleGenerateMore.

Variable analyze : Params.t -> result RecallStory.t.
Variable tts : SpeechProvider.
Variable dec : AudioDecoder.

(** Whatever happens, the loop only asks for speech, decodes and sets the
    message. *)
Lemma masterBeats_effects voice n beats :
  forall k st,
    exists extra,
      snd (fst (masterBeats tts dec voice n k beats st))
        = (snd st ++ extra)%list /\
      Forall loopEffect extra /\
      fst (fst (masterBeats tts dec voice n k beats st))
        = App.setLoadingMsg
            (App.loadingMsg (fst (fst (masterBeats tts dec voice n k beats st))))
            (fst st).
Proof.
  induction beats as [|b beats IH]; intros k st.
  - exists []. cbn. rewrite app_nil_r. repeat split; [constructor|].
    now destruct (fst st).
  - rewrite masterBeats_cons. cbv zeta.
    destruct (tts k (StoryBeat.text b) voice) as [wav|].
    2:{ eexists. cbn [fst snd]. split; [reflexivity|].
        split; [repeat constructor | now destruct (fst st)]. }
    destruct (dec wav) as [buf|].
    2:{ eexists. cbn [fst snd]. split; [reflexivity|].
        split; [repeat constructor | now destruct (fst st)]. }
    match goal with
    | |- context [masterBeats tts dec voice n (S k) beats ?s] =>
        destruct (IH (S k) s) as (extra & Hlog & Hall & Happ);
        destruct (masterBeats tts dec voice n (S k) beats s) as [[a' log'] r]
    end.
    cbn [fst snd] in *.
    exists ([CallGenerateBeatAudio k (StoryBeat.text b) voice;
             CallDecodeAudioData k wav; SetLoadingMsg (mastering k n)]
              ++ extra)%list.
    destruct r as [rest'|e]; cbn [fst snd];
      (split; [rewrite Hlog, <- app_assoc; reflexivity|]);
      (split; [repeat constructor; exact Hall|]);
      rewrite Happ at 1; reflexivity.
Qed.

(** The loop when every beat succeeds. *)
Lemma masterBeats_all voice n beats :
  forall k st,
    (forall j bj, nth_error beats j = Some bj ->
                  succeeds tts dec voice (k + j) bj) ->
    exists a' log' beats',
      masterBeats tts dec voice n k beats st = ((a', log'), Ok beats') /\
      length beats' = length beats /\
      (forall j bj, nth_error beats j = Some bj ->
         exists wav buf,
           tts (k + j)%nat (StoryBeat.text bj) voice = Some wav /\
           dec wav = Some buf /\
           nth_error beats' j = Some (withAudio bj buf)) /\
      synthesized log' = (synthesized (snd st) ++ seq k (length beats))%list /\
      App.loadingMsg a'
        = match beats with
          | [] => App.loadingMsg (fst st)
          | _ => mastering (k + length beats - 1) n
          end.
Proof.
  induction beats as [|b beats IH]; intros k st Hall.
  - destruct st as [a l]. do 3 eexists. split; [reflexivity|]. cbn.
    split; [reflexivity|]. split; [intros [|j] bj H; discriminate H|].
    split; [now rewrite app_nil_r | reflexivity].
  - rewrite masterBeats_cons. cbv zeta.
    destruct (Hall 0%nat b eq_refl) as (wav & buf & T & D).
    rewrite Nat.add_0_r in T. rewrite T, D.
    edestruct (IH (S k)) as (a' & log' & beats' & E & Hlen & Hnth & Hs & Hmsg).
    { intros j bj Hj. replace (S k + j)%nat with (k + S j)%nat by lia.
      now apply Hall. }
    rewrite E. exists a', log', (withAudio b buf :: beats').
    split; [reflexivity|]. cbn [length]. split; [now rewrite Hlen|].
    split; [|split].
    + intros [|j] bj Hj; cbn in Hj.
      * injection Hj as <-. exists wav, buf. rewrite Nat.add_0_r. auto.
      * destruct (Hnth j bj Hj) as (wav' & buf' & T' & D' & N').
        exists wav', buf'.
        replace (k + S j)%nat with (S k + j)%nat by lia. auto.
    + rewrite Hs. cbn [fst snd]. rewrite synthesized_app. cbn [seq].
      rewrite <- app_assoc. reflexivity.
    + rewrite Hmsg. cbn [fst snd]. destruct beats as [|b1 beats].
      * cbn [length App.loadingMsg App.setLoadingMsg].
        replace (k + 1 - 1)%nat with k by lia. reflexivity.
      * cbn [length].
        replace (S k + S (length beats) - 1)%nat
          with (k + S (S (length beats)) - 1)%nat by lia.
        reflexivity.
Qed.

Lemma handleGenerate_completed a0 gs a' log' beats' :
  analyze (paramsOf a0) = Ok gs ->
  masterBeats tts dec (voiceOf (CutPack.category (App.selectedCutPack a0)))
    (length (RecallStory.beats gs)) 0 (RecallStory.beats gs) (enteringLoop a0)
    = ((a', log'), Ok beats') ->
  handleGenerate analyze tts dec a0 (a0, [])
    = ((App.setAppState PREMIERE
          (App.setStory (RecallStory.mk (RecallStory.title gs) beats') a'),
        (log' ++ [CloseAudioContext;
                  SetStory (RecallStory.mk (RecallStory.title gs) beats');
                  SetAppState PREMIERE])%list), Ok tt).
Proof.
  intros Han Hloop.
  unfold handleGenerate, setAppState, setLoadingMsg, setStory, Act.try_catch.
  unfold Act.bind at 1 2 3 4. cbn [Act.emit Act.update fst snd app].
  unfold Act.bind at 1 2. cbn [Act.emit fst snd app]. unfold Act.lift at 1.
  rewrite Han.
  unfold Act.bind at 1 2 3 4 5. cbn [Act.emit Act.update fst snd app].
  fold (enteringLoop a0). rewrite Hloop.
  unfold Act.bind. cbn [Act.emit Act.update fst snd Act.ret].
  rewrite <- !app_assoc. reflexivity.
Qed.

Lemma handleGenerate_rejected a0 e :
  analyze (paramsOf a0) = Err e ->
  handleGenerate analyze tts dec a0 (a0, [])
    = ((App.setAppState IMPORTING
          (App.setLoadingMsg "Activating Thinking Mode..."
             (App.setAppState ANALYZING a0)),
        [SetAppState ANALYZING; SetLoadingMsg "Activating Thinking Mode...";
         CallAnalyze (paramsOf a0); ConsoleError e; SetAppState IMPORTING]),
       Ok tt).
Proof.
  intros Han.
  unfold handleGenerate, setAppState, setLoadingMsg, Act.try_catch.
  unfold Act.bind at 1 2 3 4. cbn [Act.emit Act.update fst snd app].
  unfold Act.bind at 1 2. cbn [Act.emit fst snd app]. unfold Act.lift at 1.
  rewrite Han. unfold Act.bind. cbn [Act.emit Act.update fst snd app].
  reflexivity.
Qed.

End HandleGenerateMore.

Lemma loopEffect_not_close extra :
  Forall loopEffect extra ->
  ~ In CloseAudioContext extra /\ ~ In OpenAudioContext extra /\
  (forall s, ~ In (SetStory s) extra).
Proof.
  intros H. rewrite Forall_forall in H.
  split; [|split].
  - intros Hin. exact (H _ Hin).
  - intros Hin. exact (H _ Hin).
  - intros s Hin. exact (H _ Hin).
Qed.

Lemma all_or_some_fails tts dec voice beats :
  forall k,
    (forall j bj, nth_error beats j = Some bj ->
                  succeeds tts dec voice (k + j) bj) \/
    (exists j bj, nth_error beats j = Some bj /\
                  fails tts dec voice (k + j) bj).
Proof.
  induction beats as [|b beats IH]; intros k.
  - left. intros [|j] bj H; discriminate H.
  - destruct (succeeds_or_fails tts dec voice k b) as [S0 | F0].
    + destruct (IH (S k)) as [Hall | (j & bj & Hj & Hf)].
      * left. intros [|j] bj Hj; cbn in Hj.
        -- injection Hj as <-. now rewrite Nat.add_0_r.
        -- replace (k + S j)%nat with (S k + j)%nat by lia. now apply Hall.
      * right. exists (S j), bj. split; [exact Hj|].
        now replace (k + S j)%nat with (S k + j)%nat by lia.
    + right. exists 0%nat, b. split; [reflexivity|]. now rewrite Nat.add_0_r.
Qed.

(** X1.  Success of [handleGenerate].  When the story has been generated and
    speech synthesis and decoding succeed for every beat, the host ends on
    the premiere screen with a stored story that has the generated title
    and, position by position, the generated beats with the decoded clip
    of their text attached; speech was requested once per beat, in order;
    the audio context was opened before the loop and closed after it; the
    last message names the last beat; media and itinerary are untouched. *)
Theorem generate_success
  (analyze : Params.t -> result RecallStory.t) (tts : SpeechProvider)
  (dec : AudioDecoder) (a0 : App.t) (gs : RecallStory.t) :
  let voice := voiceOf (CutPack.category (App.selectedCutPack a0)) in
  analyze (paramsOf a0) = Ok gs ->
  (forall j bj, nth_error (RecallStory.beats gs) j = Some bj ->
                succeeds tts dec voice j bj) ->
  exists beats' extra,
    let a' := fst (runGenerate analyze tts dec a0) in
    let log := snd (runGenerate analyze tts dec a0) in
    App.appState a' = PREMIERE /\
    App.story a' = Some (RecallStory.mk (RecallStory.title gs) beats') /\
    length beats' = length (RecallStory.beats gs) /\
    (forall j bj, nth_error (RecallStory.beats gs) j = Some bj ->
       exists wav buf,
         tts j (StoryBeat.text bj) voice = Some wav /\ dec wav = Some buf /\
         nth_error beats' j = Some (withAudio bj buf)) /\
    log = (snd (enteringLoop a0) ++ extra
             ++ [CloseAudioContext;
                 SetStory (RecallStory.mk (RecallStory.title gs) beats');
                 SetAppState PREMIERE])%list /\
    Forall loopEffect extra /\
    synthesized log = seq 0 (length (RecallStory.beats gs)) /\
    App.loadingMsg a' = lastMessage (length (RecallStory.beats gs)) /\
    App.media a' = App.media a0 /\
    App.itinerary a' = App.itinerary a0.
Proof.
  intros voice Han Hall.
  destruct (masterBeats_all tts dec voice (length (RecallStory.beats gs))
              (RecallStory.beats gs) 0 (enteringLoop a0) Hall)
    as (a' & log' & beats' & Hrun & Hlen & Hnth & Hs & Hmsg).
  destruct (masterBeats_effects tts dec voice (length (RecallStory.beats gs))
              (RecallStory.beats gs) 0 (enteringLoop a0))
    as (extra & Hlog & Hextra & Happ).
  fold voice in Hrun. rewrite Hrun in Hlog, Happ. cbn [fst snd] in Hlog, Happ.
  exists beats', extra. cbv zeta. unfold runGenerate.
  rewrite (handleGenerate_completed analyze tts dec a0 gs a' log' beats' Han Hrun).
  cbn [fst snd]. split; [reflexivity|]. split; [reflexivity|].
  split; [exact Hlen|]. split; [exact Hnth|].
  split; [rewrite Hlog, <- app_assoc; reflexivity|].
  split; [exact Hextra|]. split; [|split].
  - rewrite synthesized_app, Hs. cbn. now rewrite app_nil_r.
  - cbn [App.loadingMsg App.setAppState App.setStory]. rewrite Hmsg.
    unfold lastMessage. destruct (RecallStory.beats gs) as [|b bs];
      [reflexivity|].
    cbn [length]. replace (0 + S (length bs) - 1)%nat with (length bs) by lia.
    reflexivity.
  - rewrite Happ. split; reflexivity.
Qed.

Lemma generate_success_witness :
  App.appState (fst (runGenerate (fun _ => Ok fiveBeats) speaksAll decodesAll
                       designing)) = PREMIERE /\
  synthesized (snd (runGenerate (fun _ => Ok fiveBeats) speaksAll decodesAll
                      designing)) = [0; 1; 2; 3; 4]%nat.
Proof.
  destruct (generate_success (fun _ => Ok fiveBeats) speaksAll decodesAll
              designing fiveBeats eq_refl)
    as (beats' & extra & Hst & _ & _ & _ & _ & _ & Hs & _).
  - intros j bj _. exists [], (Decoded []). split; reflexivity.
  - split; [exact Hst | exact Hs].
Defined.

(** X2.  Failure of the story generation.  When [analyzeTripAndGenerateStory]
    throws, [handleGenerate] opens no audio context, requests no speech
    and stores nothing; the error is logged and the host is back on the
    importing screen. *)
Theorem generate_analysis_fails
  (analyze : Params.t -> result RecallStory.t) (tts : SpeechProvider)
  (dec : AudioDecoder) (a0 : App.t) (e : exn) :
  analyze (paramsOf a0) = Err e ->
  let a' := fst (runGenerate analyze tts dec a0) in
  let log := snd (runGenerate analyze tts dec a0) in
  App.appState a' = IMPORTING /\
  App.story a' = App.story a0 /\
  App.media a' = App.media a0 /\
  App.itinerary a' = App.itinerary a0 /\
  log = [SetAppState ANALYZING; SetLoadingMsg "Activating Thinking Mode...";
         CallAnalyze (paramsOf a0); ConsoleError e; SetAppState IMPORTING] /\
  synthesized log = [].
Proof.
  intros Han. cbv zeta. unfold runGenerate.
  rewrite (handleGenerate_rejected analyze tts dec a0 e Han).
  repeat split; reflexivity.
Qed.

Lemma generate_analysis_fails_witness :
  App.appState
    (fst (runGenerate (V2.analyzeTripAndGenerateStory (always Malformed))
            speaksAll decodesAll designing)) = IMPORTING.
Proof.
  apply (generate_analysis_fails
           (V2.analyzeTripAndGenerateStory (always Malformed))
           speaksAll decodesAll designing SyntaxError eq_refl).
Defined.

(** X3.  Every run of [handleGenerate].  The handler never throws.  It ends
    either on the premiere screen, with a story stored whose beats all
    carry a clip and with the audio context closed, or on the importing
    screen, with the story it had before, no story stored and - even when
    the context had been opened - no context closed.  The media and the
    itinerary are never touched. *)
Theorem generate_outcome
  (analyze : Params.t -> result RecallStory.t) (tts : SpeechProvider)
  (dec : AudioDecoder) (a0 : App.t) :
  let a' := fst (runGenerate analyze tts dec a0) in
  let log := snd (runGenerate analyze tts dec a0) in
  snd (handleGenerate analyze tts dec a0 (a0, [])) = Ok tt /\
  App.media a' = App.media a0 /\
  App.itinerary a' = App.itinerary a0 /\
  ((App.appState a' = PREMIERE /\
    In CloseAudioContext log /\
    exists s, App.story a' = Some s /\ In (SetStory s) log /\
              Forall (fun b => StoryBeat.audioBuffer b <> None)
                     (RecallStory.beats s)) \/
   (App.appState a' = IMPORTING /\
    App.story a' = App.story a0 /\
    ~ In CloseAudioContext log /\
    forall s, ~ In (SetStory s) log)).
Proof.
  cbv zeta. unfold runGenerate.
  destruct (analyze (paramsOf a0)) as [gs|e] eqn:Han.
  2:{ rewrite (handleGenerate_rejected analyze tts dec a0 e Han).
      cbn [fst snd]. split; [reflexivity|]. split; [reflexivity|].
      split; [reflexivity|]. right. split; [reflexivity|].
      split; [reflexivity|]. split.
      - intros H. cbn in H. intuition discriminate.
      - intros s H. cbn in H. intuition discriminate. }
  set (voice := voiceOf (CutPack.category (App.selectedCutPack a0))).
  destruct (masterBeats_effects tts dec voice (length (RecallStory.beats gs))
              (RecallStory.beats gs) 0 (enteringLoop a0))
    as (extra & Hlog & Hextra & Happ).
  destruct (loopEffect_not_close extra Hextra) as (Hnc & _ & Hns).
  destruct (all_or_some_fails tts dec voice (RecallStory.beats gs) 0)
    as [Hall | (j & bj & Hj & Hf)].
  - destruct (masterBeats_all tts dec voice (length (RecallStory.beats gs))
                (RecallStory.beats gs) 0 (enteringLoop a0) Hall)
      as (a' & log' & beats' & Hrun & Hlen & Hnth & _).
    rewrite Hrun in Hlog, Happ. cbn [fst snd] in Hlog, Happ.
    rewrite (handleGenerate_completed analyze tts dec a0 gs a' log' beats'
               Han Hrun).
    cbn [fst snd]. split; [reflexivity|].
    split; [rewrite Happ; reflexivity|]. split; [rewrite Happ; reflexivity|].
    left. split; [reflexivity|].
    split; [apply in_or_app; right; now left|].
    eexists. split; [reflexivity|].
    split; [apply in_or_app; right; right; now left|].
    cbn [RecallStory.beats]. apply Forall_forall. intros x Hx.
    apply In_nth_error in Hx as (i & Hi).
    assert (Hlt : (i < length (RecallStory.beats gs))%nat).
    { rewrite <- Hlen. apply nth_error_Some. congruence. }
    apply nth_error_Some in Hlt.
    destruct (nth_error (RecallStory.beats gs) i) as [bi|] eqn:Hbi;
      [|congruence].
    destruct (Hnth i bi Hbi) as (wav & buf & _ & _ & Hx').
    rewrite Hi in Hx'. injection Hx' as ->. discriminate.
  - destruct (first_failure tts dec voice (RecallStory.beats gs) 0 j bj Hj Hf)
      as (pre & b & post & Hsplit & _ & Hpre & Hb).
    destruct (masterBeats_aborts tts dec voice (length (RecallStory.beats gs))
                pre b post 0 (enteringLoop a0) Hpre Hb)
      as (a' & log' & Hrun & Ha & _ & _).
    rewrite <- Hsplit in Hrun.
    rewrite Hrun in Hlog. cbn [fst snd] in Hlog.
    rewrite (handleGenerate_caught analyze tts dec a0 gs a' log' AudioError
               Han Hrun).
    cbn [fst snd]. split; [reflexivity|].
    split; [rewrite Ha; reflexivity|]. split; [rewrite Ha; reflexivity|].
    right. split; [reflexivity|]. split; [rewrite Ha; reflexivity|].
    rewrite Hlog. split.
    + intros H. rewrite !in_app_iff in H. cbn in H.
      intuition discriminate.
    + intros s H. rewrite !in_app_iff in H. cbn in H.
      destruct H as [[H | H] | H]; [intuition discriminate | | intuition discriminate].
      exact (Hns s H).
Qed.

(** ** [processFiles] with files *)

Lemma remove_nth_perm {A} (l : list A) k x :
  nth_error l k = Some x -> Permutation (x :: remove_nth k l) l.
Proof.
  revert k; induction l as [|y l IH]; intros [|k] H; cbn in *;
    try discriminate.
  - injection H as ->. reflexivity.
  - rewrite perm_swap. constructor. now apply IH.
Qed.

Lemma map_remove_nth {A B} (f : A -> B) (l : list A) k :
  map f (remove_nth k l) = remove_nth k (map f l).
Proof.
  revert k; induction l as [|y l IH]; intros [|k]; cbn; try reflexivity.
  now rewrite IH.
Qed.

Lemma map_snd_indexed {A} (xs : list A) i : map snd (indexed i xs) = xs.
Proof.
  revert i; induction xs as [|x xs IH]; intros i; cbn; [reflexivity|].
  now rewrite IH.
Qed.

Lemma processFiles_stands files a :
  files <> [] -> uploadStands files a (processFiles files a).
Proof.
  intros Hne. split; [reflexivity|]. exists []. cbn.
  split; [constructor|]. split; [now rewrite map_snd_indexed|].
  split; [reflexivity|]. split; [reflexivity|].
  intros H. destruct files; [congruence | discriminate H].
Qed.

Lemma onloadend_stands files a k env s :
  uploadStands files a s -> uploadStands files a (onloadend k env s).
Proof.
  destruct s as [a1 u]. unfold uploadStands, onloadend. cbn [fst snd].
  intros (Hfiles & done & Hdone & Hperm & Hcount & Hrun & Hend).
  destruct (nth_error (Upload.readers u) k) as [[idx file]|] eqn:N.
  2:{ cbn [fst snd]. split; [exact Hfiles|]. exists done. auto. }
  assert (Hne : Upload.readers u <> []) by (intros E; rewrite E in N; now destruct k).
  assert (Hperm' :
            Permutation ((done ++ [file])
                           ++ map snd (remove_nth k (Upload.readers u))) files).
  { rewrite <- Hperm, <- app_assoc. apply Permutation_app_head. cbn [app].
    rewrite map_remove_nth. apply remove_nth_perm.
    now rewrite nth_error_map, N. }
  pose proof (Permutation_length Hperm') as Hlen.
  rewrite !length_app, length_map in Hlen. cbn [length] in Hlen.
  rewrite Hfiles.
  destruct (Nat.eqb_spec (S (Upload.processedCount u)) (length files)) as [E|E];
    cbn [fst snd Upload.files Upload.newMedia Upload.readers
         Upload.processedCount];
    (split; [reflexivity|]); exists (done ++ [file])%list;
    (split; [apply Forall2_app; [exact Hdone|];
             constructor; [repeat split | constructor]|]);
    (split; [exact Hperm'|]);
    (split; [rewrite length_app; cbn; lia|]).
  - assert (Hnil : remove_nth k (Upload.readers u) = []).
    { destruct (remove_nth k (Upload.readers u)); [reflexivity|].
      cbn [length] in Hlen. lia. }
    rewrite Hnil. split; [congruence|]. intros _. now rewrite (Hrun Hne).
  - split; [intros _; exact (Hrun Hne)|].
    intros Hnil. rewrite Hnil in Hlen. cbn in Hlen. lia.
Qed.

Lemma callbacks_stands files a evs s :
  uploadStands files a s -> uploadStands files a (callbacks evs s).
Proof.
  revert s; induction evs as [|[k env] evs IH]; intros s H; cbn; [exact H|].
  now apply IH, onloadend_stands.
Qed.

Lemma callbacks_first_reader envs :
  forall s,
    length envs = length (Upload.readers (snd s)) ->
    Upload.readers (snd (callbacks (map (fun env => (0%nat, env)) envs) s)) = [].
Proof.
  induction envs as [|env envs IH]; intros [a u] Hlen; cbn [map callbacks].
  - cbn in *. now destruct (Upload.readers u).
  - apply IH. unfold onloadend. cbn [snd] in *.
    destruct (Upload.readers u) as [|[idx file] rest] eqn:R; [discriminate|].
    cbn [nth_error remove_nth]. cbn [length] in Hlen.
    destruct (Nat.eqb _ _); cbn [snd Upload.readers]; lia.
Qed.

Lemma callbacks_fired evs :
  forall s,
    Upload.newMedia (snd (callbacks evs s))
    = (Upload.newMedia (snd s)
         ++ map pushed (fired evs (Upload.readers (snd s))))%list /\
    Permutation
      (map firedFile (fired evs (Upload.readers (snd s)))
         ++ map snd (Upload.readers (snd (callbacks evs s))))
      (map snd (Upload.readers (snd s))).
Proof.
  induction evs as [|[k env] evs IH]; intros [a u]; cbn [callbacks fired].
  - cbn. now rewrite app_nil_r.
  - destruct (IH (onloadend k env (a, u))) as [Hm Hp].
    rewrite Hm. clear Hm. revert Hp. unfold onloadend. cbn [snd].
    destruct (nth_error (Upload.readers u) k) as [[idx file]|] eqn:N;
      [|intros Hp; split; [reflexivity | exact Hp]].
    assert (Hu : forall x y : App.t * Upload.t,
               snd (if Nat.eqb (S (Upload.processedCount u))
                               (length (Upload.files u))
                    then x else y)
               = if Nat.eqb (S (Upload.processedCount u))
                            (length (Upload.files u))
                 then snd x else snd y)
      by (intros; now destruct (Nat.eqb _ _)).
    rewrite Hu. cbn [snd].
    replace (if Nat.eqb (S (Upload.processedCount u)) (length (Upload.files u))
             then _ else _)
      with (Upload.mk (Upload.files u)
              (Upload.newMedia u
                 ++ [pushed ((idx, file), env)])%list
              (S (Upload.processedCount u))
              (remove_nth k (Upload.readers u)))
      by (now destruct (Nat.eqb _ _)).
    cbn [Upload.newMedia Upload.readers map]. intros Hp. split.
    + now rewrite <- app_assoc.
    + cbn [app firedFile fst snd].
      rewrite <- (remove_nth_perm (map snd (Upload.readers u)) k file)
        by (now rewrite nth_error_map, N).
      constructor. rewrite <- map_remove_nth. exact Hp.
Qed.

Lemma pushed_uploaded order :
  Forall2 uploaded (map firedFile order) (map pushed order).
Proof.
  induction order as [|[[idx file] env] order IH]; cbn; constructor;
    [repeat split | exact IH].
Qed.

(** X4.  [processFiles] on a list that is not empty.  While a reader is
    pending the component state is the state before with the flag raised:
    the media are not touched.  Once every callback has run, in whatever
    order, the flag is down and the media have grown, in one step, by one
    item per file, in the order in which the readers finished: the item
    of the reader that finished first comes first, and each item has the
    id made of the time of its callback and the position of its file, the
    object URL, the file's MIME type, the time stamp, the reader's result
    and the tag upload.  If every reader ends, that point is reached. *)
Theorem upload_completes (files : list File.t) (a : App.t)
  (evs : list (nat * Tick.t)) :
  files <> [] ->
  let s := callbacks evs (processFiles files a) in
  let order := fired evs (indexed 0 files) in
  (Upload.readers (snd s) <> [] -> fst s = App.setIsProcessing true a) /\
  (Upload.readers (snd s) = [] ->
   Permutation (map firedFile order) files /\
   Upload.newMedia (snd s) = map pushed order /\
   Forall2 uploaded (map firedFile order) (Upload.newMedia (snd s)) /\
   App.isProcessing (fst s) = false /\
   App.media (fst s) = (App.media a ++ map pushed order)%list /\
   fst s = App.setIsProcessing false
             (App.setMedia
                (fun prev => (prev ++ map pushed order)%list)
                (App.setIsProcessing true a))) /\
  (forall envs,
      length envs = length files ->
      Upload.readers
        (snd (callbacks (map (fun env => (0%nat, env)) envs)
                (processFiles files a))) = []).
Proof.
  intros Hne s order.
  destruct (callbacks_stands files a evs _ (processFiles_stands files a Hne))
    as (_ & done & _ & _ & _ & Hrun & Hend).
  destruct (callbacks_fired evs (processFiles files a)) as [Hm Hp].
  fold s in Hrun, Hend, Hm, Hp.
  cbn [processFiles snd Upload.newMedia Upload.readers app] in Hm, Hp.
  fold order in Hm, Hp. rewrite map_snd_indexed in Hp.
  split; [exact Hrun|]. split.
  - intros Hnil. rewrite Hnil in Hp. cbn [map] in Hp.
    rewrite app_nil_r in Hp. split; [exact Hp|].
    split; [exact Hm|]. rewrite Hm. split; [apply pushed_uploaded|].
    rewrite (Hend Hnil) at 1 2. rewrite Hm.
    split; [reflexivity|]. split; [reflexivity | rewrite <- Hm; exact (Hend Hnil)].
  - intros envs Hlen. apply callbacks_first_reader.
    cbn. now rewrite length_indexed.
Qed.

Lemma upload_completes_witness :
  map MediaItem.id
    (App.media
       (fst (callbacks [(1%nat, noon); (0%nat, later)]
               (processFiles [jpeg "a"; jpeg "b"]
                  (App.init somePack someArc)))))
  = ["media-1714557600000-1"; "media-1714557600007-0"].
Proof.
  destruct (upload_completes [jpeg "a"; jpeg "b"] (App.init somePack someArc)
              [(1%nat, noon); (0%nat, later)]) as (_ & H & _).
  - discriminate.
  - destruct H as (_ & _ & _ & _ & Hm & _); [reflexivity|].
    rewrite Hm. reflexivity.
Defined.

(** ** The inline list handlers *)

Lemma filter_all {A} (f : A -> bool) (l : list A) :
  (forall x, In x l -> f x = true) -> filter f l = l.
Proof.
  induction l as [|a l IH]; intros H; cbn; [reflexivity|].
  rewrite (H a) by now left. f_equal. apply IH. intros x Hx. apply H. now right.
Qed.

Lemma removeMedia_In id prev x :
  In x (removeMedia id prev) <-> In x prev /\ MediaItem.id x <> id.
Proof.
  unfold removeMedia. rewrite filter_In, negb_true_iff, String.eqb_neq.
  reflexivity.
Qed.

(** X5.  Removing a media item by its id.  Afterwards no item has that id and
    every other item is still there; a second removal changes nothing;
    removing an id that no item has changes nothing; and when the ids are
    distinct, exactly the item clicked is taken out and the order of the
    others is kept.  (Items that share the id all go.) *)
Theorem removeMedia_spec (id : string) (prev : list MediaItem.t) :
  (forall x, In x (removeMedia id prev) <-> In x prev /\ MediaItem.id x <> id) /\
  removeMedia id (removeMedia id prev) = removeMedia id prev /\
  ((forall x, In x prev -> MediaItem.id x <> id) -> removeMedia id prev = prev) /\
  (forall pre m post,
      NoDup (map MediaItem.id prev) ->
      prev = (pre ++ m :: post)%list -> MediaItem.id m = id ->
      removeMedia id prev = (pre ++ post)%list).
Proof.
  split; [apply removeMedia_In|]. split; [|split].
  - apply filter_all. intros x Hx. apply removeMedia_In in Hx as [_ Hx].
    now rewrite negb_true_iff, String.eqb_neq.
  - intros H. apply filter_all. intros x Hx.
    rewrite negb_true_iff, String.eqb_neq. now apply H.
  - intros pre m post Hnd -> <-.
    rewrite map_app in Hnd. cbn [map] in Hnd.
    apply NoDup_remove_2 in Hnd. rewrite in_app_iff in Hnd.
    unfold removeMedia. rewrite filter_app. cbn [filter].
    rewrite String.eqb_refl. cbn [negb]. f_equal; apply filter_all;
      intros x Hx; rewrite negb_true_iff, String.eqb_neq; intros E;
      apply Hnd; [left | right]; rewrite <- E; now apply in_map.
Qed.

Lemma removeMedia_spec_witness :
  removeMedia "b" [photo "a"; photo "b"; photo "c"] = [photo "a"; photo "c"].
Proof.
  apply (proj2 (proj2 (proj2 (removeMedia_spec "b"
                                [photo "a"; photo "b"; photo "c"])))
           [photo "a"] (photo "b") [photo "c"]).
  - cbn. repeat constructor; cbn; intuition discriminate.
  - reflexivity.
  - reflexivity.
Defined.

Lemma filterIndex_past {A} (l : list A) :
  forall start t,
    (t < start)%nat ->
    filterIndex (fun idx => negb (Nat.eqb idx t)) start l = l.
Proof.
  induction l as [|y l IH]; intros start t Hs; cbn; [reflexivity|].
  destruct (Nat.eqb_spec start t); [lia|]. cbn. f_equal. apply IH. lia.
Qed.

Lemma filterIndex_skip {A} (l : list A) :
  forall from i,
    filterIndex (fun idx => negb (Nat.eqb idx (from + i))) from l
    = (firstn i l ++ skipn (S i) l)%list.
Proof.
  induction l as [|x l IH]; intros from i; cbn [filterIndex].
  - now destruct i.
  - destruct i as [|i].
    + rewrite Nat.add_0_r, Nat.eqb_refl. cbn [negb firstn skipn app].
      apply filterIndex_past. lia.
    + destruct (Nat.eqb_spec from (from + S i)); [lia|]. cbn [negb firstn app].
      f_equal. replace (from + S i)%nat with (S from + i)%nat by lia.
      apply IH.
Qed.

(** X6.  Removing an itinerary stop by its position.  The list loses exactly
    the stop at position [i]: the stops before it stay where they are and
    the stops after it move up by one; a position past the end removes
    nothing. *)
Theorem removeStop_spec (i : nat) (prev : list LocationPoint.t) :
  removeStop i prev = (firstn i prev ++ skipn (S i) prev)%list /\
  (forall j, nth_error (removeStop i prev) j
             = if Nat.ltb j i then nth_error prev j else nth_error prev (S j)) /\
  ((i < length prev)%nat -> S (length (removeStop i prev)) = length prev) /\
  ((length prev <= i)%nat -> removeStop i prev = prev).
Proof.
  assert (E : removeStop i prev = (firstn i prev ++ skipn (S i) prev)%list)
    by apply (filterIndex_skip prev 0 i).
  split; [exact E|]. rewrite E. split; [|split].
  - intros j. destruct (Nat.ltb_spec j i) as [Hlt|Hge].
    + destruct (Nat.lt_ge_cases j (length prev)) as [Hj|Hj].
      * rewrite nth_error_app1 by (rewrite length_firstn; lia).
        rewrite nth_error_firstn.
        destruct (Nat.ltb_spec j i); [reflexivity | lia].
      * rewrite (proj2 (nth_error_None prev j) Hj).
        apply nth_error_None. rewrite length_app, length_firstn, length_skipn.
        lia.
    + destruct (Nat.lt_ge_cases i (length prev)) as [Hi|Hi].
      * rewrite nth_error_app2 by (rewrite length_firstn; lia).
        rewrite length_firstn, nth_error_skipn.
        f_equal. lia.
      * rewrite (proj2 (nth_error_None prev (S j))) by lia.
        apply nth_error_None. rewrite length_app, length_firstn, length_skipn.
        lia.
  - intros Hi. rewrite length_app, length_firstn, length_skipn. lia.
  - intros Hi. rewrite firstn_all2 by exact Hi.
    rewrite skipn_all2 by lia. apply app_nil_r.
Qed.

Lemma removeStop_spec_witness :
  S (length (removeStop 0 [Rome; Venice])) = length [Rome; Venice].
Proof.
  apply (proj1 (proj2 (proj2 (removeStop_spec 0 [Rome; Venice])))).
  cbn. lia.
Defined.

Lemma FocusTarget_eqb_eq a b : FocusTarget_eqb a b = true <-> a = b.
Proof. destruct a, b; cbn; split; congruence. Qed.

Lemma FocusTarget_eqb_neq a b : FocusTarget_eqb a b = false <-> a <> b.
Proof. destruct a, b; cbn; split; congruence. Qed.

Lemma focus_includes f prev :
  existsb (FocusTarget_eqb f) prev = true <-> In f prev.
Proof.
  rewrite existsb_exists. split.
  - intros (x & Hx & E). apply FocusTarget_eqb_eq in E. now subst.
  - intros H. exists f. split; [exact H | now apply FocusTarget_eqb_eq].
Qed.

(** X7.  Toggling a focus tag.  The tag is in the list afterwards exactly when
    it was not before; every other tag is where it was; a list without
    repetition stays without repetition; toggling a tag that was absent
    twice gives the list back; and toggling the only tag of the list
    leaves an empty focus list. *)
Theorem toggleFocus_spec (f : FocusTarget) (prev : list FocusTarget) :
  (In f (toggleFocus f prev) <-> ~ In f prev) /\
  (forall g, g <> f -> (In g (toggleFocus f prev) <-> In g prev)) /\
  (NoDup prev -> NoDup (toggleFocus f prev)) /\
  (~ In f prev -> toggleFocus f (toggleFocus f prev) = prev) /\
  toggleFocus f [f] = [].
Proof.
  unfold toggleFocus.
  destruct (existsb (FocusTarget_eqb f) prev) eqn:E.
  - apply focus_includes in E. split; [|split; [|split; [|split]]].
    + rewrite filter_In, negb_true_iff, FocusTarget_eqb_neq. tauto.
    + intros g Hg. rewrite filter_In, negb_true_iff, FocusTarget_eqb_neq.
      tauto.
    + intros Hnd. now apply NoDup_filter.
    + tauto.
    + cbn. destruct f; reflexivity.
  - assert (Hn : ~ In f prev).
    { intros H. apply focus_includes in H. congruence. }
    split; [|split; [|split; [|split]]].
    + rewrite in_app_iff. cbn. tauto.
    + intros g Hg. rewrite in_app_iff. cbn. split; [|tauto].
      intros [H | [H | []]]; [exact H | congruence].
    + intros Hnd. apply NoDup_app; [exact Hnd | repeat constructor; tauto |].
      intros x Hx [<- | []]. exact (Hn Hx).
    + intros _.
      assert (Hin : existsb (FocusTarget_eqb f) (prev ++ [f]) = true).
      { apply focus_includes, in_or_app. right. now left. }
      rewrite Hin, filter_app. cbn [filter].
      rewrite (proj2 (FocusTarget_eqb_eq f f) eq_refl). cbn [negb].
      rewrite app_nil_r. apply filter_all. intros x Hx.
      rewrite negb_true_iff, FocusTarget_eqb_neq. congruence.
    + cbn. destruct f; reflexivity.
Qed.

Lemma toggleFocus_spec_witness :
  toggleFocus Food (toggleFocus Food [Vistas; Details]) = [Vistas; Details].
Proof.
  apply (proj1 (proj2 (proj2 (proj2 (toggleFocus_spec Food [Vistas; Details]))))).
  cbn. intuition discriminate.
Defined.

(** ** [handleExtractJourney] and [handleGenerateAsset] *)

Lemma dropPrefix_Some w s r : Str.dropPrefix w s = Some r <-> s = w ++ r.
Proof.
  revert s; induction w as [|a w IH]; intros s; cbn.
  - split; [now intros [= ->] | now intros ->].
  - destruct s as [|b s]; [split; discriminate|].
    destruct (Ascii.eqb_spec a b) as [->|N].
    + rewrite IH. split; [now intros -> | now intros [= ->]].
    + split; [discriminate | intros [= E _]; congruence].
Qed.

Lemma dropFirst_Some ws s r :
  Str.dropFirst ws s = Some r -> exists w, In w ws /\ s = w ++ r.
Proof.
  induction ws as [|w ws IH]; cbn; [discriminate|].
  destruct (Str.dropPrefix w s) as [r'|] eqn:E.
  - intros [= ->]. exists w. split; [now left | now apply dropPrefix_Some].
  - intros H. destruct (IH H) as (w' & Hin & Hs). exists w'. auto.
Qed.

Lemma dropFirst_None ws s :
  Str.dropFirst ws s = None -> forall w r, In w ws -> s <> w ++ r.
Proof.
  induction ws as [|w ws IH]; cbn; [intros _ w r []|].
  destruct (Str.dropPrefix w s) as [r'|] eqn:E; [discriminate|].
  intros H w' r [<- | Hin].
  - intros Hs. apply dropPrefix_Some in Hs. congruence.
  - now apply IH.
Qed.

Lemma dropFirst_nil ws :
  (forall w, In w ws -> w <> "") -> Str.dropFirst ws "" = None.
Proof.
  induction ws as [|w ws IH]; intros H; cbn; [reflexivity|].
  destruct w as [|c w]; [now destruct (H "" (or_introl eq_refl))|].
  cbn. apply IH. intros w' Hin. apply H. now right.
Qed.

Lemma length_append (a b : string) :
  String.length (a ++ b) = (String.length a + String.length b)%nat.
Proof. induction a as [|c a IH]; cbn; [reflexivity | now rewrite IH]. Qed.

Lemma madeOf_app ws a b : madeOf ws a -> madeOf ws b -> madeOf ws (a ++ b).
Proof.
  induction 1 as [|w s Hw _ IH]; intros Hb; [exact Hb|].
  rewrite append_assoc. constructor; [exact Hw | now apply IH].
Qed.

Lemma madeOf_one ws w : In w ws -> madeOf ws w.
Proof.
  intros H. rewrite <- (append_nil_r w). constructor; [exact H | constructor].
Qed.

(** Stripping takes a sequence of the characters off the start, and with
    fuel for every byte it leaves a text that starts with none of them. *)
Lemma strip_split ws n s :
  exists a, s = a ++ Str.strip ws n s /\ madeOf ws a.
Proof.
  revert s; induction n as [|n IH]; intros s; cbn.
  - exists "". split; [reflexivity | constructor].
  - destruct (Str.dropFirst ws s) as [r|] eqn:E.
    + apply dropFirst_Some in E as (w & Hw & ->).
      destruct (IH r) as (a & Hr & Ha). exists (w ++ a). split.
      * rewrite append_assoc. now rewrite <- Hr.
      * now constructor.
    + exists "". split; [reflexivity | constructor].
Qed.

Lemma strip_done ws n s :
  (forall w, In w ws -> w <> "") -> (String.length s <= n)%nat ->
  Str.dropFirst ws (Str.strip ws n s) = None.
Proof.
  intros Hne. revert s; induction n as [|n IH]; intros s Hlen; cbn.
  - destruct s; [now apply dropFirst_nil | cbn in Hlen; lia].
  - destruct (Str.dropFirst ws s) as [r|] eqn:E; [|exact E].
    apply dropFirst_Some in E as (w & Hw & ->). apply IH.
    rewrite length_append in Hlen. specialize (Hne w Hw).
    destruct w; [congruence | cbn in Hlen; lia].
Qed.

Lemma rev_append a b : Str.rev (a ++ b) = Str.rev b ++ Str.rev a.
Proof.
  induction a as [|c a IH]; cbn; [now rewrite append_nil_r|].
  now rewrite IH, append_assoc.
Qed.

Lemma rev_involutive s : Str.rev (Str.rev s) = s.
Proof.
  induction s as [|c s IH]; cbn; [reflexivity|].
  rewrite rev_append, IH. reflexivity.
Qed.

Lemma rev_length s : String.length (Str.rev s) = String.length s.
Proof.
  induction s as [|c s IH]; cbn; [reflexivity|].
  rewrite length_append, IH. cbn. lia.
Qed.

Lemma madeOf_rev ws a : madeOf (map Str.rev ws) a -> madeOf ws (Str.rev a).
Proof.
  induction 1 as [|w s Hw _ IH]; [constructor|].
  rewrite rev_append. apply madeOf_app; [exact IH|].
  apply in_map_iff in Hw as (w0 & <- & Hw0). rewrite rev_involutive.
  now apply madeOf_one.
Qed.

Lemma whiteSpace_nonempty w : In w Str.whiteSpace -> w <> "".
Proof.
  intros H. cbv in H.
  repeat (destruct H as [<- | H]; [discriminate|]). destruct H.
Qed.

Lemma whiteSpace_rev_nonempty w : In w (map Str.rev Str.whiteSpace) -> w <> "".
Proof.
  intros H. cbv in H.
  repeat (destruct H as [<- | H]; [discriminate|]). destruct H.
Qed.

(** No white space character is the start of another one. *)
Lemma dropFirst_whiteSpace w r :
  In w Str.whiteSpace -> Str.dropFirst Str.whiteSpace (w ++ r) = Some r.
Proof.
  intros H. cbv [Str.whiteSpace map Str.ofBytes In] in H.
  repeat (destruct H as [<- | H]; [reflexivity|]). destruct H.
Qed.

Lemma trimStart_split s :
  exists a, s = a ++ Str.trimStart s /\ allSpaces a /\
            forall w r, In w Str.whiteSpace -> Str.trimStart s <> w ++ r.
Proof.
  unfold Str.trimStart.
  destruct (strip_split Str.whiteSpace (String.length s) s) as (a & Hs & Ha).
  exists a. split; [exact Hs|]. split; [exact Ha|].
  apply dropFirst_None, strip_done; [apply whiteSpace_nonempty | lia].
Qed.

Lemma trimEnd_split s :
  exists b, s = Str.trimEnd s ++ b /\ allSpaces b /\
            forall w r, In w Str.whiteSpace -> Str.trimEnd s <> r ++ w.
Proof.
  unfold Str.trimEnd.
  set (u := Str.strip (map Str.rev Str.whiteSpace) (String.length s)
              (Str.rev s)).
  destruct (strip_split (map Str.rev Str.whiteSpace) (String.length s)
              (Str.rev s)) as (a & Hs & Ha).
  fold u in Hs. exists (Str.rev a). split; [|split].
  - rewrite <- rev_append, <- Hs. now rewrite rev_involutive.
  - now apply madeOf_rev.
  - intros w r Hw E.
    assert (Hu : Str.dropFirst (map Str.rev Str.whiteSpace) u = None).
    { apply strip_done; [apply whiteSpace_rev_nonempty|].
      rewrite rev_length. lia. }
    apply (dropFirst_None _ _ Hu (Str.rev w) (Str.rev r)).
    + now apply in_map.
    + rewrite <- rev_append, <- E. now rewrite rev_involutive.
Qed.

Lemma trim_trimmedOf s : trimmedOf s (Str.trim s).
Proof.
  unfold trimmedOf, Str.trim.
  destruct (trimStart_split s) as (a & Hs & Ha & Hfirst).
  destruct (trimEnd_split (Str.trimStart s)) as (b & Ht & Hb & Hlast).
  split; [|split].
  - exists a, b. split; [|auto]. rewrite Hs at 1. now rewrite Ht at 1.
  - intros w r Hw E. apply (Hfirst w (r ++ b) Hw).
    rewrite Ht at 1. rewrite E. apply append_assoc.
  - exact Hlast.
Qed.

Lemma strip_allSpaces s :
  allSpaces s ->
  forall n, (String.length s <= n)%nat -> Str.strip Str.whiteSpace n s = "".
Proof.
  induction 1 as [|w s Hw _ IH]; intros n Hlen.
  - now destruct n.
  - rewrite length_append in Hlen.
    pose proof (whiteSpace_nonempty w Hw) as Hne.
    destruct n as [|n]; [destruct w; [congruence | cbn in Hlen; lia]|].
    cbn [Str.strip]. rewrite (dropFirst_whiteSpace w s Hw).
    apply IH. destruct w; [congruence | cbn in Hlen; lia].
Qed.

Lemma trim_empty s : Str.trim s = "" <-> allSpaces s.
Proof.
  split.
  - intros E. destruct (trim_trimmedOf s) as ((a & b & Hs & Ha & Hb) & _).
    rewrite E in Hs. cbn in Hs. subst s. now apply madeOf_app.
  - intros H. unfold Str.trim, Str.trimStart.
    rewrite (strip_allSpaces s H) by lia. reflexivity.
Qed.

Lemma truthy_trim s : JS.truthy (Str.trim s) = false <-> allSpaces s.
Proof.
  rewrite <- trim_empty. destruct (Str.trim s); cbn; split; congruence.
Qed.

(** X8.  [handleExtractJourney].  With a text that is empty or consists of
    white space and line terminators only (the ASCII ones, the no-break
    and the other Unicode spaces, the line and paragraph separators, the
    byte order mark) nothing happens at all.  Otherwise the handler always ends with the loading
    flag down and the text box emptied, whether the extraction worked or
    not; the itinerary is extended at its end by the extracted points, and
    is left as it was when the call fails; a failure shows the alert, and
    a reply without text is taken for an empty list of points without any
    notice.  The media, the story and the screen are not touched. *)
Theorem extract_journey (geo : string -> ItineraryReply) (s : Studio.t) :
  let text := Desk.naturalItinerary (Studio.desk s) in
  let prev := App.itinerary (Studio.app s) in
  (allSpaces text -> handleExtractJourney geo s = (s, [])) /\
  (~ allSpaces text ->
   let out := fst (handleExtractJourney geo s) in
   let notices := snd (handleExtractJourney geo s) in
   App.isProcessing (Studio.app out) = false /\
   Desk.naturalItinerary (Studio.desk out) = "" /\
   App.media (Studio.app out) = App.media (Studio.app s) /\
   App.story (Studio.app out) = App.story (Studio.app s) /\
   App.appState (Studio.app out) = App.appState (Studio.app s) /\
   match geo (itineraryPrompt text) with
   | ItJson points =>
       App.itinerary (Studio.app out) = (prev ++ points)%list /\ notices = []
   | ItNoText => App.itinerary (Studio.app out) = prev /\ notices = []
   | ItRejected | ItMalformed =>
       App.itinerary (Studio.app out) = prev /\
       notices = [Alert "Studio connection failed."]
   end).
Proof.
  cbv zeta. unfold handleExtractJourney.
  pose proof (truthy_trim (Desk.naturalItinerary (Studio.desk s))) as Ht.
  destruct (JS.truthy (Str.trim (Desk.naturalItinerary (Studio.desk s))));
    cbn [negb].
  2:{ split; [reflexivity|]. intros H. destruct H. now apply Ht. }
  split; [intros H; apply Ht in H; discriminate H|]. intros _.
  unfold extractItinerary.
  destruct (geo (itineraryPrompt (Desk.naturalItinerary (Studio.desk s))));
    cbn; repeat split; try reflexivity; now rewrite app_nil_r.
Qed.

Lemma extract_journey_witness :
  handleExtractJourney (fun _ => ItJson [Rome; Venice])
    (routing (nbsp ++ " " ++ JS.nl)) = (routing (nbsp ++ " " ++ JS.nl), []) /\
  App.itinerary
    (Studio.app (fst (handleExtractJourney (fun _ => ItJson [Rome; Venice])
                        (routing "Rome then Venice")))) = [Rome; Venice].
Proof.
  split.
  - apply (proj1 (extract_journey (fun _ => ItJson [Rome; Venice])
                    (routing (nbsp ++ " " ++ JS.nl)))).
    apply trim_empty. reflexivity.
  - apply (proj2 (extract_journey (fun _ => ItJson [Rome; Venice])
                    (routing "Rome then Venice"))).
    intros H. apply trim_empty in H. discriminate H.
Defined.

(** X9.  [generateImage].  The call yields a URL exactly when the first
    candidate has a part with inline data whose first such part carries a
    payload that is not empty; the URL is then the PNG data-URL header
    followed by that payload, whatever the later parts hold. *)
Theorem generateImage_spec
  (imagen : string -> ImageAspectRatio -> ImageSize -> ImageReply)
  (prompt : string) (ar : ImageAspectRatio) (size : ImageSize) (url : string) :
  generateImage imagen prompt ar size = inr url <->
  exists before data after,
    imagen prompt ar size
      = ImgParts (before ++ ImgInline (Some data) :: after)%list /\
    (forall p, In p before -> exists t, p = ImgText t) /\
    data <> "" /\
    url = "data:image/png;base64," ++ data.
Proof.
  unfold generateImage. split.
  - destruct (imagen prompt ar size) as [| | |parts]; try discriminate.
    destruct (find hasInlineData parts) as [[t|[data|]]|] eqn:F;
      try discriminate.
    destruct (JS.truthy data) eqn:T; [|discriminate].
    intros [= <-]. apply find_first in F as (pre & post & -> & _ & Hpre).
    exists pre, data, post. split; [reflexivity|]. split; [|split].
    + intros p Hp. specialize (Hpre p Hp). destruct p; [eauto | discriminate].
    + intros ->. discriminate.
    + reflexivity.
  - intros (before & data & after & -> & Hb & Hd & ->).
    assert (F : find hasInlineData (before ++ ImgInline (Some data) :: after)
                = Some (ImgInline (Some data))).
    { apply find_first. exists before, after. split; [reflexivity|].
      split; [reflexivity|]. intros y Hy. destruct (Hb y Hy) as [t ->].
      reflexivity. }
    rewrite F. destruct data; [congruence | reflexivity].
Qed.

Lemma generateImage_spec_witness :
  generateImage (fun _ _ _ => ImgParts [ImgText "Here it is"; ImgInline (Some "iVBOR")])
    "A gondola at dawn" I16x9 Size1K
  = inr "data:image/png;base64,iVBOR".
Proof.
  apply (proj2 (generateImage_spec
                  (fun _ _ _ => ImgParts [ImgText "Here it is";
                                          ImgInline (Some "iVBOR")])
                  "A gondola at dawn" I16x9 Size1K
                  "data:image/png;base64,iVBOR")).
  exists [ImgText "Here it is"], "iVBOR", [].
  split; [reflexivity|]. split; [|split].
  - intros p [<- | []]. eauto.
  - discriminate.
  - reflexivity.
Defined.

(** X10.  [handleGenerateAsset].  With an empty prompt nothing happens.  When
    the service yields a URL the media grow by exactly one item at the
    end, tagged ai (an image item carries the URL as its payload too, a
    video item carries none), the host goes to the importing screen, the
    prompt is emptied and the loading flag is down.  When the service
    fails the media, the screen and the prompt stay as they were, the
    flag is down and the alert is shown.  While the video promise is
    pending the flag stays up. *)
Theorem asset_generation
  (genImage : string -> ImageAspectRatio -> ImageSize -> ServiceError + string)
  (genVideo : string -> VideoAspectRatio -> option (ServiceError + string))
  (env : Tick.t) (s : Studio.t) :
  let d := Studio.desk s in
  let a := Studio.app s in
  let out := fst (handleGenerateAsset genImage genVideo env s) in
  let notices := snd (handleGenerateAsset genImage genVideo env s) in
  let outcome :=
    match Desk.genType d with
    | image =>
        Some (genImage (Desk.genPrompt d) (Desk.imageAspectRatio d)
                (Desk.imageSize d))
    | video => genVideo (Desk.genPrompt d) (Desk.videoAspectRatio d)
    end in
  (Desk.genPrompt d = "" -> out = s /\ notices = []) /\
  (Desk.genPrompt d <> "" ->
   App.itinerary (Studio.app out) = App.itinerary a /\
   App.story (Studio.app out) = App.story a /\
   match outcome with
   | Some (inr url) =>
       App.media (Studio.app out)
         = (App.media a
              ++ [match Desk.genType d with
                  | image => generatedImageItem env url
                  | video => generatedVideoItem env url
                  end])%list /\
       App.appState (Studio.app out) = IMPORTING /\
       Desk.genPrompt (Studio.desk out) = "" /\
       App.isProcessing (Studio.app out) = false /\
       notices = []
   | Some (inl e) =>
       App.media (Studio.app out) = App.media a /\
       App.appState (Studio.app out) = App.appState a /\
       Studio.desk out = d /\
       App.isProcessing (Studio.app out) = false /\
       notices = [ConsoleLog e; Alert "Generation failed. Check console."]
   | None =>
       App.media (Studio.app out) = App.media a /\
       App.appState (Studio.app out) = App.appState a /\
       Studio.desk out = d /\
       App.isProcessing (Studio.app out) = true /\
       notices = []
   end).
Proof.
  cbv zeta. unfold handleGenerateAsset.
  destruct s as [a d]. cbn [Studio.desk Studio.app].
  destruct (Desk.genPrompt d) as [|c prompt] eqn:P; cbn [JS.truthy negb].
  - split; [intros _; split; reflexivity | congruence].
  - split; [discriminate|]. intros _.
    destruct (Desk.genType d).
    + destruct (genImage _ _ _) as [e|url]; cbn; repeat split; reflexivity.
    + destruct (genVideo _ _) as [[e|url]|]; cbn; repeat split; reflexivity.
Qed.

Lemma asset_generation_witness :
  App.media
    (Studio.app
       (fst (handleGenerateAsset
               (fun _ _ _ => inr "data:image/png;base64,iVBOR")
               (fun _ _ => None) noon (prompting image))))
  = [generatedImageItem noon "data:image/png;base64,iVBOR"].
Proof.
  destruct (asset_generation (fun _ _ _ => inr "data:image/png;base64,iVBOR")
              (fun _ _ => None) noon (prompting image)) as [_ H].
  destruct H as (_ & _ & Hm & _); [discriminate | exact Hm].
Defined.

(** ** [generateVideo] *)

Lemma pollUntilDone_done veo u :
  forall k fuel polls u0,
    (forall j, (j < k)%nat ->
               exists uj, Veo.getVideosOperation veo (polls + j) = Op false uj) ->
    Veo.getVideosOperation veo (polls + k) = Op true u ->
    (k < fuel)%nat ->
    pollUntilDone veo fuel polls false u0 = Some (S (polls + k), inr u).
Proof.
  induction k as [|k IH]; intros fuel polls u0 Hnot Hdone Hfuel;
    destruct fuel as [|fuel]; try lia; cbn [pollUntilDone].
  - rewrite Nat.add_0_r in *. rewrite Hdone. now destruct fuel.
  - destruct (Hnot 0%nat ltac:(lia)) as [u1 H1].
    rewrite Nat.add_0_r in H1. rewrite H1.
    replace (S (polls + S k)) with (S (S polls + k)) by lia.
    apply IH; [|now replace (S polls + k)%nat with (polls + S k)%nat by lia|lia].
    intros j Hj. replace (S polls + j)%nat with (polls + S j)%nat by lia.
    apply Hnot. lia.
Qed.

Lemma pollUntilDone_rejected veo :
  forall k fuel polls u0,
    (forall j, (j < k)%nat ->
               exists uj, Veo.getVideosOperation veo (polls + j) = Op false uj) ->
    Veo.getVideosOperation veo (polls + k) = OpRejected ->
    (k < fuel)%nat ->
    pollUntilDone veo fuel polls false u0
      = Some (S (polls + k), inl PollRejected).
Proof.
  induction k as [|k IH]; intros fuel polls u0 Hnot Hrej Hfuel;
    destruct fuel as [|fuel]; try lia; cbn [pollUntilDone].
  - rewrite Nat.add_0_r in *. now rewrite Hrej.
  - destruct (Hnot 0%nat ltac:(lia)) as [u1 H1].
    rewrite Nat.add_0_r in H1. rewrite H1.
    replace (S (polls + S k)) with (S (S polls + k)) by lia.
    apply IH; [|now replace (S polls + k)%nat with (polls + S k)%nat by lia|lia].
    intros j Hj. replace (S polls + j)%nat with (polls + S j)%nat by lia.
    apply Hnot. lia.
Qed.

Lemma pollUntilDone_never veo :
  forall fuel polls u0,
    (forall j, exists uj, Veo.getVideosOperation veo (polls + j) = Op false uj) ->
    pollUntilDone veo fuel polls false u0 = None.
Proof.
  induction fuel as [|fuel IH]; intros polls u0 Hnot; cbn [pollUntilDone];
    [reflexivity|].
  destruct (Hnot 0%nat) as [u1 H1]. rewrite Nat.add_0_r in H1. rewrite H1.
  apply IH. intros j. replace (S polls + j)%nat with (polls + S j)%nat by lia.
  apply Hnot.
Qed.

(** X11.  [generateVideo].  A job that is done at once is downloaded without
    any sleep.  A job whose status requests 0..k-1 say not done and whose
    request k says done is downloaded after exactly k+1 sleeps of 5000 ms,
    however many more turns the loop is allowed; the address downloaded is
    the job's URI followed by the key, the text undefined standing for a
    missing one.  A status request that rejects ends the call with that
    failure.  A job that never says done keeps the loop turning: the call
    has returned nothing after any number of turns. *)
Theorem video_polling (veo : Veo.t) (prompt : string) (ar : VideoAspectRatio)
  (u0 : option string) :
  (Veo.generateVideos veo prompt ar = Op true u0 ->
   forall fuel, generateVideo veo fuel prompt ar = Some (0%nat, downloaded veo u0)) /\
  (Veo.generateVideos veo prompt ar = Op false u0 ->
   (forall k u fuel,
       (forall j, (j < k)%nat ->
                  exists uj, Veo.getVideosOperation veo j = Op false uj) ->
       Veo.getVideosOperation veo k = Op true u ->
       (k < fuel)%nat ->
       generateVideo veo fuel prompt ar = Some (S k, downloaded veo u)) /\
   (forall k fuel,
       (forall j, (j < k)%nat ->
                  exists uj, Veo.getVideosOperation veo j = Op false uj) ->
       Veo.getVideosOperation veo k = OpRejected ->
       (k < fuel)%nat ->
       generateVideo veo fuel prompt ar = Some (S k, inl PollRejected)) /\
   ((forall j, exists uj, Veo.getVideosOperation veo j = Op false uj) ->
    forall fuel, generateVideo veo fuel prompt ar = None)).
Proof.
  unfold generateVideo, downloaded, Str.shown. split.
  - intros -> fuel. destruct fuel; cbn [pollUntilDone];
      destruct (Veo.fetch veo _); reflexivity.
  - intros ->. split; [|split].
    + intros k u fuel Hnot Hdone Hfuel.
      rewrite (pollUntilDone_done veo u k fuel 0 u0);
        [destruct (Veo.fetch veo _); reflexivity| | |exact Hfuel].
      * intros j Hj. now apply Hnot.
      * exact Hdone.
    + intros k fuel Hnot Hrej Hfuel.
      rewrite (pollUntilDone_rejected veo k fuel 0 u0); [reflexivity| | |exact Hfuel].
      * intros j Hj. now apply Hnot.
      * exact Hrej.
    + intros Hnot fuel.
      rewrite (pollUntilDone_never veo fuel 0 u0); [reflexivity|].
      intros j. apply Hnot.
Qed.

Lemma video_polling_witness :
  generateVideo slowJob 10 "A gondola at dawn" V16x9
  = Some (3%nat, inr "blob:https://video/1?alt=media&key=KEY").
Proof.
  apply (proj1 (proj2 (video_polling slowJob "A gondola at dawn" V16x9 None)
                  eq_refl) 2%nat (Some "https://video/1?alt=media") 10%nat).
  - intros [|[|j]] Hj; [eexists; reflexivity | eexists; reflexivity | lia].
  - reflexivity.
  - lia.
Defined.

(** ** What the media parts carry *)

Lemma commaFree_cons c s :
  commaFree (String c s) -> c <> ","%char /\ commaFree s.
Proof.
  unfold commaFree. intros H. split.
  - intros ->. apply H. exists "", s. reflexivity.
  - intros (a & b & ->). apply H. exists (String c a), b. reflexivity.
Qed.

Lemma cut_comma_free s : commaFree s -> JS.cut_comma s = (s, None).
Proof.
  induction s as [|c s IH]; intros H; cbn; [reflexivity|].
  apply commaFree_cons in H as [Hc Hs].
  destruct (Ascii.eqb_spec c ","%char); [contradiction|].
  now rewrite (IH Hs).
Qed.

Lemma cut_comma_head h r :
  commaFree h -> JS.cut_comma (h ++ "," ++ r) = (h, Some r).
Proof.
  induction h as [|c h IH]; intros H; cbn; [reflexivity|].
  apply commaFree_cons in H as [Hc Hs].
  destruct (Ascii.eqb_spec c ","%char); [contradiction|].
  cbn in IH. now rewrite (IH Hs).
Qed.

Lemma commaFree_iff s : commaFree s <-> snd (JS.cut_comma s) = None.
Proof.
  split; [intros H; now rewrite cut_comma_free|].
  induction s as [|c s IH]; cbn.
  - intros _ (a & b & H). destruct a; discriminate H.
  - destruct (Ascii.eqb_spec c ","%char) as [->|Hc]; [discriminate|].
    destruct (JS.cut_comma s) as [h r] eqn:E. cbn. intros ->.
    intros (a & b & H). destruct a as [|c' a]; cbn in H.
    + injection H as -> _. congruence.
    + injection H as _ ->. apply (IH eq_refl). exists a, b. reflexivity.
Qed.

Lemma payload_whole b :
  commaFree b -> JS.or_else (JS.split_comma_1 b) b = b.
Proof.
  intros H. unfold JS.split_comma_1. now rewrite cut_comma_free.
Qed.

Lemma payload_after_header h d :
  commaFree h -> commaFree d -> d <> "" ->
  JS.or_else (JS.split_comma_1 (h ++ "," ++ d)) (h ++ "," ++ d) = d.
Proof.
  intros Hh Hd Hne. unfold JS.split_comma_1.
  rewrite cut_comma_head by exact Hh. cbn [snd].
  rewrite cut_comma_free by exact Hd. cbn [fst JS.or_else].
  destruct d; [congruence | reflexivity].
Qed.

Lemma payload_empty h :
  commaFree h ->
  JS.or_else (JS.split_comma_1 (h ++ ",")) (h ++ ",") = h ++ ",".
Proof.
  intros Hh. unfold JS.split_comma_1.
  change (h ++ ",") with (h ++ "," ++ "").
  rewrite cut_comma_head by exact Hh. reflexivity.
Qed.

(** X12.  The payload of a media part.  For an item whose payload is a data
    URL - a header without comma, a comma, base64 text - the second
    definition sends the base64 text alone, under the item's MIME type; a
    payload without any comma is sent whole, and so is a data URL whose
    text after the comma is empty.  The first definition sends the same
    part when the MIME type starts with image, and otherwise only the
    text reference with the item's URL and provenance. *)
Theorem payload_sent (m : MediaItem.t) (b : string) :
  MediaItem.base64 m = Some b -> b <> "" ->
  (forall h d, b = h ++ "," ++ d -> commaFree h -> commaFree d -> d <> "" ->
               V2.mediaPart m = InlineData d (MediaItem.mimeType m)) /\
  (commaFree b -> V2.mediaPart m = InlineData b (MediaItem.mimeType m)) /\
  (forall h, b = h ++ "," -> commaFree h ->
             V2.mediaPart m = InlineData b (MediaItem.mimeType m)) /\
  V1.mediaPart m = if JS.startsWith (MediaItem.mimeType m) "image"
                   then V2.mediaPart m else fragmentRef m.
Proof.
  intros Hb Hne. unfold V1.mediaPart, V2.mediaPart, fragmentRef. rewrite Hb.
  assert (T : JS.truthy b = true) by (destruct b; [congruence | reflexivity]).
  rewrite T. cbn [andb]. split; [|split; [|split]].
  - intros h d -> Hh Hd Hd'. now rewrite payload_after_header.
  - intros Hf. now rewrite payload_whole.
  - intros h -> Hh. now rewrite payload_empty.
  - reflexivity.
Qed.

Lemma payload_sent_witness :
  V2.mediaPart (photo "a") = InlineData "AAAA" "image/jpeg".
Proof.
  apply (proj1 (payload_sent (photo "a") "data:image/jpeg;base64,AAAA"
                  eq_refl ltac:(discriminate))
           "data:image/jpeg;base64" "AAAA" eq_refl).
  - apply commaFree_iff. reflexivity.
  - apply commaFree_iff. reflexivity.
  - discriminate.
Defined.

Lemma generateImage_url imagen prompt ar size url :
  generateImage imagen prompt ar size = inr url ->
  exists data, url = "data:image/png;base64," ++ data /\ data <> "".
Proof.
  unfold generateImage.
  destruct (imagen prompt ar size) as [| | |parts]; try discriminate.
  destruct (find hasInlineData parts) as [[t|[data|]]|]; try discriminate.
  destruct data as [|c data]; [discriminate|]. intros [= <-].
  eexists. split; [reflexivity | discriminate].
Qed.

(** X13.  Generated assets in the story request.  The item that
    [handleGenerateAsset] stores for a generated image is sent by both
    definitions as the provider's image payload (when that has no comma,
    as base64 text has none) under the type image/png.  The item stored
    for a generated video has no payload, so neither definition inlines
    it: both send a text reference with its URL. *)
Theorem generated_asset_sent (env : Tick.t) (url : string) :
  (forall imagen prompt ar size,
      generateImage imagen prompt ar size = inr url ->
      exists data,
        url = "data:image/png;base64," ++ data /\ data <> "" /\
        (commaFree data ->
         V1.mediaPart (generatedImageItem env url) = InlineData data "image/png" /\
         V2.mediaPart (generatedImageItem env url) = InlineData data "image/png")) /\
  V1.mediaPart (generatedVideoItem env url)
    = TextPart ("[Fragment: " ++ url ++ " - ai source]") /\
  V2.mediaPart (generatedVideoItem env url)
    = TextPart ("[Fragment: " ++ url ++ "]").
Proof.
  split; [|split; reflexivity].
  intros imagen prompt ar size H.
  destruct (generateImage_url _ _ _ _ _ H) as (data & -> & Hne).
  exists data. split; [reflexivity|]. split; [exact Hne|]. intros Hf.
  assert (E : JS.or_else
                (JS.split_comma_1 ("data:image/png;base64," ++ data))
                ("data:image/png;base64," ++ data) = data).
  { apply (payload_after_header "data:image/png;base64" data);
      [apply commaFree_iff; reflexivity | exact Hf | exact Hne]. }
  unfold V1.mediaPart, V2.mediaPart, generatedImageItem.
  cbn [MediaItem.base64 MediaItem.mimeType].
  change (JS.truthy ("data:image/png;base64," ++ data)) with true.
  change (JS.startsWith "image/png" "image") with true. cbn [andb].
  rewrite E. split; reflexivity.
Qed.

Lemma generated_asset_sent_witness :
  V2.mediaPart (generatedImageItem noon "data:image/png;base64,iVBOR")
  = InlineData "iVBOR" "image/png".
Proof.
  destruct (proj1 (generated_asset_sent noon "data:image/png;base64,iVBOR")
              (fun _ _ _ => ImgParts [ImgInline (Some "iVBOR")])
              "A gondola at dawn" I16x9 Size1K eq_refl)
    as (data & Hd & _ & H).
  injection Hd as <-. apply H. apply commaFree_iff. reflexivity.
Defined.

(** ** The request and the resolved location *)

Lemma firstn_app_long {A} (n : nat) (l extra : list A) :
  (n <= length l)%nat -> firstn n (l ++ extra) = firstn n l.
Proof.
  intros H. rewrite firstn_app.
  replace (n - length l)%nat with 0%nat by lia. cbn. apply app_nil_r.
Qed.

Lemma parts_layout {A B} (f : A -> B) (l : list A) (last : B) (n : nat) :
  let parts := (map f (firstn n l) ++ [last])%list in
  length parts = S (Nat.min n (length l)) /\
  (forall i x, (i < n)%nat -> nth_error l i = Some x ->
               nth_error parts i = Some (f x)) /\
  nth_error parts (Nat.min n (length l)) = Some last.
Proof.
  cbv zeta.
  assert (Hlen : length (map f (firstn n l)) = Nat.min n (length l))
    by now rewrite length_map, length_firstn.
  split; [|split].
  - rewrite length_app, Hlen. cbn. lia.
  - intros i x Hi Hx.
    assert (i < length l)%nat by (apply nth_error_Some; congruence).
    rewrite nth_error_app1 by lia.
    rewrite nth_error_map, nth_error_firstn.
    destruct (Nat.ltb_spec i n); [|lia]. now rewrite Hx.
  - rewrite nth_error_app2 by lia. rewrite Hlen, Nat.sub_diag. reflexivity.
Qed.

(** X14.  The cap on the request.  In either definition's request the part
    at position [i], for the first fifteen media items, is the part made
    from the media item at position [i]; the prompt is the part after
    them, and the last one: there are min(15, n) + 1 parts.  With fifteen
    or more items, whatever comes after the fifteenth changes neither
    definition's request. *)
Theorem request_cap (p : Params.t) (media extra : list MediaItem.t) :
  let parts1 := Request.parts (V1.request (withMedia p media)) in
  let parts2 := Request.parts (V2.request (withMedia p media)) in
  let n := Nat.min 15 (length media) in
  (forall i m, (i < 15)%nat -> nth_error media i = Some m ->
               nth_error parts1 i = Some (V1.mediaPart m) /\
               nth_error parts2 i = Some (V2.mediaPart m)) /\
  nth_error parts1 n = Some (TextPart (V1.promptText (withMedia p media))) /\
  nth_error parts2 n = Some (TextPart (V2.promptText (withMedia p media))) /\
  length parts1 = S n /\
  length parts2 = S n /\
  ((15 <= length media)%nat ->
   V1.request (withMedia p (media ++ extra)) = V1.request (withMedia p media) /\
   V2.request (withMedia p (media ++ extra)) = V2.request (withMedia p media)).
Proof.
  cbv zeta.
  destruct (parts_layout V1.mediaPart media
              (TextPart (V1.promptText (withMedia p media))) 15)
    as (L1 & N1 & P1).
  destruct (parts_layout V2.mediaPart media
              (TextPart (V2.promptText (withMedia p media))) 15)
    as (L2 & N2 & P2).
  split; [|split; [|split; [|split; [|split]]]].
  - intros i m Hi Hm. split; [exact (N1 i m Hi Hm) | exact (N2 i m Hi Hm)].
  - exact P1.
  - exact P2.
  - exact L1.
  - exact L2.
  - intros H. unfold V1.request, V2.request, V1.mediaParts, V2.mediaParts,
      V1.promptText, V2.promptText, V1.beatCountAsked.
    cbn [withMedia Params.media Params.title Params.itinerary Params.cutPack
         Params.arc Params.pace Params.focus Params.ending].
    rewrite (firstn_app_long 15 media extra H), length_app.
    replace (Z.min (Z.of_nat (length media + length extra)) 10) with 10 by lia.
    replace (Z.min (Z.of_nat (length media)) 10) with 10 by lia.
    split; reflexivity.
Qed.

Lemma request_cap_witness :
  V1.request (withMedia italy (repeat (photo "a") 15 ++ [photo "z"]))
  = V1.request (withMedia italy (repeat (photo "a") 15)) /\
  nth_error (Request.parts (V2.request (withMedia italy [photo "a"; photo "z"]))) 1
  = Some (V2.mediaPart (photo "z")).
Proof.
  split.
  - apply (proj2 (proj2 (proj2 (proj2 (proj2
             (request_cap italy (repeat (photo "a") 15) [photo "z"])))))).
    cbn. lia.
  - apply (proj1 (request_cap italy [photo "a"; photo "z"] []) 1%nat
             (photo "z")); [lia | reflexivity].
Defined.

Lemma includes_empty s : JS.includes s "" = true.
Proof. destruct s; reflexivity. Qed.

(** X15.  The resolved location.  A location that assembly attaches to a beat
    is always one of the itinerary's points; and a raw beat with an empty
    location name gets the first point of the itinerary whatever its
    index is, because every name contains the empty text. *)
Theorem location_member {C : Casing} (it : list LocationPoint.t)
  (b : RawBeat.t) :
  (forall l, StoryBeat.location (V2.resolveBeat it b) = Some l -> In l it) /\
  (RawBeat.locationName b = "" ->
   StoryBeat.location (V2.resolveBeat it b) = hd_error it) /\
  StoryBeat.location (V1.resolveBeat it b)
    = StoryBeat.location (V2.resolveBeat it b).
Proof.
  rewrite resolveBeat_location. split; [|split; [|reflexivity]].
  - intros l. destruct (find (matches b) it) as [q|] eqn:F.
    + intros [= <-]. apply find_some in F. apply F.
    + unfold JS.array_get. destruct (_ <? 0)%Z; [discriminate|].
      apply nth_error_In.
  - intros E. destruct it as [|x it].
    { cbn [find]. unfold JS.array_get. destruct (_ <? 0)%Z; [reflexivity|].
      now destruct (Z.to_nat _). }
    cbn [find hd_error]. unfold matches.
    rewrite E, (toLowerCase_ascii "" eq_refl). cbn [JS.asciiLowerCase].
    now rewrite includes_empty.
Qed.

Lemma location_member_witness :
  StoryBeat.location (V2.resolveBeat [Rome; Venice] (RawBeat.mk 1 "Dusk" "" None))
  = Some Rome.
Proof.
  apply (proj1 (proj2 (location_member [Rome; Venice]
                         (RawBeat.mk 1 "Dusk" "" None)))).
  reflexivity.
Defined.

(** ** The assembled story on its way to the premiere *)

(** X16.  The fields of an assembled story.  Whichever definition assembles it,
    the title is the reply's title unless that is missing or empty, in
    which case it is the input title, so that it is empty only when the
    input title is; every beat has an empty audio slot; and each beat
    carries the text and the media id of the raw beat at its position,
    whether or not any media item has that id. *)
Theorem assembled_story {C : Casing} (p : Params.t) (r : StoryResponse)
  (story : RecallStory.t) :
  V1.assemble p r = Ok story \/ V2.assemble p r = Ok story ->
  exists j,
    parseResponse r = Ok j /\
    RecallStory.title story
      = match RawJson.title j with
        | Some (String c t) => String c t
        | _ => Params.title p
        end /\
    (Params.title p <> "" -> RecallStory.title story <> "") /\
    Forall (fun b => StoryBeat.audioBuffer b = None) (RecallStory.beats story) /\
    Forall2 (fun rb sb => StoryBeat.text sb = RawBeat.text rb /\
                          StoryBeat.associatedMediaId sb = RawBeat.mediaId rb)
            (repliedBeats j) (RecallStory.beats story).
Proof.
  intros H.
  assert (Hj : exists j, parseResponse r = Ok j /\
                 story = RecallStory.mk
                           (JS.or_else (RawJson.title j) (Params.title p))
                           (map (V2.resolveBeat (Params.itinerary p))
                                (repliedBeats j))).
  { destruct H as [H | H].
    - apply V1_assemble_ok in H as (j & Hj & ->). eauto.
    - apply V2_assemble_ok in H as (j & bs & Hj & Hb & ->).
      exists j. unfold repliedBeats. rewrite Hb. auto. }
  destruct Hj as (j & Hj & ->). exists j. split; [exact Hj|].
  cbn [RecallStory.title RecallStory.beats].
  split; [|split; [|split]].
  - destruct (RawJson.title j) as [[|c t]|]; reflexivity.
  - intros Hp. destruct (RawJson.title j) as [[|c t]|]; cbn;
      [exact Hp | discriminate | exact Hp].
  - apply Forall_forall. intros b Hb. apply in_map_iff in Hb as (rb & <- & _).
    reflexivity.
  - clear H. induction (repliedBeats j) as [|rb l IH]; cbn;
      [constructor | constructor; [split; reflexivity | exact IH]].
Qed.

Lemma assembled_story_witness :
  exists j,
    parseResponse (Json (RawJson.mk (Some "") (Some [RawBeat.mk 0 "One" "venice" (Some "zz")])))
      = Ok j /\
    RawJson.title j = Some "".
Proof.
  destruct (assembled_story italy
              (Json (RawJson.mk (Some "")
                       (Some [RawBeat.mk 0 "One" "venice" (Some "zz")])))
              _ (or_intror eq_refl)) as (j & Hj & _).
  exists j. split; [exact Hj|]. now injection Hj as <-.
Defined.

(** X17.  A reply without beats, through [handleGenerate].  With the first
    definition the host reaches the premiere screen with a stored story
    that has no beat at all, without one speech request; with the second
    definition the same reply sends the host back to the importing screen
    with nothing stored. *)
Theorem reply_without_beats {C : Casing} (ai : Request.t -> StoryResponse)
  (tts : SpeechProvider) (dec : AudioDecoder) (a0 : App.t) :
  (forall j,
      parseResponse (ai (V1.request (paramsOf a0))) = Ok j ->
      RawJson.beats j = None ->
      let run := runGenerate (V1.analyzeTripAndGenerateStory ai) tts dec a0 in
      App.appState (fst run) = PREMIERE /\
      App.story (fst run)
        = Some (RecallStory.mk
                  (JS.or_else (RawJson.title j) (App.tripTitle a0)) []) /\
      synthesized (snd run) = []) /\
  (forall j,
      parseResponse (ai (V2.request (paramsOf a0))) = Ok j ->
      RawJson.beats j = None ->
      let run := runGenerate (V2.analyzeTripAndGenerateStory ai) tts dec a0 in
      App.appState (fst run) = IMPORTING /\
      App.story (fst run) = App.story a0 /\
      synthesized (snd run) = []).
Proof.
  split; intros j Hj Hb; cbv zeta; unfold runGenerate.
  - assert (Han : V1.analyzeTripAndGenerateStory ai (paramsOf a0)
                  = Ok (RecallStory.mk
                          (JS.or_else (RawJson.title j) (App.tripTitle a0)) [])).
    { unfold V1.analyzeTripAndGenerateStory, V1.assemble. now rewrite Hj, Hb. }
    erewrite (handleGenerate_completed _ tts dec a0 _ _ _ [] Han);
      [|reflexivity].
    repeat split; reflexivity.
  - assert (Han : V2.analyzeTripAndGenerateStory ai (paramsOf a0)
                  = Err TypeError).
    { unfold V2.analyzeTripAndGenerateStory, V2.assemble. now rewrite Hj, Hb. }
    rewrite (handleGenerate_rejected _ tts dec a0 TypeError Han).
    repeat split; reflexivity.
Qed.

Lemma reply_without_beats_witness :
  App.appState
    (fst (runGenerate (V1.analyzeTripAndGenerateStory (always NoText))
            speaksAll decodesAll designing)) = PREMIERE /\
  App.appState
    (fst (runGenerate (V2.analyzeTripAndGenerateStory (always NoText))
            speaksAll decodesAll designing)) = IMPORTING.
Proof.
  split.
  - apply (proj1 (reply_without_beats (always NoText) speaksAll decodesAll
                    designing) (RawJson.mk None None) eq_refl eq_refl).
  - apply (proj2 (reply_without_beats (always NoText) speaksAll decodesAll
                    designing) (RawJson.mk None None) eq_refl eq_refl).
Defined.

(** ** More on the player *)

Lemma strict_neq_self a n : lt_length a n = true -> strict_neq a a = false.
Proof.
  intros H. destruct a as [z| | |]; cbn in *; try discriminate;
    [now rewrite Z.eqb_refl | reflexivity].
Qed.

Lemma playBeatAudio_fields beat p p' :
  playBeatAudio beat p = Ok p' ->
  Player.activeBeatIndex p' = Player.activeBeatIndex p /\
  Player.muted p' = Player.muted p /\
  Player.audioContextRef p' = Player.audioContextRef p.
Proof.
  unfold playBeatAudio.
  destruct (negb (Player.audioContextRef p) || Player.muted p)%bool;
    [now intros [= <-]|].
  destruct beat as [b|]; [|discriminate].
  destruct (StoryBeat.audioBuffer b) as [buf|]; intros [= <-];
    [|repeat split].
  unfold startSource, stopCurrent.
  destruct (Player.currentSourceRef p); repeat split.
Qed.

Lemma setScrollProgress_same p :
  Player.setScrollProgress (Player.scrollProgress p) p = p.
Proof. now destruct p. Qed.

(** X18.  What a scroll event can do to the audio.  Either the audio is left
    exactly as it was, or the remembered source is stopped and one new
    source is started, and then the clip started is the clip of the beat
    at the rounded index, that index differs from the active one, and
    audio is not muted.  In particular a muted player starts nothing, and
    no event starts the clip of a beat other than the one scrolled to. *)
Theorem scroll_audio (story : RecallStory.t) (c : option Metrics.t) (h : float)
  (p : Player.t) :
  let p' := fst (handleScroll story c h p) in
  (Player.audioLog p' = Player.audioLog p /\
   Player.currentSourceRef p' = Player.currentSourceRef p \/
   exists m k beat buf,
     c = Some m /\
     Math_round (js_div (Metrics.scrollTop m) h) = Int k /\
     0 <= k /\
     nth_error (RecallStory.beats story) (Z.to_nat k) = Some beat /\
     StoryBeat.audioBuffer beat = Some buf /\
     Player.activeBeatIndex p <> Int k /\
     Player.muted p = false /\
     Player.audioLog p'
       = (Player.audioLog (stopCurrent p) ++ [Started (Player.nodes p) buf])%list /\
     Player.currentSourceRef p' = Some (Player.nodes p)) /\
  (Player.muted p = true -> Player.audioLog p' = Player.audioLog p).
Proof.
  cbv zeta. unfold handleScroll.
  assert (Hsame : forall q : Player.t,
             Player.audioLog q = Player.audioLog p ->
             Player.currentSourceRef q = Player.currentSourceRef p ->
             (Player.audioLog q = Player.audioLog p /\
              Player.currentSourceRef q = Player.currentSourceRef p \/
              exists m k beat buf,
                c = Some m /\
                Math_round (js_div (Metrics.scrollTop m) h) = Int k /\
                0 <= k /\
                nth_error (RecallStory.beats story) (Z.to_nat k) = Some beat /\
                StoryBeat.audioBuffer beat = Some buf /\
                Player.activeBeatIndex p <> Int k /\
                Player.muted p = false /\
                Player.audioLog q
                  = (Player.audioLog (stopCurrent p)
                       ++ [Started (Player.nodes p) buf])%list /\
                Player.currentSourceRef q = Some (Player.nodes p)) /\
             (Player.muted p = true -> Player.audioLog q = Player.audioLog p))
    by (intros q H1 H2; split; [left; split; assumption | intros _; exact H1]).
  destruct c as [m|]; [|now apply Hsame].
  destruct (strict_neq _ _) eqn:Hneq; cbn [andb]; [|now apply Hsame].
  destruct (lt_length _ _) eqn:Hlt; [|now apply Hsame].
  unfold playBeatAudio.
  cbn [Player.setActiveBeatIndex Player.setScrollProgress
       Player.audioContextRef Player.muted].
  destruct (Player.audioContextRef p) eqn:Hctx; cbn [negb orb fst];
    [|now apply Hsame].
  destruct (Player.muted p) eqn:Hmu; cbn [negb orb fst]; [now apply Hsame|].
  destruct (Math_round (js_div (Metrics.scrollTop m) h)) as [k| | |] eqn:Hk;
    cbn [beat_at fst]; try (now apply Hsame).
  unfold JS.array_get. destruct (Z.ltb_spec k 0) as [Hneg|Hpos];
    [now apply Hsame|].
  destruct (nth_error (RecallStory.beats story) (Z.to_nat k)) as [beat|] eqn:N;
    [|now apply Hsame].
  destruct (StoryBeat.audioBuffer beat) as [buf|] eqn:B; cbn [fst];
    [|now apply Hsame].
  split; [|discriminate]. right. exists m, k, beat, buf.
  repeat (split; [first [reflexivity | assumption]|]).
  split; [now apply strict_neq_Int|].
  split; [reflexivity|].
  unfold startSource, stopCurrent. cbn.
  destruct (Player.currentSourceRef p); split; reflexivity.
Qed.

Lemma scroll_audio_witness :
  Player.audioLog
    (fst (handleScroll demo (scrolledTo 1600) 800
            (Player.setMuted true (mount demo)))) = [Opened].
Proof.
  apply (proj2 (scroll_audio demo (scrolledTo 1600) 800
                  (Player.setMuted true (mount demo)))).
  reflexivity.
Defined.

Lemma handleScrollIn_current story c h q :
  handleScrollIn q story c h q = handleScroll story c h q.
Proof. destruct c as [m|]; reflexivity. Qed.

Lemma log_grows p n buf :
  Player.audioLog p
  <> (Player.audioLog (stopCurrent p) ++ [Started n buf])%list.
Proof.
  intros E. apply (f_equal (@length AudioEvent)) in E. unfold stopCurrent in E.
  destruct (Player.currentSourceRef p); cbn in E; rewrite !length_app in E;
    cbn in E; lia.
Qed.

Lemma scroll_settled story c h p :
  let p' := fst (handleScroll story c h p) in
  handleScroll story c h p' = (p', None).
Proof.
  cbv zeta. destruct c as [m|]; [|reflexivity].
  pose proof (handleScroll_scrollProgress story m h p) as Hprog.
  set (p' := fst (handleScroll story (Some m) h p)) in *.
  assert (Hact :
            (strict_neq (Math_round (js_div (Metrics.scrollTop m) h))
                        (Player.activeBeatIndex p')
             && lt_length (Math_round (js_div (Metrics.scrollTop m) h))
                          (length (RecallStory.beats story)))%bool = false).
  { subst p'. unfold handleScroll.
    destruct (strict_neq _ (Player.activeBeatIndex p)) eqn:Hneq;
      cbn [andb]; [|cbn [fst Player.setScrollProgress Player.activeBeatIndex];
                    now rewrite Hneq].
    destruct (lt_length _ _) eqn:Hlt;
      [|cbn [fst]; now rewrite andb_false_r].
    assert (Hself := strict_neq_self _ _ Hlt).
    destruct (playBeatAudio _ _) as [p3|e] eqn:E; cbn [fst].
    - apply playBeatAudio_fields in E as (-> & _).
      cbn [Player.setActiveBeatIndex Player.activeBeatIndex].
      now rewrite Hself.
    - cbn [Player.setActiveBeatIndex Player.activeBeatIndex].
      now rewrite Hself. }
  unfold handleScroll at 1. rewrite Hact, <- Hprog.
  now rewrite setScrollProgress_same.
Qed.

(** X19.  A scroll event repeated.  The handler of a render reads [muted]
    and [activeBeatIndex] as that render saw them.  Once the component has
    rendered again after a scroll event, handling the same event a second
    time changes nothing and does not throw.  Handled a second time by
    the handler of the same render, before the component has rendered
    again, the event leaves the active index as the first handling set
    it, and does to the audio what the first handling did: if that
    started the beat's clip, the clip is stopped and started once more on
    a new source; if that left the audio alone, so does the second. *)
Theorem scroll_repeat (story : RecallStory.t) (c : option Metrics.t)
  (h : float) (p : Player.t) :
  let p1 := fst (handleScroll story c h p) in
  let p2 := fst (handleScrollIn p story c h p1) in
  handleScroll story c h p = handleScrollIn p story c h p /\
  handleScroll story c h p1 = (p1, None) /\
  Player.activeBeatIndex p2 = Player.activeBeatIndex p1 /\
  Player.scrollProgress p2 = Player.scrollProgress p1 /\
  (forall buf,
      Player.audioLog p1
      = (Player.audioLog (stopCurrent p) ++ [Started (Player.nodes p) buf])%list ->
      Player.audioLog p2
      = (Player.audioLog p1
           ++ [Stopped (Player.nodes p); Started (S (Player.nodes p)) buf])%list) /\
  (Player.audioLog p1 = Player.audioLog p ->
   Player.audioLog p2 = Player.audioLog p1).
Proof.
  cbv zeta. split; [symmetry; apply handleScrollIn_current|].
  split; [apply scroll_settled|].
  destruct c as [m|].
  2:{ cbn [handleScroll handleScrollIn fst]. repeat split.
      intros buf E. now apply log_grows in E. }
  unfold handleScroll, handleScrollIn.
  destruct (strict_neq _ _ && lt_length _ _)%bool.
  2:{ cbn [fst]. repeat split. intros buf E.
      cbn [Player.setScrollProgress Player.audioLog] in E.
      now apply log_grows in E. }
  unfold playBeatAudio, playBeatAudioIn.
  cbn [Player.setActiveBeatIndex Player.setScrollProgress
       Player.audioContextRef Player.muted].
  destruct (negb (Player.audioContextRef p) || Player.muted p)%bool eqn:G.
  { cbn [fst Player.setActiveBeatIndex Player.setScrollProgress
         Player.audioContextRef Player.muted]. rewrite G. cbn [fst].
    repeat split. intros buf E.
    cbn [Player.setScrollProgress Player.setActiveBeatIndex Player.audioLog] in E.
    now apply log_grows in E. }
  destruct (beat_at _ _) as [b|].
  2:{ cbn [fst Player.setActiveBeatIndex Player.setScrollProgress
           Player.audioContextRef Player.muted]. rewrite G. cbn [fst].
      repeat split. intros buf E.
      cbn [Player.setScrollProgress Player.setActiveBeatIndex Player.audioLog] in E.
      now apply log_grows in E. }
  destruct (StoryBeat.audioBuffer b) as [buf0|].
  2:{ cbn [fst Player.setActiveBeatIndex Player.setScrollProgress
           Player.audioContextRef Player.muted]. rewrite G. cbn [fst].
      repeat split. intros buf E.
      cbn [Player.setScrollProgress Player.setActiveBeatIndex Player.audioLog] in E.
      now apply log_grows in E. }
  destruct p as [mu act prog ctx cur created log].
  cbn [Player.audioContextRef Player.muted] in G.
  unfold startSource, stopCurrent.
  cbn [fst Player.setActiveBeatIndex Player.setScrollProgress
       Player.audioContextRef Player.muted Player.currentSourceRef
       Player.activeBeatIndex Player.scrollProgress Player.nodes
       Player.audioLog Player.log].
  destruct cur as [n|];
    cbn [fst Player.setActiveBeatIndex Player.setScrollProgress
         Player.audioContextRef Player.muted Player.currentSourceRef
         Player.activeBeatIndex Player.scrollProgress Player.nodes
         Player.audioLog Player.log];
    rewrite G;
    cbn [fst Player.setActiveBeatIndex Player.setScrollProgress
         Player.audioContextRef Player.muted Player.currentSourceRef
         Player.activeBeatIndex Player.scrollProgress Player.nodes
         Player.audioLog Player.log];
    (split; [reflexivity|]); (split; [reflexivity|]); split.
  - intros buf E. apply app_inv_head in E. injection E as <-.
    rewrite <- !app_assoc. reflexivity.
  - intros E. exfalso.
    apply (f_equal (@length AudioEvent)) in E. rewrite !length_app in E.
    cbn in E. lia.
  - intros buf E. apply app_inv_head in E. injection E as <-.
    rewrite <- !app_assoc. reflexivity.
  - intros E. exfalso.
    apply (f_equal (@length AudioEvent)) in E. rewrite !length_app in E.
    cbn in E. lia.
Qed.

Lemma scroll_repeat_witness :
  Player.audioLog
    (fst (handleScrollIn (mount demo) demo (scrolledTo 1600) 800
            (fst (handleScroll demo (scrolledTo 1600) 800 (mount demo)))))
  = [Opened; Started 0 clipC; Stopped 0; Started 1 clipC].
Proof.
  apply (proj1 (proj2 (proj2 (proj2 (proj2
           (scroll_repeat demo (scrolledTo 1600) 800 (mount demo))))))
           clipC).
  reflexivity.
Defined.

(** X20.  When [handleScroll] throws.  The handler throws, and then a
    TypeError, exactly when the rounded index is negative (or minus
    infinity), differs from the active index, the context is open and
    audio is not muted; the active index has then been set to that
    negative index and the audio is untouched.  An index within the
    beats, at the finale or beyond never makes it throw. *)
Theorem scroll_throws (story : RecallStory.t) (m : Metrics.t) (h : float)
  (p : Player.t) :
  let newIndex := Math_round (js_div (Metrics.scrollTop m) h) in
  let p' := fst (handleScroll story (Some m) h p) in
  (forall e, snd (handleScroll story (Some m) h p) = Some e -> e = TypeError) /\
  (snd (handleScroll story (Some m) h p) = Some TypeError <->
   negative newIndex /\ strict_neq newIndex (Player.activeBeatIndex p) = true /\
   Player.audioContextRef p = true /\ Player.muted p = false) /\
  (snd (handleScroll story (Some m) h p) = Some TypeError ->
   Player.activeBeatIndex p' = newIndex /\
   Player.audioLog p' = Player.audioLog p).
Proof.
  cbv zeta. unfold handleScroll.
  destruct (strict_neq _ _) eqn:Hneq; cbn [andb].
  2:{ cbn [snd]. split; [discriminate|]. split; [|discriminate].
      split; [discriminate | intros (_ & ? & _); discriminate]. }
  destruct (Math_round (js_div (Metrics.scrollTop m) h)) as [k| | |] eqn:Hk;
    cbn [lt_length beat_at negative].
  - destruct (Z.ltb_spec k (Z.of_nat (length (RecallStory.beats story))))
      as [Hlt|Hge].
    2:{ cbn [snd]. split; [discriminate|]. split; [|discriminate].
        split; [discriminate | intros (? & _); lia]. }
    unfold playBeatAudio, JS.array_get.
    cbn [Player.setActiveBeatIndex Player.setScrollProgress
         Player.audioContextRef Player.muted].
    destruct (Player.audioContextRef p), (Player.muted p); cbn [negb orb snd];
      try (split; [discriminate|]; split; [|discriminate];
           split; [discriminate | intros (_ & _ & ? & ?); discriminate]).
    destruct (Z.ltb_spec k 0) as [Hneg|Hpos].
    + cbn [snd fst]. split; [now intros e [= <-]|].
      split; [tauto | intros _; split; reflexivity].
    + destruct (nth_error (RecallStory.beats story) (Z.to_nat k)) as [b|] eqn:N.
      2:{ apply nth_error_None in N. lia. }
      destruct (StoryBeat.audioBuffer b); cbn [snd];
        (split; [discriminate|]); (split; [|discriminate]);
        (split; [discriminate | intros (? & _); lia]).
  - cbn [andb snd]. split; [discriminate|]. split; [|discriminate].
    split; [discriminate | tauto].
  - cbn [andb snd]. split; [discriminate|]. split; [|discriminate].
    split; [discriminate | tauto].
  - unfold playBeatAudio.
    cbn [Player.setActiveBeatIndex Player.setScrollProgress
         Player.audioContextRef Player.muted].
    destruct (Player.audioContextRef p), (Player.muted p); cbn [negb orb snd fst];
      try (split; [discriminate|]; split; [|discriminate];
           split; [discriminate | intros (_ & _ & ? & ?); discriminate]).
    split; [now intros e [= <-]|].
    split; [tauto | intros _; split; reflexivity].
Qed.

Lemma scroll_throws_witness :
  snd (handleScroll demo (scrolledTo (-500)) 800 (mount demo)) = Some TypeError.
Proof.
  apply (proj2 (proj1 (proj2 (scroll_throws demo (Metrics.mk (-500) 3200 800)
                                800 (mount demo))))).
  repeat split; reflexivity.
Defined.

Lemma handleScroll_activeBeatIndex story m h p :
  Player.activeBeatIndex (fst (handleScroll story (Some m) h p))
  = if (strict_neq (Math_round (js_div (Metrics.scrollTop m) h))
                   (Player.activeBeatIndex p)
        && lt_length (Math_round (js_div (Metrics.scrollTop m) h))
                     (length (RecallStory.beats story)))%bool
    then Math_round (js_div (Metrics.scrollTop m) h)
    else Player.activeBeatIndex p.
Proof.
  unfold handleScroll.
  destruct (strict_neq _ _ && lt_length _ _)%bool; [|reflexivity].
  destruct (playBeatAudio _ _) as [p3|e] eqn:E; [|reflexivity].
  cbn [fst]. now apply playBeatAudio_fields in E as (-> & _).
Qed.

(** X21.  The active index and the finale.  In every state the player reaches,
    the active index is the initial 0 or an index below the number of
    beats (it can be negative); with at least one beat it is never the
    position of the finale or beyond.  A scroll event whose rounded index is the number of beats or
    more - the finale - changes nothing but the progress: the last active
    beat stays active and its clip goes on. *)
Theorem finale_keeps_beat (story : RecallStory.t) (p : Player.t) :
  reachable story p ->
  (Player.activeBeatIndex p = Int 0 \/
   lt_length (Player.activeBeatIndex p) (length (RecallStory.beats story))
   = true) /\
  (forall k, Player.activeBeatIndex p = Int k ->
             k = 0 \/ k < Z.of_nat (length (RecallStory.beats story))) /\
  (forall m h k,
      Math_round (js_div (Metrics.scrollTop m) h) = Int k ->
      Z.of_nat (length (RecallStory.beats story)) <= k ->
      handleScroll story (Some m) h p
      = (Player.setScrollProgress
           (js_div (Metrics.scrollTop m)
                   (Metrics.scrollHeight m - Metrics.clientHeight m)%float) p,
         None)).
Proof.
  intros Hr.
  assert (Hinv : Player.activeBeatIndex p = Int 0 \/
                 lt_length (Player.activeBeatIndex p)
                           (length (RecallStory.beats story)) = true).
  { induction Hr as [|p a Hr IH]; [now left|].
    destruct a as [c h | n | v]; cbn [step].
    - destruct c as [m|]; [|exact IH].
      rewrite handleScroll_activeBeatIndex.
      destruct (strict_neq _ _); cbn [andb]; [|exact IH].
      destruct (lt_length (Math_round _) _) eqn:Hlt;
        [right; exact Hlt | exact IH].
    - unfold clipEnds. destruct (in_dec _ _ _); exact IH.
    - exact IH. }
  split; [exact Hinv|]. split.
  - intros k Hk. rewrite Hk in Hinv. destruct Hinv as [[= ->] | Hlt];
      [now left|].
    right. cbn in Hlt. now apply Z.ltb_lt.
  - intros m h k Hk Hge. unfold handleScroll. rewrite Hk. cbn [lt_length].
    destruct (Z.ltb_spec k (Z.of_nat (length (RecallStory.beats story))));
      [lia|].
    now rewrite andb_false_r.
Qed.

Lemma finale_keeps_beat_witness :
  handleScroll demo (scrolledTo 2400) 800
    (run demo [Scroll (scrolledTo 1600) 800] (mount demo))
  = (Player.setScrollProgress (js_div 2400 (3200 - 800))
       (run demo [Scroll (scrolledTo 1600) 800] (mount demo)), None).
Proof.
  apply (proj2 (proj2 (finale_keeps_beat demo
                         (run demo [Scroll (scrolledTo 1600) 800] (mount demo))
                         (reachable_run demo _ _ (reach_mount demo))))
           (Metrics.mk 2400 3200 800) 800%float 3).
  - reflexivity.
  - cbn. lia.
Defined.

(** X22.  The media shown behind the active beat.  It is always one of the
    media items, and there is none only when there are no media.  When
    the active beat names the id of some item, the first item with that
    id is shown; otherwise - the beat names no id, or an id that no item
    has, or the active index lies outside the beats - the first media
    item is shown. *)
Theorem activeMedia_spec (story : RecallStory.t) (media : list MediaItem.t)
  (p : Player.t) :
  (activeMedia story media p = None <-> media = []) /\
  (forall m, activeMedia story media p = Some m -> In m media) /\
  (forall b id pre m post,
      activeBeat story p = Some b ->
      StoryBeat.associatedMediaId b = Some id ->
      media = (pre ++ m :: post)%list -> MediaItem.id m = id ->
      (forall x, In x pre -> MediaItem.id x <> id) ->
      activeMedia story media p = Some m) /\
  ((forall x, In x media -> showsBeat (activeBeat story p) x = false) ->
   activeMedia story media p = hd_error media) /\
  (activeBeat story p = None -> activeMedia story media p = hd_error media).
Proof.
  unfold activeMedia.
  assert (Hhd : JS.array_get media 0 = hd_error media) by now destruct media.
  rewrite Hhd. split; [|split; [|split; [|split]]].
  - destruct (find _ media) as [x|] eqn:F.
    + split; [discriminate|]. intros ->. discriminate F.
    + destruct media; cbn; split; congruence.
  - intros m. destruct (find _ media) as [x|] eqn:F.
    + intros [= <-]. now apply find_some in F.
    + destruct media; cbn; [discriminate|]. intros [= <-]. now left.
  - intros b id pre m post Hb Hid -> Hm Hpre.
    assert (F : find (showsBeat (activeBeat story p)) (pre ++ m :: post)
                = Some m).
    { apply find_first. exists pre, post. split; [reflexivity|].
      rewrite Hb. unfold showsBeat. rewrite Hid. split.
      - now apply String.eqb_eq.
      - intros x Hx. apply String.eqb_neq. now apply Hpre. }
    now rewrite F.
  - intros H. apply find_none_iff in H. now rewrite H.
  - intros Hb. rewrite Hb.
    assert (F : find (showsBeat None) media = None)
      by (apply find_none_iff; reflexivity).
    now rewrite F.
Qed.

Lemma activeMedia_spec_witness :
  activeMedia
    (RecallStory.mk "Italy" [StoryBeat.mk 0 "One" (Some "b") None None])
    [photo "a"; photo "b"] (mount demo) = Some (photo "b").
Proof.
  apply (proj1 (proj2 (proj2 (activeMedia_spec
                                (RecallStory.mk "Italy"
                                   [StoryBeat.mk 0 "One" (Some "b") None None])
                                [photo "a"; photo "b"] (mount demo))))
           (StoryBeat.mk 0 "One" (Some "b") None None) "b"
           [photo "a"] (photo "b") [] eq_refl eq_refl eq_refl eq_refl).
  intros x [<- | []]. discriminate.
Defined.

(** ** [transcribeAudio] and the end of the player *)

(** X23.  [transcribeAudio].  A rejected call is the only failure.  Otherwise
    the result is the provider's text without the white space at its two
    ends (ASCII or not: the no-break and the other Unicode spaces, the
    line and paragraph separators and the byte order mark are removed as
    well), and the empty text when the provider gave no text or white
    space only. *)
Theorem transcribe_spec (stt : string -> option (option string))
  (audio : string) :
  (transcribeAudio stt audio = inl ProviderRejected <-> stt audio = None) /\
  (stt audio = Some None -> transcribeAudio stt audio = inr "") /\
  (forall text, stt audio = Some (Some text) ->
     exists t, transcribeAudio stt audio = inr t /\ trimmedOf text t /\
               (t = "" <-> allSpaces text)).
Proof.
  unfold transcribeAudio. split; [|split].
  - destruct (stt audio); split; congruence.
  - now intros ->.
  - intros text ->. cbn [option_map JS.or_else].
    exists (Str.trim text).
    split; [now destruct (Str.trim text)|].
    split; [apply trim_trimmedOf | apply trim_empty].
Qed.

Lemma transcribe_spec_witness :
  exists t,
    transcribeAudio
      (fun _ => Some (Some (nbsp ++ " Rome then Venice " ++ emSpace)))
      "UklGRg" = inr t /\
    t = "Rome then Venice".
Proof.
  destruct (proj2 (proj2 (transcribe_spec
                            (fun _ => Some (Some (nbsp ++ " Rome then Venice "
                                                    ++ emSpace)))
                            "UklGRg"))
              (nbsp ++ " Rome then Venice " ++ emSpace) eq_refl)
    as (t & Ht & _).
  exists t. split; [exact Ht|]. now injection Ht as <-.
Defined.

Lemma reachable_context story p :
  reachable story p -> Player.audioContextRef p = true.
Proof.
  induction 1 as [|p a Hr IH]; [reflexivity|].
  destruct a as [c h | n | v]; cbn [step]; [| |exact IH].
  - unfold handleScroll. destruct c as [m|]; [|exact IH].
    destruct (strict_neq _ _ && lt_length _ _)%bool; [|exact IH].
    destruct (playBeatAudio _ _) as [p3|e] eqn:E; [|exact IH].
    cbn [fst]. now apply playBeatAudio_fields in E as (_ & _ & ->).
  - unfold clipEnds. destruct (in_dec _ _ _); exact IH.
Qed.

(** X24.  Leaving the player.  In every state the player reaches, the cleanup
    of the mount effect finds the audio context set and closes it; this
    is the last audio event, and after it no clip sounds, whatever was
    sounding before. *)
Theorem exit_silences (story : RecallStory.t) (p : Player.t) :
  reachable story p ->
  Player.audioLog (unmount p) = (Player.audioLog p ++ [Closed])%list /\
  sounding (Player.audioLog (unmount p)) = [].
Proof.
  intros Hr. unfold unmount. rewrite (reachable_context story p Hr).
  cbn [Player.log Player.audioLog]. split; [reflexivity|].
  now rewrite sounding_snoc.
Qed.

Lemma exit_silences_witness :
  sounding (Player.audioLog (run demo [Scroll (scrolledTo 1600) 800] (mount demo)))
  = [0%nat] /\
  sounding
    (Player.audioLog
       (unmount (run demo [Scroll (scrolledTo 1600) 800] (mount demo)))) = [].
Proof.
  split; [reflexivity|].
  apply (exit_silences demo).
  apply reachable_run. constructor.
Defined.
